(** * Translatron: the incremental change-detection core

    A shallow embedding of the ledger (src/ledger/index.ts), the planner and
    the manual-override detector (src/planner/index.ts), the hashing
    utilities (utils/hash) and the validation pipeline (validation/index),
    with the properties the specification states about them; then the code
    around them: the queries and the run history of the ledger, the
    compiler's [sync] and [retryFailed], the JSON extractor, the report and
    the providers' retry, with further properties read off the code.

    Conventions.
    - A JavaScript string is modelled by [string]: a finite sequence of
      UTF-16 code units, each given by its number.  [===] on strings is
      Leibniz equality, the default [Array.prototype.sort] order is the
      lexicographic order on code units.
    - A JavaScript [number] that the code uses as a double is a primitive
      binary64 float; counts and indices are [nat].
    - The SQLite tables are finite maps from their primary key to the other
      columns.  [CURRENT_TIMESTAMP] is an explicit argument of the writes.
    - [T | null] and optional arguments are [option T]. *)

From Stdlib Require Import Floats Uint63 NArith Zpow_facts.
From Stdlib.Strings Require Import Byte.
From stdpp Require Import gmap list sorting.

Set Default Proof Using "Type".

(** ** JavaScript strings (ECMAScript 6.1.4) *)

(** A UTF-16 code unit, by its number; those of JavaScript are below 65536. *)
Definition CodeUnit := N.

Inductive string :=
  | EmptyString
  | String (c : CodeUnit) (s : string).

Module String.

(** [s1 + s2] *)
Fixpoint append (s1 s2 : string) : string :=
  match s1 with
  | EmptyString => s2
  | String c s1' => String c (append s1' s2)
  end.

(** [s.length] *)
Fixpoint length (s : string) : nat :=
  match s with
  | EmptyString => 0
  | String _ s' => S (length s')
  end.

(** [ls.join(sep)] *)
Fixpoint concat (sep : string) (ls : list string) : string :=
  match ls with
  | [] => EmptyString
  | [x] => x
  | x :: xs => append x (append sep (concat sep xs))
  end.

(** [s2.startsWith(s1)] *)
Fixpoint prefix (s1 s2 : string) {struct s2} : bool :=
  match s1 with
  | EmptyString => true
  | String a s1' =>
      match s2 with
      | EmptyString => false
      | String b s2' => if decide (a = b) then prefix s1' s2' else false
      end
  end.

(** [s.substring(n, n + m)] *)
Fixpoint substring (n m : nat) (s : string) : string :=
  match n, m, s with
  | 0, 0, _ => EmptyString
  | 0, S m', EmptyString => s
  | 0, S m', String c s' => String c (substring 0 m' s')
  | S n', _, EmptyString => s
  | S n', _, String c s' => substring n' m s'
  end.

(** The code units of a string, and back. *)
Fixpoint units (s : string) : list CodeUnit :=
  match s with
  | EmptyString => []
  | String c s' => c :: units s'
  end.

Fixpoint of_units (l : list CodeUnit) : string :=
  match l with
  | [] => EmptyString
  | c :: l' => String c (of_units l')
  end.

(** The order of [<=] on strings, and of the default [sort]: code unit by
    code unit, a proper prefix first. *)
Fixpoint leb (s1 s2 : string) : bool :=
  match s1, s2 with
  | EmptyString, _ => true
  | String _ _, EmptyString => false
  | String c1 s1', String c2 s2' =>
      if (c1 <? c2)%N then true
      else if (c1 =? c2)%N then leb s1' s2'
      else false
  end.

Definition le (s1 s2 : string) : Prop := Is_true (leb s1 s2).

(** String literals of this file are ASCII. *)
Fixpoint of_bytes (bs : list byte) : option string :=
  match bs with
  | [] => Some EmptyString
  | b :: bs' =>
      if (Byte.to_N b <? 128)%N
      then String (Byte.to_N b) <$> of_bytes bs'
      else None
  end.

Fixpoint to_bytes (s : string) : option (list byte) :=
  match s with
  | EmptyString => Some []
  | String c s' =>
      match Byte.of_N c with
      | Some b => (b ::.) <$> to_bytes s'
      | None => None
      end
  end.

Definition unit_of_bytes (bs : list byte) : option CodeUnit :=
  match bs with
  | [b] => if (Byte.to_N b <? 128)%N then Some (Byte.to_N b) else None
  | _ => None
  end.

Definition unit_to_bytes (c : CodeUnit) : option (list byte) := None.

End String.

Declare Scope js_scope.
Delimit Scope js_scope with js.
Bind Scope js_scope with string.
String Notation string String.of_bytes String.to_bytes : js_scope.
Infix "+:+" := String.append (at level 60, right associativity) : js_scope.
Arguments String.append : simpl never.
Open Scope js_scope.

Declare Scope unit_scope.
Delimit Scope unit_scope with unit.
String Notation N String.unit_of_bytes String.unit_to_bytes : unit_scope.

#[export] Instance string_eq_dec : EqDecision string.
Proof. solve_decision. Defined.

#[export] Instance string_inhabited : Inhabited string := populate "".

#[export] Instance string_countable : Countable string.
Proof.
  apply (inj_countable' String.units String.of_units).
  intros s. induction s as [|c s IH]; simpl; [done|by rewrite IH].
Defined.

#[export] Instance string_le_dec : RelDecision String.le.
Proof. intros s1 s2. unfold String.le. apply _. Defined.

(** [String(n)] and [`${n}`] on a natural number: its decimal digits. *)
Class Pretty (A : Type) := pretty : A → string.

Fixpoint pretty_N_go (fuel : nat) (x : N) (acc : string) : string :=
  match fuel with
  | 0 => acc
  | S fuel' =>
      if decide (x = 0%N) then acc
      else pretty_N_go fuel' (x / 10)%N (String (48 + x mod 10)%N acc)
  end.

#[export] Instance pretty_N : Pretty N := λ x,
  if decide (x = 0%N) then "0" else pretty_N_go (N.size_nat x) x "".

#[export] Instance pretty_nat : Pretty nat := λ x, pretty (N.of_nat x).

(** ** Ledger (src/ledger/index.ts) *)

Module Ledger.

(** [SyncStatusType]: the closed set the CHECK constraint admits. *)
Inductive SyncStatusType := CLEAN | DIRTY | FAILED | MANUAL | SKIPPED.

#[export] Instance SyncStatusType_eq_dec : EqDecision SyncStatusType.
Proof. solve_decision. Defined.

Definition Timestamp := string.

(** A row of [source_hashes] without its primary key [key_path]. *)
Record SourceHashRow := mkSourceHashRow {
  value_hash : string;
  context_sig : option string;
  last_seen_run : option string;
  sh_updated_at : Timestamp
}.

(** A row of [sync_status] without its primary key [(key_path, lang_code)]. *)
Record SyncStatusRow := mkSyncStatusRow {
  row_target_hash : string;
  row_status : SyncStatusType;
  row_model_fingerprint : option string;
  row_prompt_version : option Z;
  row_updated_at : Timestamp
}.

(** [interface SyncStatus]: what [SELECT *] hands back. *)
Record SyncStatus := mkSyncStatus {
  key_path : string;
  lang_code : string;
  target_hash : string;
  status : SyncStatusType;
  model_fingerprint : option string;
  prompt_version : option Z;
  updated_at : Timestamp
}.

(** The database: the two tables change detection reads and writes. *)
Record t := mkLedger {
  source_hashes : gmap string SourceHashRow;
  sync_status : gmap (string * string) SyncStatusRow
}.

(** A freshly created ledger file: [CREATE TABLE IF NOT EXISTS] only. *)
Definition empty : t := {| source_hashes := ∅; sync_status := ∅ |}.

(** JavaScript's [s || null] on a string: the empty string is falsy. *)
Definition str_or_null (s : string) : option string :=
  if decide (s = "") then None else Some s.

(** [x || null] on an optional string argument. *)
Definition opt_str_or_null (o : option string) : option string :=
  o ≫= str_or_null.

(** [n || null] on an optional integer argument: 0 is falsy. *)
Definition opt_num_or_null (o : option Z) : option Z :=
  o ≫= λ n, if decide (n = 0%Z) then None else Some n.

(** [getSourceHash]: [row?.value_hash || null]. *)
Definition getSourceHash (L : t) (keyPath : string) : option string :=
  match source_hashes L !! keyPath with
  | Some row => str_or_null (value_hash row)
  | None => None
  end.

(** [updateSourceHash]: upsert, every column overwritten. *)
Definition updateSourceHash (L : t) (now : Timestamp) (keyPath valueHash : string)
    (contextSig runId : option string) : t :=
  {| source_hashes :=
       <[keyPath := {| value_hash := valueHash;
                       context_sig := opt_str_or_null contextSig;
                       last_seen_run := opt_str_or_null runId;
                       sh_updated_at := now |}]> (source_hashes L);
     sync_status := sync_status L |}.

(** [getSyncStatus]: [row || null]; a row object is always truthy. *)
Definition getSyncStatus (L : t) (keyPath langCode : string) : option SyncStatus :=
  match sync_status L !! (keyPath, langCode) with
  | Some row =>
      Some {| key_path := keyPath;
              lang_code := langCode;
              target_hash := row_target_hash row;
              status := row_status row;
              model_fingerprint := row_model_fingerprint row;
              prompt_version := row_prompt_version row;
              updated_at := row_updated_at row |}
  | None => None
  end.

(** [updateSyncStatus]: upsert on [(key_path, lang_code)]. *)
Definition updateSyncStatus (L : t) (now : Timestamp) (keyPath langCode targetHash : string)
    (st : SyncStatusType) (modelFingerprint : option string) (promptVersion : option Z) : t :=
  {| source_hashes := source_hashes L;
     sync_status :=
       <[(keyPath, langCode) :=
           {| row_target_hash := targetHash;
              row_status := st;
              row_model_fingerprint := opt_str_or_null modelFingerprint;
              row_prompt_version := opt_num_or_null promptVersion;
              row_updated_at := now |}]> (sync_status L) |}.

(** [transaction(fn)]: better-sqlite3 runs [fn] and commits what it wrote;
    a model without storage failures has no rollback path. *)
Definition transaction {A : Type} (fn : t → t * A) (L : t) : t * A := fn L.

End Ledger.

(** ** Shared types (src/types/index.ts) *)

Module Types.

Record SourceUnit := mkSourceUnit {
  unitId : string;
  keyPath : string;
  sourceText : string;
  sourceHash : string;
  context : option string;
  placeholders : list string;
  sourceFile : string;
  schemaVersion : Z
}.

Record TargetLanguage := mkTargetLanguage {
  language : string;
  shortCode : string
}.

Record TranslationBatch := mkTranslationBatch {
  batchId : string;
  sourceUnits : list SourceUnit;
  targetLanguage : string;
  deduplicationKey : string
}.

Record TranslationPlan := mkTranslationPlan {
  batches : list TranslationBatch;
  totalUnits : nat;
  estimatedCost : float
}.

Record TranslationResult := mkTranslationResult {
  tr_unitId : string;
  translatedText : string;
  tr_confidence : option float
}.

(** An array length or a count, read as a double. *)
Definition number_of_nat (n : nat) : float :=
  PrimFloat.of_uint63 (Uint63.of_Z (Z.of_nat n)).

End Types.

(** ** Planner and manual-override detector (src/planner/index.ts) *)

Module Planner.
Import Ledger Types.

(** The decision chain in the body of [detectChanges]'s loop: does the unit
    go onto the array? *)
Definition unitNeedsTranslation (L : Ledger.t) (targetLang : string) (unit : SourceUnit) : bool :=
  let storedHash := getSourceHash L (keyPath unit) in
  let sourceChanged := bool_decide (storedHash ≠ Some (sourceHash unit)) in
  let syncStatus := getSyncStatus L (keyPath unit) targetLang in
  match syncStatus with
  | None => true
  | Some syncStatus =>
      if decide (status syncStatus = MANUAL) then false
      else if sourceChanged then true
      else if decide (status syncStatus = FAILED ∨ status syncStatus = DIRTY) then true
      else false
  end.

(** [detectChanges]: the units pushed onto the array [needsTranslation], in
    order. *)
Fixpoint detectChanges (L : Ledger.t) (sourceUnits : list SourceUnit) (targetLang : string)
    : list SourceUnit :=
  match sourceUnits with
  | [] => []
  | unit :: rest =>
      if unitNeedsTranslation L targetLang unit
      then unit :: detectChanges L rest targetLang
      else detectChanges L rest targetLang
  end.

(** [Array.prototype.slice(start, end)] for [0 ≤ start ≤ end]. *)
Definition slice {A} (l : list A) (start end_ : nat) : list A :=
  take (end_ - start) (drop start l).

Definition defaultBatchSize : nat := 20.

Set Warnings "-inexact-float".

(** [estimateCost]: 100 tokens a unit at $0.01 per 1000 tokens. *)
Definition estimateCost (totalUnits : nat) : float :=
  let tokensPerUnit := 100%float in
  let totalTokens := (number_of_nat totalUnits * tokensPerUnit)%float in
  let costPer1kTokens := 0.01%float in
  ((totalTokens / 1000) * costPer1kTokens)%float.

Set Warnings "+inexact-float".

Section WithHost.

(** SHA-256 as a hex string, from node's [crypto]. *)
Variable computeHash : string → string.

(** [Date.now()]: the value of its n-th reading during a call. *)
Variable dateNow : nat → N.

(** The [for (let i = 0; i < units.length; i += batchSize)] loop of
    [createBatches], from index [i], at clock reading [tick].  The loop runs
    at most [units.length] times when [batchSize ≥ 1]; with [batchSize = 0]
    the source loop does not terminate and no caller passes it. *)
Fixpoint createBatches_loop (fuel : nat) (units : list SourceUnit) (targetLang : string)
    (batchSize tick i : nat) : list TranslationBatch :=
  match fuel with
  | 0 => []
  | S fuel' =>
      if decide (i < length units) then
        let batchUnits := slice units i (i + batchSize) in
        let batchId :=
          "batch_" +:+ targetLang +:+ "_" +:+ pretty (dateNow tick) +:+ "_" +:+ pretty i in
        let contentHash :=
          computeHash (String.concat "_" (map sourceHash batchUnits)) in
        {| batchId := batchId;
           sourceUnits := batchUnits;
           targetLanguage := targetLang;
           deduplicationKey := contentHash |}
        :: createBatches_loop fuel' units targetLang batchSize (S tick) (i + batchSize)
      else []
  end.

Definition createBatches (units : list SourceUnit) (targetLang : string)
    (batchSize tick : nat) : list TranslationBatch :=
  createBatches_loop (length units) units targetLang batchSize tick 0.

(** The [for (const lang of targetLanguages)] loop of [createPlan], with its
    two accumulators and the clock. *)
Fixpoint createPlan_loop (L : Ledger.t) (sourceUnits : list SourceUnit)
    (targetLanguages : list TargetLanguage)
    (batches : list TranslationBatch) (totalUnits tick : nat)
    : list TranslationBatch * nat :=
  match targetLanguages with
  | [] => (batches, totalUnits)
  | lang :: rest =>
      let unitsNeedingTranslation := detectChanges L sourceUnits (shortCode lang) in
      if decide (length unitsNeedingTranslation = 0) then
        createPlan_loop L sourceUnits rest batches totalUnits tick
      else
        let langBatches :=
          createBatches unitsNeedingTranslation (shortCode lang) defaultBatchSize tick in
        createPlan_loop L sourceUnits rest (batches ++ langBatches)
          (totalUnits + length unitsNeedingTranslation) (tick + length langBatches)
  end.

Definition createPlan (L : Ledger.t) (sourceUnits : list SourceUnit)
    (targetLanguages : list TargetLanguage) : TranslationPlan :=
  let '(batches, totalUnits) := createPlan_loop L sourceUnits targetLanguages [] 0 0 in
  {| batches := batches;
     totalUnits := totalUnits;
     estimatedCost := estimateCost totalUnits |}.

End WithHost.

(** [ManualOverrideDetector.isManualOverride]. *)
Definition isManualOverride (L : Ledger.t) (keyPath langCode currentHash : string) : bool :=
  match getSyncStatus L keyPath langCode with
  | None => false
  | Some syncStatus =>
      if decide (status syncStatus = MANUAL) then true
      else if decide (status syncStatus = CLEAN ∧ target_hash syncStatus ≠ currentHash) then true
      else false
  end.

(** [ManualOverrideDetector.markAsManualOverride]. *)
Definition markAsManualOverride (L : Ledger.t) (now : Timestamp)
    (keyPath langCode targetHash : string) : Ledger.t :=
  updateSyncStatus L now keyPath langCode targetHash MANUAL None None.

End Planner.

(** ** Hashing utilities (src/utils/hash.ts) *)

Module Hash.

(** *** The regular expressions of [extractPlaceholders]

    The five patterns use literals, character classes and a greedy [+] on a
    class; capture groups do not change [match[0]] and are left out. *)

Inductive atom :=
  | Lit (c : CodeUnit)         (* a literal character, e.g. [\{] *)
  | NotLit (c : CodeUnit)      (* a negated class of one character, [[^}]] *)
  | OneOf (cs : list CodeUnit) (* a class, [[sdif]] *)
  | Digit.                     (* [\d] without the [u] flag: [[0-9]] *)

Inductive item :=
  | One (a : atom)             (* the atom once *)
  | Plus (a : atom).           (* the atom one or more times, greedy *)

Definition regex := list item.

Definition is_digit (c : CodeUnit) : bool :=
  ((48 <=? c) && (c <=? 57))%N.

Definition accepts (a : atom) (c : CodeUnit) : bool :=
  match a with
  | Lit x => bool_decide (c = x)
  | NotLit x => bool_decide (c ≠ x)
  | OneOf cs => bool_decide (c ∈ cs)
  | Digit => is_digit c
  end.

(** Backtracking match of [r] at the start of [s]: the matched text and the
    rest of the input.  A greedy [+] first tries to take one more character
    and gives it back when the rest of the pattern then fails. *)
Fixpoint match_at (r : regex) (s : string) {struct r} : option (string * string) :=
  match r with
  | [] => Some ("", s)
  | One a :: r' =>
      match s with
      | String c s' =>
          if accepts a c
          then (λ '(m, rest), (String c m, rest)) <$> match_at r' s'
          else None
      | EmptyString => None
      end
  | Plus a :: r' =>
      (fix many (s : string) : option (string * string) :=
         match s with
         | String c s' =>
             if accepts a c then
               match many s' with
               | Some (m, rest) => Some (String c m, rest)
               | None => (λ '(m, rest), (String c m, rest)) <$> match_at r' s'
               end
             else None
         | EmptyString => None
         end) s
  end.

(** [text.matchAll(r)] for a global [r]: [match[0]] of the successive
    leftmost matches; the scan resumes where a match ended, one code unit
    further after an empty match. *)
Fixpoint matchAll_loop (fuel : nat) (r : regex) (s : string) : list string :=
  match fuel with
  | 0 => []
  | S fuel' =>
      match match_at r s with
      | Some (m, rest) =>
          if decide (m = "") then
            m :: match s with
                 | String _ s' => matchAll_loop fuel' r s'
                 | EmptyString => []
                 end
          else m :: matchAll_loop fuel' r rest
      | None =>
          match s with
          | String _ s' => matchAll_loop fuel' r s'
          | EmptyString => []
          end
      end
  end.

Definition matchAll (r : regex) (text : string) : list string :=
  matchAll_loop (S (String.length text)) r text.

(** [/\{([^}]+)\}/g] *)
Definition re_brace : regex :=
  [One (Lit "{"%unit); Plus (NotLit "}"%unit); One (Lit "}"%unit)].
(** [/\{\{([^}]+)\}\}/g] *)
Definition re_double_brace : regex :=
  [One (Lit "{"%unit); One (Lit "{"%unit); Plus (NotLit "}"%unit);
   One (Lit "}"%unit); One (Lit "}"%unit)].
(** [/%[sdif]/g] *)
Definition re_printf : regex :=
  [One (Lit "%"%unit); One (OneOf ["s"%unit; "d"%unit; "i"%unit; "f"%unit])].
(** [/\$\{([^}]+)\}/g] *)
Definition re_dollar_brace : regex :=
  [One (Lit "$"%unit); One (Lit "{"%unit); Plus (NotLit "}"%unit); One (Lit "}"%unit)].
(** [/\$\d+/g] *)
Definition re_dollar_digits : regex := [One (Lit "$"%unit); Plus Digit].

Definition patterns : list regex :=
  [re_brace; re_double_brace; re_printf; re_dollar_brace; re_dollar_digits].

(** *** [Set<string>]: insertion-ordered, without duplicates *)

Definition JSSet := list string.

Definition set_add (st : JSSet) (x : string) : JSSet :=
  if decide (x ∈ st) then st else (st ++ [x])%list.

Definition set_has (st : JSSet) (x : string) : bool := bool_decide (x ∈ st).

(** [new Set(array)] *)
Definition set_of_array (l : list string) : JSSet := foldl set_add [] l.

(** *** [Array.prototype.sort()] with the default comparison *)

(** Strings compare by code units, a proper prefix first: [String.le]. *)
Definition sort (l : list string) : list string := merge_sort String.le l.

(** [extractPlaceholders] *)
Definition extractPlaceholders (text : string) : list string :=
  let placeholders :=
    foldl (λ placeholders pattern, foldl set_add placeholders (matchAll pattern text))
          [] patterns in
  sort placeholders.

End Hash.

(** ** Validation pipeline (src/validation/index.ts) *)

Module Validation.
Import Types Hash.

Record ValidationError := mkValidationError {
  type : string;
  message : string;
  field : option string
}.

Record ValidationWarning := mkValidationWarning {
  w_type : string;
  w_message : string;
  w_field : option string
}.

Record ValidationResult := mkValidationResult {
  isValid : bool;
  errors : list ValidationError;
  warnings : list ValidationWarning;
  confidence : float
}.

(** The constructor's [config] object; every key is optional. *)
Record Config := mkConfig {
  preservePlaceholders : option bool;
  maxLengthRatio : option float;
  preventSourceLeakage : option bool;
  brandNames : option (list string)
}.

(** *** String built-ins *)

(** The code units [trim] strips and [\s] matches: WhiteSpace and
    LineTerminator of ECMAScript (11.2, 11.3).  TAB, LF, VT, FF, CR, SP,
    NBSP, U+1680, U+2000 to U+200A, U+2028, U+2029, U+202F, U+205F, U+3000
    and U+FEFF. *)
Definition is_ws (c : CodeUnit) : bool :=
  bool_decide (c ∈ [9; 10; 11; 12; 13; 32; 160; 5760;
                    8192; 8193; 8194; 8195; 8196; 8197; 8198; 8199; 8200; 8201; 8202;
                    8232; 8233; 8239; 8287; 12288; 65279]%N).

Fixpoint trimStart (s : string) : string :=
  match s with
  | String c s' => if is_ws c then trimStart s' else s
  | EmptyString => EmptyString
  end.

Fixpoint trimEnd (s : string) : string :=
  match s with
  | String c s' =>
      let t := trimEnd s' in
      if is_ws c && bool_decide (t = "") then "" else String c t
  | EmptyString => EmptyString
  end.

(** [String.prototype.trim] *)
Definition trim (s : string) : string := trimEnd (trimStart s).

(** [s.split(/\s+/)]: [cur] is the piece being read, [in_sep] says that the
    previous code unit was white space. *)
Fixpoint split_ws_loop (s cur : string) (in_sep : bool) : list string :=
  match s with
  | String c s' =>
      if is_ws c then
        if in_sep then split_ws_loop s' cur true
        else cur :: split_ws_loop s' "" true
      else split_ws_loop s' (cur +:+ String c "") false
  | EmptyString => [cur]
  end.

Definition split_ws (s : string) : list string := split_ws_loop s "" false.

(** [String.prototype.includes] *)
Fixpoint includes (s sub : string) : bool :=
  String.prefix sub s ||
  match s with
  | String _ s' => includes s' sub
  | EmptyString => false
  end.

(** [x || 3] on the optional number: absent, 0 and NaN are falsy. *)
Definition ratio_or_default (o : option float) : float :=
  match o with
  | Some r => if PrimFloat.is_zero r || PrimFloat.is_nan r then 3%float else r
  | None => 3%float
  end.

Set Warnings "-inexact-float".

Section Pipeline.

(** [Number.prototype.toFixed(1)] and the number-to-string conversion of a
    template literal, from the host. *)
Variable toFixed1 : float → string.
Variable numberToString : float → string.

(** [String.prototype.toLowerCase], from the host: the lower-case mapping of
    the Unicode character database. *)
Variable toLowerCase : string → string.

Variable config : Config.

(** [validatePlaceholders] *)
Definition validatePlaceholders (sourceUnit : SourceUnit) (result : TranslationResult)
    : list ValidationError :=
  let sourcePlaceholders := set_of_array (placeholders sourceUnit) in
  let translatedPlaceholders := set_of_array (extractPlaceholders (translatedText result)) in
  let missing :=
    omap (λ placeholder,
            if negb (set_has translatedPlaceholders placeholder)
            then Some {| type := "MISSING_PLACEHOLDER";
                         message := "Missing placeholder: " +:+ placeholder;
                         field := Some placeholder |}
            else None) sourcePlaceholders in
  let extra :=
    omap (λ placeholder,
            if negb (set_has sourcePlaceholders placeholder)
            then Some {| type := "EXTRA_PLACEHOLDER";
                         message := "Unexpected placeholder: " +:+ placeholder;
                         field := Some placeholder |}
            else None) translatedPlaceholders in
  (missing ++ extra)%list.

(** [validateSemantics] *)
Definition validateSemantics (sourceUnit : SourceUnit) (result : TranslationResult)
    : list ValidationWarning :=
  let maxLengthRatio := ratio_or_default (maxLengthRatio config) in
  let sourceLength := number_of_nat (String.length (sourceText sourceUnit)) in
  let translatedLength := number_of_nat (String.length (translatedText result)) in
  let ratio := (translatedLength / sourceLength)%float in
  if PrimFloat.ltb maxLengthRatio ratio then
    [ {| w_type := "LENGTH_RATIO_EXCEEDED";
         w_message := "Translation is " +:+ toFixed1 ratio +:+ "x longer than source (max: "
                      +:+ numberToString maxLengthRatio +:+ "x)";
         w_field := None |} ]
  else [].

(** [detectSourceLeakage] *)
Definition detectSourceLeakage (sourceUnit : SourceUnit) (result : TranslationResult) : bool :=
  let normalizedSource := trim (toLowerCase (sourceText sourceUnit)) in
  let normalizedTranslation := trim (toLowerCase (translatedText result)) in
  if decide (normalizedSource = normalizedTranslation) then true
  else
    let sourceWords := set_of_array (split_ws normalizedSource) in
    let translationWords := set_of_array (split_ws normalizedTranslation) in
    let matchCount := length (filter (λ word, set_has translationWords word = true) sourceWords) in
    let similarity := (number_of_nat matchCount / number_of_nat (length sourceWords))%float in
    PrimFloat.ltb 0.8 similarity.

(** [validateBrandNames] *)
Definition validateBrandNames (sourceUnit : SourceUnit) (result : TranslationResult)
    : list ValidationWarning :=
  let brandNames := default [] (brandNames config) in
  omap (λ brandName,
          let sourceHasBrand := includes (sourceText sourceUnit) brandName in
          let translationHasBrand := includes (translatedText result) brandName in
          if sourceHasBrand && negb translationHasBrand
          then Some {| w_type := "MISSING_BRAND_NAME";
                       w_message := "Brand name " +:+ String 34%N "" +:+ brandName
                                    +:+ String 34%N ""
                                    +:+ " not preserved in translation";
                       w_field := Some brandName |}
          else None) brandNames.

(** Stage 2 of [validate]: the errors so far and the confidence. *)
Definition stage_placeholders (sourceUnit : SourceUnit) (result : TranslationResult)
    (errors : list ValidationError) (confidence : float) : list ValidationError * float :=
  if decide (preservePlaceholders config ≠ Some false) then
    let placeholderErrors := validatePlaceholders sourceUnit result in
    ((errors ++ placeholderErrors)%list,
     if decide (0 < length placeholderErrors) then (confidence * 0.5)%float else confidence)
  else (errors, confidence).

(** Stage 3. *)
Definition stage_semantics (sourceUnit : SourceUnit) (result : TranslationResult)
    (warnings : list ValidationWarning) (confidence : float) : list ValidationWarning * float :=
  let semanticWarnings := validateSemantics sourceUnit result in
  ((warnings ++ semanticWarnings)%list,
   if decide (0 < length semanticWarnings) then (confidence * 0.8)%float else confidence).

(** Stage 4. *)
Definition stage_leakage (sourceUnit : SourceUnit) (result : TranslationResult)
    (errors : list ValidationError) (confidence : float) : list ValidationError * float :=
  if decide (preventSourceLeakage config ≠ Some false) then
    if detectSourceLeakage sourceUnit result then
      ((errors ++ [ {| type := "SOURCE_LEAKAGE";
                       message := "Translation appears to be in source language";
                       field := None |} ])%list,
       (confidence * 0.3)%float)
    else (errors, confidence)
  else (errors, confidence).

(** Stage 5. *)
Definition stage_brands (sourceUnit : SourceUnit) (result : TranslationResult)
    (warnings : list ValidationWarning) : list ValidationWarning :=
  match brandNames config with
  | Some (_ :: _) => (warnings ++ validateBrandNames sourceUnit result)%list
  | _ => warnings
  end.

(** [validate] *)
Definition validate (result : TranslationResult) (sourceUnit : SourceUnit) : ValidationResult :=
  let errors : list ValidationError := [] in
  let warnings : list ValidationWarning := [] in
  let confidence := 1.0%float in
  if bool_decide (translatedText result = "")
     || bool_decide (String.length (trim (translatedText result)) = 0)
  then
    {| isValid := false;
       errors := (errors ++ [ {| type := "EMPTY_TRANSLATION";
                                 message := "Translation is empty";
                                 field := None |} ])%list;
       warnings := warnings;
       confidence := 0%float |}
  else
    let '(errors, confidence) := stage_placeholders sourceUnit result errors confidence in
    let '(warnings, confidence) := stage_semantics sourceUnit result warnings confidence in
    let '(errors, confidence) := stage_leakage sourceUnit result errors confidence in
    let warnings := stage_brands sourceUnit result warnings in
    {| isValid := bool_decide (length errors = 0);
       errors := errors;
       warnings := warnings;
       confidence := confidence |}.

End Pipeline.

Set Warnings "+inexact-float".

End Validation.

(** ** Importing existing translations

    Modelled from the spec: [importExistingTranslation] and
    [bulkImportTranslations] are methods of the ledger class that the source
    tree calls (the [import] command, the ledger import tests) but whose
    bodies it does not contain.  Section 4.2: [importExistingTranslation]
    marks the pair [CLEAN] directly; [bulkImportTranslations] does the same
    for many records inside one transaction, skipping records whose pair is
    already [CLEAN] and returning counts of imported/skipped/errored. *)

Module LedgerImport.
Import Ledger.

Record ImportRecord := mkImportRecord {
  keyPath : string;
  langCode : string;
  sourceHash : string;
  targetHash : string
}.

Record ImportStats := mkImportStats {
  totalRecords : nat;
  imported : nat;
  skipped : nat;
  errors : nat
}.

(** Modelled from the spec: the missing [importExistingTranslation]; it
    records the source hash and marks the pair [CLEAN] with the target
    hash, without any provider call. *)
Definition importExistingTranslation (L : Ledger.t) (now : Timestamp)
    (keyPath langCode sourceHash targetHash : string) (runId : option string) : Ledger.t :=
  let L := updateSourceHash L now keyPath sourceHash None runId in
  updateSyncStatus L now keyPath langCode targetHash CLEAN None None.

(** Modelled from the spec: one step of the missing [bulkImportTranslations],
    for the record at position [i]; [now i] is the time of its writes. *)
Definition import_step (now : nat → Timestamp) (runId : option string)
    (acc : Ledger.t * ImportStats * nat) (record : ImportRecord)
    : Ledger.t * ImportStats * nat :=
  let '(L, stats, i) := acc in
  match getSyncStatus L (keyPath record) (langCode record) with
  | Some existing =>
      if decide (status existing = CLEAN) then
        (L, {| totalRecords := totalRecords stats; imported := imported stats;
               skipped := S (skipped stats); errors := errors stats |}, S i)
      else
        (importExistingTranslation L (now i) (keyPath record) (langCode record)
           (sourceHash record) (targetHash record) runId,
         {| totalRecords := totalRecords stats; imported := S (imported stats);
            skipped := skipped stats; errors := errors stats |}, S i)
  | None =>
      (importExistingTranslation L (now i) (keyPath record) (langCode record)
         (sourceHash record) (targetHash record) runId,
       {| totalRecords := totalRecords stats; imported := S (imported stats);
          skipped := skipped stats; errors := errors stats |}, S i)
  end.

(** Modelled from the spec: the missing [bulkImportTranslations]. *)
Definition bulkImportTranslations (L : Ledger.t) (now : nat → Timestamp)
    (records : list ImportRecord) (runId : option string) : Ledger.t * ImportStats :=
  transaction
    (λ L, let '(L', stats, _) :=
            foldl (import_step now runId)
                  (L, {| totalRecords := length records; imported := 0;
                         skipped := 0; errors := 0 |}, 0)
                  records in
          (L', stats))
    L.

End LedgerImport.

(** ** Ledger: the queries for reporting and retry (src/ledger/index.ts)

    SQLite fixes no order for a [SELECT] without [ORDER BY]; the model lists
    the rows in the order of the finite map, and the properties below speak
    of membership and counts only. *)

Module LedgerQueries.
Import Ledger.

(** A row of [sync_status] with its key: [(key_path, lang_code)], columns. *)
Abbreviation SyncEntry := ((string * string) * SyncStatusRow)%type.

Definition entry_key_path (e : SyncEntry) : string := e.1.1.
Definition entry_lang_code (e : SyncEntry) : string := e.1.2.
Definition entry_status (e : SyncEntry) : SyncStatusType := row_status e.2.

(** [WHERE lang_code = ? AND status IN ('DIRTY', 'FAILED')] *)
Definition is_dirty (langCode : string) (e : SyncEntry) : Prop :=
  entry_lang_code e = langCode ∧ (entry_status e = DIRTY ∨ entry_status e = FAILED).

(** [WHERE lang_code = ? AND status = 'CLEAN'] *)
Definition is_translated (langCode : string) (e : SyncEntry) : Prop :=
  entry_lang_code e = langCode ∧ entry_status e = CLEAN.

(** [WHERE lang_code = ? AND status IN ('FAILED', 'DIRTY')] *)
Definition is_failed_or_dirty (langCode : string) (e : SyncEntry) : Prop :=
  entry_lang_code e = langCode ∧ (entry_status e = FAILED ∨ entry_status e = DIRTY).

(** [WHERE status = 'MANUAL'] *)
Definition is_manual (e : SyncEntry) : Prop := entry_status e = MANUAL.

(** [getDirtyKeys] *)
Definition getDirtyKeys (L : Ledger.t) (langCode : string) : list string :=
  entry_key_path <$> map_to_list (filter (is_dirty langCode) (sync_status L)).

Record ProjectStats := mkProjectStats {
  total_keys : nat;
  manual_count : nat
}.

(** [getProjectStats]: [key_path] is the primary key of [source_hashes], so
    [COUNT(DISTINCT key_path)] is its number of rows. *)
Definition getProjectStats (L : Ledger.t) : ProjectStats :=
  let totalKeys := size (source_hashes L) in
  let manualCount := size (filter is_manual (sync_status L)) in
  {| total_keys := totalKeys; manual_count := manualCount |}.

Record LanguageStats := mkLanguageStats {
  translated : nat;
  failed : nat
}.

(** [getLanguageStats] *)
Definition getLanguageStats (L : Ledger.t) (langCode : string) : LanguageStats :=
  let translated := size (filter (is_translated langCode) (sync_status L)) in
  let failed := size (filter (is_failed_or_dirty langCode) (sync_status L)) in
  {| translated := translated; failed := failed |}.

(** [interface FailedItem]: the columns of the [sync_status] row and the
    [value_hash] the [LEFT JOIN] finds for its key, if any. *)
Record FailedItem := mkFailedItem {
  fi_row : SyncStatus;
  fi_value_hash : option string
}.

(** The [WHERE] clause [getFailedItems] builds: [AND ss.lang_code = ?] is
    added under [if (langCode)], that is for a language code that is given
    and not the empty string. *)
Definition is_failed_item (langCode : option string) (e : SyncEntry) : Prop :=
  entry_status e = FAILED ∧
  match langCode with
  | Some l => if decide (l = "") then True else entry_lang_code e = l
  | None => True
  end.

#[export] Instance is_failed_item_dec langCode e : Decision (is_failed_item langCode e).
Proof.
  unfold is_failed_item. destruct langCode as [l|]; [destruct (decide (l = ""))|]; apply _.
Defined.

(** [getFailedItems]; the second argument [_batchId] is not read. *)
Definition getFailedItems (L : Ledger.t) (langCode _batchId : option string)
    : list FailedItem :=
  (λ e : SyncEntry,
     {| fi_row := {| key_path := entry_key_path e;
                     lang_code := entry_lang_code e;
                     target_hash := row_target_hash e.2;
                     status := row_status e.2;
                     model_fingerprint := row_model_fingerprint e.2;
                     prompt_version := row_prompt_version e.2;
                     updated_at := row_updated_at e.2 |};
        fi_value_hash := value_hash <$> source_hashes L !! entry_key_path e |})
  <$> map_to_list (filter (is_failed_item langCode) (sync_status L)).

End LedgerQueries.

(** ** Ledger: the run history (src/ledger/index.ts)

    The third table, [run_history], keyed by [run_id].  Its operations touch
    no other table. *)

Module RunHistory.
Import Ledger.

(** A row of [run_history] without its primary key.  [startRun] is the only
    insert and always sets [started_at]; the other columns may be NULL. *)
Record RunRow := mkRunRow {
  started_at : Timestamp;
  finished_at : option Timestamp;
  model_used : string;
  tokens_in : option Z;
  tokens_out : option Z;
  cost_estimate_usd : option float;
  config_hash : string
}.

Abbreviation t := (gmap string RunRow).

(** A run as [SELECT *] returns it. *)
Abbreviation Run := (string * RunRow)%type.

(** The run id [startRun] builds from [Date.now()] and the nine characters
    it cuts from [Math.random().toString(36)]. *)
Definition makeRunId (dateNow : N) (randomSuffix : string) : string :=
  "run_" +:+ pretty dateNow +:+ "_" +:+ randomSuffix.

(** [startRun]: a plain [INSERT]; a second row with the same [run_id]
    violates the primary key and the statement throws ([None]). *)
Definition startRun (H : t) (now : Timestamp) (dateNow : N) (randomSuffix : string)
    (modelUsed configHash : string) : option (t * string) :=
  let runId := makeRunId dateNow randomSuffix in
  match H !! runId with
  | Some _ => None
  | None =>
      Some (<[runId := {| started_at := now; finished_at := None;
                          model_used := modelUsed;
                          tokens_in := None; tokens_out := None;
                          cost_estimate_usd := None;
                          config_hash := configHash |}]> H,
            runId)
  end.

(** A double bound to a [REAL] column: SQLite stores NULL for NaN, and a
    zero of either sign as 0. *)
Definition storedReal (x : float) : option float :=
  if PrimFloat.is_nan x then None
  else if PrimFloat.is_zero x then Some 0%float
  else Some x.

(** [completeRun]: an [UPDATE ... WHERE run_id = ?]. *)
Definition completeRun (H : t) (now : Timestamp) (runId : string)
    (tokensIn tokensOut : Z) (costEstimate : float) : t :=
  alter (λ row, {| started_at := started_at row;
                   finished_at := Some now;
                   model_used := model_used row;
                   tokens_in := Some tokensIn;
                   tokens_out := Some tokensOut;
                   cost_estimate_usd := storedReal costEstimate;
                   config_hash := config_hash row |}) runId H.

(** [a] comes no later than [b] in [ORDER BY started_at DESC]: the
    timestamps are texts of one format and compare as texts. *)
Definition newer_first (a b : Run) : Prop := String.le (started_at b.2) (started_at a.2).

Section WithOrder.

(** [ORDER BY started_at DESC] as SQLite carries it out: some arrangement of
    the rows; the order among rows of one timestamp is not specified. *)
Variable orderByStartedAtDesc : list Run → list Run.

(** [LIMIT n]: a negative [n] means no limit. *)
Definition limit (n : Z) (rows : list Run) : list Run :=
  if decide (n < 0)%Z then rows else take (Z.to_nat n) rows.

(** [cleanupHistory(keepLast = 100)], for an integer [keepLast]: the rows
    whose [run_id] the subquery does not return are deleted. *)
Definition cleanupHistory (H : t) (keepLast : option Z) : t :=
  let keepLast := default 100%Z keepLast in
  let kept := (limit keepLast (orderByStartedAtDesc (map_to_list H))).*1 in
  filter (λ run : Run, run.1 ∈ kept) H.

(** [getLatestRun] *)
Definition getLatestRun (H : t) : option Run :=
  head (limit 1 (orderByStartedAtDesc (map_to_list H))).

End WithOrder.

End RunHistory.

(** ** Compiler: the [sync] run (src/compiler/index.ts)

    [sync] extracts the source units, records their hashes, plans, has each
    batch translated, validates every result and commits it to the ledger.
    The extractor, the provider, the prompt manager and the file writer are
    collaborators; the spinner and the console are left out. *)

Module Compiler.
Import Ledger Types Planner Validation.

(** [interface PromptTemplate], as [sync] fills it. *)
Record PromptTemplate := mkPromptTemplate {
  system : string;
  user : string;
  temperature : float
}.

(** [interface LLMProvider].  [translate] is a network call: [None] is a
    rejected promise, and the answer may differ from call to call, so it
    takes the number of the batch besides its arguments. *)
Record LLMProvider := mkLLMProvider {
  translate : nat → TranslationBatch → PromptTemplate → option (list TranslationResult);
  getModelFingerprint : string;
  estimateCost : TranslationBatch → float
}.

(** [interface RunStatistics]; [skippedUnits] is a difference and may be
    negative. *)
Module Stats.
Record RunStatistics := mkRunStatistics {
  runId : string;
  startedAt : N;
  finishedAt : N;
  totalUnits : nat;
  translatedUnits : nat;
  failedUnits : nat;
  skippedUnits : Z;
  tokensIn : nat;
  tokensOut : nat;
  costEstimateUsd : float;
  model : string
}.
End Stats.

(** A call returns or throws. *)
Inductive Outcome (A : Type) :=
  | Returned (a : A)
  | Thrown.
Arguments Returned {A} a.
Arguments Thrown {A}.

#[local] Set Implicit Arguments.

Section WithCollaborators.

(** The file system and the nested object [flatToNested] builds. *)
Variables FS Nested : Type.

(** What [sync] calls besides the ledger, the planner and the validator. *)
Record Env := mkEnv {
  (* utils/hash and the planner's clock *)
  computeHash : string → string;
  dateNow : nat → N;
  (* the host's number formatting, for the validator's messages *)
  toFixed1 : float → string;
  numberToString : float → string;
  toLowerCase : string → string;
  (* the configuration *)
  targetLanguages : list TargetLanguage;
  validation : Validation.Config;
  providerModel : string;
  providerTemperature : float;
  configHash : string;
  (* [extractor.extract]: the units, or it throws *)
  extract : option (list SourceUnit);
  (* [startRun]'s clock and random suffix, [new Date()] at start and end *)
  runDateNow : N;
  randomSuffix : string;
  startTime : N;
  finishTime : N;
  (* [CURRENT_TIMESTAMP] at the n-th statement *)
  sqlNow : nat → Timestamp;
  (* [ProviderFactory.createProvider]: the provider, or it throws *)
  createProvider : option LLMProvider;
  (* the prompt manager *)
  getSystemPrompt : string → string → list SourceUnit → string;
  getUserPrompt : list string → string;
  getPromptVersion : Z;
  (* the file writer; [writeTranslations] returns the new file system and
     whether it succeeded ([false]: it threw) *)
  getOutputPath : TargetLanguage → string;
  flatToNested : string → string → Nested;
  writeTranslations : FS → string → Nested → FS * bool
}.

Variable env : Env.

(** The ledger, the file system and the local variables of [sync] while the
    batches are processed; [statements] counts the SQL statements run. *)
Record SyncState := mkSyncState {
  ledger : Ledger.t;
  fs : FS;
  statements : nat;
  translatedUnits : nat;
  failedUnits : nat;
  totalTokensIn : nat;
  totalTokensOut : nat
}.

(** Step 2: [for (const unit of sourceUnits) updateSourceHash(...)]. *)
Fixpoint recordSourceHashes (L : Ledger.t) (statement : nat) (runId : string)
    (sourceUnits : list SourceUnit) : Ledger.t :=
  match sourceUnits with
  | [] => L
  | unit :: rest =>
      recordSourceHashes
        (updateSourceHash L (sqlNow env statement) (keyPath unit) (sourceHash unit)
           None (Some runId))
        (S statement) runId rest
  end.

(** The body of [for (let i = 0; i < results.length; i++)]: the new state
    and whether an exception left the loop.  [batch.sourceUnits[i]] is
    [undefined] past the end of the array, and the first read of one of its
    fields then throws, before anything is written. *)
Definition processResult (provider : LLMProvider) (batch : TranslationBatch)
    (targetLangObj : TargetLanguage) (st : SyncState) (i : nat)
    (result : TranslationResult) : SyncState * bool :=
  match sourceUnits batch !! i with
  | None => (st, true)
  | Some sourceUnit =>
      let validation :=
        validate (toFixed1 env) (numberToString env) (toLowerCase env) (validation env)
                 result sourceUnit in
      if negb (isValid validation) then
        ({| ledger := updateSyncStatus (ledger st) (sqlNow env (statements st))
                        (keyPath sourceUnit) (targetLanguage batch) "" FAILED None None;
            fs := fs st;
            statements := S (statements st);
            translatedUnits := translatedUnits st;
            failedUnits := S (failedUnits st);
            totalTokensIn := totalTokensIn st;
            totalTokensOut := totalTokensOut st |}, false)
      else
        let outputFile := getOutputPath env targetLangObj in
        let translations :=
          flatToNested env (keyPath sourceUnit) (translatedText result) in
        let '(fs', written) := writeTranslations env (fs st) outputFile translations in
        if written then
          let targetHash := computeHash env (translatedText result) in
          ({| ledger := updateSyncStatus (ledger st) (sqlNow env (statements st))
                          (keyPath sourceUnit) (targetLanguage batch) targetHash CLEAN
                          (Some (getModelFingerprint provider))
                          (Some (getPromptVersion env));
              fs := fs';
              statements := S (statements st);
              translatedUnits := S (translatedUnits st);
              failedUnits := failedUnits st;
              totalTokensIn := totalTokensIn st;
              totalTokensOut := totalTokensOut st |}, false)
        else
          ({| ledger := ledger st; fs := fs'; statements := statements st;
              translatedUnits := translatedUnits st; failedUnits := failedUnits st;
              totalTokensIn := totalTokensIn st;
              totalTokensOut := totalTokensOut st |}, true)
  end.

(** The loop over the results, from index [i]. *)
Fixpoint processResults (provider : LLMProvider) (batch : TranslationBatch)
    (targetLangObj : TargetLanguage) (st : SyncState) (i : nat)
    (results : list TranslationResult) : SyncState * bool :=
  match results with
  | [] => (st, false)
  | result :: rest =>
      let '(st', thrown) := processResult provider batch targetLangObj st i result in
      if thrown then (st', true)
      else processResults provider batch targetLangObj st' (S i) rest
  end.

(** The [catch] of a batch: the whole batch counts as failed. *)
Definition batchFailed (batch : TranslationBatch) (st : SyncState) : SyncState :=
  {| ledger := ledger st; fs := fs st; statements := statements st;
     translatedUnits := translatedUnits st;
     failedUnits := failedUnits st + length (sourceUnits batch);
     totalTokensIn := totalTokensIn st;
     totalTokensOut := totalTokensOut st |}.

(** The body of [for (const batch of plan.batches)], for batch number [b]. *)
Definition processBatch (provider : LLMProvider) (st : SyncState) (b : nat)
    (batch : TranslationBatch) : SyncState :=
  match List.find (λ l, bool_decide (shortCode l = targetLanguage batch))
                  (targetLanguages env) with
  | None => st
  | Some targetLangObj =>
      let langName := language targetLangObj in
      let systemPrompt :=
        getSystemPrompt env langName (targetLanguage batch) (sourceUnits batch) in
      let sourceTexts := map sourceText (sourceUnits batch) in
      let userPrompt := getUserPrompt env sourceTexts in
      match translate provider b batch
              {| system := systemPrompt; user := userPrompt;
                 temperature := providerTemperature env |} with
      | None => batchFailed batch st
      | Some results =>
          let '(st', thrown) := processResults provider batch targetLangObj st 0 results in
          if thrown then batchFailed batch st'
          else
            {| ledger := ledger st'; fs := fs st'; statements := statements st';
               translatedUnits := translatedUnits st'; failedUnits := failedUnits st';
               totalTokensIn := totalTokensIn st' + length (sourceUnits batch) * 50;
               totalTokensOut := totalTokensOut st' + length (sourceUnits batch) * 50 |}
      end
  end.

(** The loop over the batches, from batch number [b]. *)
Fixpoint processBatches (provider : LLMProvider) (st : SyncState) (b : nat)
    (batches : list TranslationBatch) : SyncState :=
  match batches with
  | [] => st
  | batch :: rest => processBatches provider (processBatch provider st b batch) (S b) rest
  end.

(** [sync]: the ledger, the run history and the file system it leaves, and
    the statistics it returns unless it throws. *)
Definition sync (L : Ledger.t) (H : RunHistory.t) (files : FS)
    : Ledger.t * RunHistory.t * FS * Outcome Stats.RunStatistics :=
  match extract env with
  | None => (L, H, files, Thrown)
  | Some sourceUnits =>
      match RunHistory.startRun H (sqlNow env 0) (runDateNow env) (randomSuffix env)
              (providerModel env) (configHash env) with
      | None => (L, H, files, Thrown)
      | Some (H1, runId) =>
          let L1 := recordSourceHashes L 1 runId sourceUnits in
          let statement := S (length sourceUnits) in
          let plan :=
            createPlan (computeHash env) (dateNow env) L1 sourceUnits
              (targetLanguages env) in
          if decide (length (batches plan) = 0) then
            (L1, RunHistory.completeRun H1 (sqlNow env statement) runId 0 0 0%float, files,
             Returned {| Stats.runId := runId;
                         Stats.startedAt := startTime env;
                         Stats.finishedAt := finishTime env;
                         Stats.totalUnits := length sourceUnits;
                         Stats.translatedUnits := 0;
                         Stats.failedUnits := 0;
                         Stats.skippedUnits := Z.of_nat (length sourceUnits);
                         Stats.tokensIn := 0;
                         Stats.tokensOut := 0;
                         Stats.costEstimateUsd := 0%float;
                         Stats.model := providerModel env |})
          else
            match createProvider env with
            | None => (L1, H1, files, Thrown)
            | Some provider =>
                let st :=
                  processBatches provider
                    {| ledger := L1; fs := files; statements := statement;
                       translatedUnits := 0; failedUnits := 0;
                       totalTokensIn := 0; totalTokensOut := 0 |}
                    0 (batches plan) in
                match batches plan with
                | [] => (ledger st, H1, fs st, Thrown)
                | batch0 :: _ =>
                    let actualCost :=
                      estimateCost provider
                        {| batchId := batchId batch0;
                           sourceUnits := slice sourceUnits 0 (translatedUnits st);
                           targetLanguage := targetLanguage batch0;
                           deduplicationKey := deduplicationKey batch0 |} in
                    (ledger st,
                     RunHistory.completeRun H1 (sqlNow env (statements st)) runId
                       (Z.of_nat (totalTokensIn st)) (Z.of_nat (totalTokensOut st)) actualCost,
                     fs st,
                     Returned {| Stats.runId := runId;
                                 Stats.startedAt := startTime env;
                                 Stats.finishedAt := finishTime env;
                                 Stats.totalUnits := length sourceUnits;
                                 Stats.translatedUnits := translatedUnits st;
                                 Stats.failedUnits := failedUnits st;
                                 Stats.skippedUnits :=
                                   (Z.of_nat (length sourceUnits)
                                    - Z.of_nat (translatedUnits st)
                                    - Z.of_nat (failedUnits st))%Z;
                                 Stats.tokensIn := totalTokensIn st;
                                 Stats.tokensOut := totalTokensOut st;
                                 Stats.costEstimateUsd := actualCost;
                                 Stats.model := providerModel env |})
                end
            end
      end
  end.

End WithCollaborators.

End Compiler.

(** ** Compiler: [retryFailed] (src/compiler/index.ts) *)

Module CompilerRetry.
Import Ledger Types Planner Validation LedgerQueries Compiler.

(** [options: { batch?, lang?, dryRun? }] *)
Record RetryOptions := mkRetryOptions {
  batch : option string;
  lang : option string;
  dryRun : option bool
}.

(** [interface RetryStatistics]; [remainingFailed] is counted down. *)
Record RetryStatistics := mkRetryStatistics {
  recoveredUnits : nat;
  remainingFailed : Z;
  tokensIn : nat;
  tokensOut : nat
}.

(** The [Map] from language codes to items, in insertion order:
    [byLanguage.get(code).push(item)] after [set(code, [])] for a new code. *)
Fixpoint pushItem (byLanguage : list (string * list FailedItem)) (item : FailedItem)
    : list (string * list FailedItem) :=
  match byLanguage with
  | [] => [(lang_code (fi_row item), [item])]
  | (code, items) :: rest =>
      if decide (code = lang_code (fi_row item))
      then (code, items ++ [item]) :: rest
      else (code, items) :: pushItem rest item
  end.

Definition groupByLanguage (failedItems : list FailedItem)
    : list (string * list FailedItem) :=
  foldl pushItem [] failedItems.

(** The unit [retryFailed] makes of a failed item: no source text, no
    placeholders.  [sourceHash] is [item.value_hash], which is [null] for a
    key without a row in [source_hashes]; the empty string stands for it
    here, and only the provider is handed the field. *)
Definition retryUnit (item : FailedItem) : SourceUnit :=
  {| unitId := key_path (fi_row item);
     keyPath := key_path (fi_row item);
     sourceText := "";
     sourceHash := default "" (fi_value_hash item);
     context := None;
     placeholders := [];
     sourceFile := "";
     schemaVersion := 1 |}.

Section WithCollaborators.

Variables FS Nested : Type.
Variable env : Env FS Nested.

(** The ledger, the file system and the counters of [retryFailed]. *)
Record RetryState := mkRetryState {
  ledger : Ledger.t;
  fs : FS;
  statements : nat;
  recovered : nat;
  remaining : Z;
  totalTokensIn : nat;
  totalTokensOut : nat
}.

(** The body of the loop over the results.  Past the end of the units
    [sourceUnit] is [undefined]: [validate] returns on a blank text before
    it reads the unit, and throws on any other text. *)
Definition processResult (provider : LLMProvider) (langCode : string)
    (units : list SourceUnit) (targetLangObj : TargetLanguage) (st : RetryState)
    (i : nat) (translationResult : TranslationResult) : RetryState * bool :=
  match units !! i with
  | None =>
      if bool_decide (translatedText translationResult = "")
         || bool_decide (String.length (trim (translatedText translationResult)) = 0)
      then (st, false)
      else (st, true)
  | Some sourceUnit =>
      let validation :=
        validate (toFixed1 env) (numberToString env) (toLowerCase env) (validation env)
          translationResult sourceUnit in
      if isValid validation then
        let outputFile := getOutputPath env targetLangObj in
        let translations :=
          flatToNested env (keyPath sourceUnit) (translatedText translationResult) in
        let '(fs', written) := writeTranslations env (fs st) outputFile translations in
        if written then
          let targetHash := computeHash env (translatedText translationResult) in
          ({| ledger := updateSyncStatus (ledger st) (sqlNow env (statements st))
                          (keyPath sourceUnit) langCode targetHash CLEAN
                          (Some (getModelFingerprint provider))
                          (Some (getPromptVersion env));
              fs := fs';
              statements := S (statements st);
              recovered := S (recovered st);
              remaining := (remaining st - 1)%Z;
              totalTokensIn := totalTokensIn st;
              totalTokensOut := totalTokensOut st |}, false)
        else
          ({| ledger := ledger st; fs := fs'; statements := statements st;
              recovered := recovered st; remaining := remaining st;
              totalTokensIn := totalTokensIn st;
              totalTokensOut := totalTokensOut st |}, true)
      else (st, false)
  end.

Fixpoint processResults (provider : LLMProvider) (langCode : string)
    (units : list SourceUnit) (targetLangObj : TargetLanguage) (st : RetryState)
    (i : nat) (results : list TranslationResult) : RetryState * bool :=
  match results with
  | [] => (st, false)
  | result :: rest =>
      let '(st', thrown) := processResult provider langCode units targetLangObj st i result in
      if thrown then (st', true)
      else processResults provider langCode units targetLangObj st' (S i) rest
  end.

(** The body of [for (const [langCode, items] of byLanguage)], for the
    [n]-th language.  Whatever is thrown inside its [try] is caught and the
    loop goes on with what has been written. *)
Definition processLanguage (st : RetryState) (n : nat)
    (entry : string * list FailedItem) : RetryState :=
  let '(langCode, items) := entry in
  let targetLangObj :=
    List.find (λ l, bool_decide (shortCode l = langCode)) (targetLanguages env) in
  let langName :=
    match targetLangObj with
    | Some l => if decide (language l = "") then langCode else language l
    | None => langCode
    end in
  let batch :=
    {| batchId := "retry_" +:+ pretty (dateNow env n);
       sourceUnits := map retryUnit items;
       targetLanguage := langCode;
       deduplicationKey := "" |} in
  match createProvider env with
  | None => st
  | Some provider =>
      match targetLangObj with
      | None => st
      | Some targetLangObj =>
          let systemPrompt := getSystemPrompt env langName langCode (sourceUnits batch) in
          let sourceTexts := map sourceText (sourceUnits batch) in
          let userPrompt := getUserPrompt env sourceTexts in
          match translate provider n batch
                  {| system := systemPrompt; user := userPrompt;
                     temperature := providerTemperature env |} with
          | None => st
          | Some results =>
              let '(st', thrown) :=
                processResults provider langCode (sourceUnits batch) targetLangObj st 0
                  results in
              if thrown then st'
              else
                {| ledger := ledger st'; fs := fs st'; statements := statements st';
                   recovered := recovered st'; remaining := remaining st';
                   totalTokensIn := totalTokensIn st' + length (sourceUnits batch) * 50;
                   totalTokensOut := totalTokensOut st' + length (sourceUnits batch) * 50 |}
          end
      end
  end.

Fixpoint processLanguages (st : RetryState) (n : nat)
    (byLanguage : list (string * list FailedItem)) : RetryState :=
  match byLanguage with
  | [] => st
  | entry :: rest => processLanguages (processLanguage st n entry) (S n) rest
  end.

(** [retryFailed]: the ledger and the file system it leaves, and the
    statistics it returns. *)
Definition retryFailed (options : RetryOptions) (L : Ledger.t) (files : FS)
    : Ledger.t * FS * RetryStatistics :=
  let failedItems := getFailedItems L (lang options) (batch options) in
  if decide (length failedItems = 0) then
    (L, files,
     {| recoveredUnits := 0; remainingFailed := 0; tokensIn := 0; tokensOut := 0 |})
  else if default false (dryRun options) then
    (L, files,
     {| recoveredUnits := 0; remainingFailed := Z.of_nat (length failedItems);
        tokensIn := 0; tokensOut := 0 |})
  else
    let byLanguage := groupByLanguage failedItems in
    let st :=
      processLanguages
        {| ledger := L; fs := files; statements := 0;
           recovered := 0; remaining := Z.of_nat (length failedItems);
           totalTokensIn := 0; totalTokensOut := 0 |}
        0 byLanguage in
    (ledger st, fs st,
     {| recoveredUnits := recovered st; remainingFailed := remaining st;
        tokensIn := totalTokensIn st; tokensOut := totalTokensOut st |}).

End WithCollaborators.

Arguments ledger {FS} r.
Arguments fs {FS} r.
Arguments statements {FS} r.
Arguments recovered {FS} r.
Arguments remaining {FS} r.
Arguments totalTokensIn {FS} r.
Arguments totalTokensOut {FS} r.
Arguments mkRetryState {FS} ledger fs statements recovered remaining
  totalTokensIn totalTokensOut.
Arguments processResult {FS Nested} env provider langCode units targetLangObj st i
  translationResult.
Arguments processResults {FS Nested} env provider langCode units targetLangObj st i results.
Arguments processLanguage {FS Nested} env st n entry.
Arguments processLanguages {FS Nested} env st n byLanguage.
Arguments retryFailed {FS Nested} env options L files.

End CompilerRetry.

(** ** Providers: the Anthropic provider (src/providers/anthropic-provider.ts) *)

Module AnthropicProvider.
Import Types.

(** [getModelFingerprint] *)
Definition getModelFingerprint (model : string) : string := "anthropic:" +:+ model.

Set Warnings "-inexact-float".

(** [estimateCost] *)
Definition estimateCost (batch : TranslationBatch) : float :=
  let avgCharsPerUnit :=
    (foldl (λ sum u, sum + number_of_nat (String.length (sourceText u))) 0 (sourceUnits batch)
     / number_of_nat (length (sourceUnits batch)))%float in
  let estimatedInputTokens :=
    (number_of_nat (length (sourceUnits batch)) * (avgCharsPerUnit / 4))%float in
  let estimatedOutputTokens := estimatedInputTokens in
  let inputCost := ((estimatedInputTokens / 1000) * 0.015)%float in
  let outputCost := ((estimatedOutputTokens / 1000) * 0.075)%float in
  (inputCost + outputCost)%float.

Set Warnings "+inexact-float".

End AnthropicProvider.

(** ** Extraction: source units from a parsed JSON file
       (src/extractors/json-extractor.ts, src/utils/hash.ts) *)

Module JsonExtractor.
Import Types Hash.

#[local] Unset Elimination Schemes.

(** What [JSON.parse] returns.  The properties of an object are listed in
    the order of their creation, which is the order of the members of the
    parsed document; an object has one property of a name. *)
Inductive Json :=
  | JNull
  | JBool (b : bool)
  | JNumber (n : float)
  | JString (s : string)
  | JArray (items : list Json)
  | JObject (properties : list (string * Json)).

#[local] Set Elimination Schemes.

(** The number that a decimal numeral denotes. *)
Definition decimal (key : string) : N :=
  foldl (λ n c, 10 * n + (c - 48))%N 0%N (String.units key).

(** An array index (ECMAScript 6.1.7): a key that is the canonical numeral
    of an integer from 0 to 2^32 - 2. *)
Definition arrayIndex (key : string) : option N :=
  let n := decimal key in
  if decide (pretty n = key ∧ (n < 4294967295)%N) then Some n else None.

(** The ascending order of the indices. *)
Definition index_le (a b : N * (string * Json)) : Prop := (a.1 ≤ b.1)%N.

#[export] Instance index_le_dec : RelDecision index_le.
Proof. intros a b. unfold index_le. apply _. Defined.

(** [Object.entries] (OrdinaryOwnPropertyKeys): the properties whose key is
    an array index, in ascending order of the index, then the other
    properties in the order of their creation. *)
Definition Object_entries (properties : list (string * Json)) : list (string * Json) :=
  let indexed :=
    omap (λ property, (λ n, (n, property)) <$> arrayIndex property.1) properties in
  let named := filter (λ property, arrayIndex property.1 = None) properties in
  ((merge_sort index_le indexed).*2 ++ named)%list.

(** The height of a value: the recursion of [extractFromObject] is as deep. *)
Fixpoint depth (obj : Json) : nat :=
  match obj with
  | JArray items => S (max_list (map depth items))
  | JObject properties => S (max_list (map (λ '(_, value), depth value) properties))
  | _ => 0
  end.

Section WithHost.

(** SHA-256 as a hex string. *)
Variable computeHash : string → string.

(** The lookup in the context file loaded for this extraction. *)
Variable extractContextForKey : string → option string.

(** [generateUnitId] of utils/hash *)
Definition generateUnitId (keyPath sourceFile : string) : string :=
  let combined := sourceFile +:+ ":" +:+ keyPath in
  String.substring 0 16 (computeHash combined).

(** [createSourceUnit] *)
Definition createSourceUnit (keyPath sourceText sourceFile : string) : SourceUnit :=
  let placeholders := extractPlaceholders sourceText in
  let sourceHash := computeHash sourceText in
  let unitId := generateUnitId keyPath sourceFile in
  let context := extractContextForKey keyPath in
  {| unitId := unitId;
     keyPath := keyPath;
     sourceText := sourceText;
     sourceHash := sourceHash;
     context := context;
     placeholders := placeholders;
     sourceFile := sourceFile;
     schemaVersion := 1 |}.

(** The key path of a string found at [keyPath]: the prefix is used when
    it is given and not empty. *)
Definition fullKeyPath (keyPrefix : option string) (keyPath : list string) : string :=
  match keyPrefix with
  | Some prefix =>
      if decide (prefix = "") then String.concat "." keyPath
      else prefix +:+ "." +:+ String.concat "." keyPath
  | None => String.concat "." keyPath
  end.

(** The recursion of [extractFromObject], at most [fuel] levels deep. *)
Fixpoint extractFromObject_rec (fuel : nat) (obj : Json) (keyPath : list string)
    (sourceFile : string) (keyPrefix : option string) : list SourceUnit :=
  match fuel with
  | 0 => []
  | S fuel' =>
      match obj with
      | JString text => [createSourceUnit (fullKeyPath keyPrefix keyPath) text sourceFile]
      | JArray items =>
          concat (imap (λ index item,
                          extractFromObject_rec fuel' item (keyPath ++ [pretty index])
                                                sourceFile keyPrefix) items)
      | JObject properties =>
          concat (map (λ '(key, value),
                         extractFromObject_rec fuel' value (keyPath ++ [key])
                                               sourceFile keyPrefix)
                      (Object_entries properties))
      | _ => []
      end
  end.

(** [extractFromObject] *)
Definition extractFromObject (obj : Json) (keyPath : list string) (sourceFile : string)
    (keyPrefix : option string) : list SourceUnit :=
  extractFromObject_rec (S (depth obj)) obj keyPath sourceFile keyPrefix.

End WithHost.

End JsonExtractor.

(** ** Reporting: the project statistics (src/reporting/index.ts) *)

Module Reporting.
Import Ledger Types LedgerQueries.

(** [interface StatsSummary].  [languageCoverage] is an object used as a
    map from labels to counts. *)
Record StatsSummary := mkStatsSummary {
  totalStrings : nat;
  translatedStrings : nat;
  failedStrings : nat;
  manualOverrides : nat;
  languageCoverage : gmap string nat
}.

(** The label of a language in the coverage table. *)
Definition label (lang : TargetLanguage) : string :=
  language lang +:+ " (" +:+ shortCode lang +:+ ")".

(** The body of [for (const lang of targetLanguages)] on the three
    accumulators. *)
Definition addLanguage (L : Ledger.t) (acc : gmap string nat * nat * nat)
    (lang : TargetLanguage) : gmap string nat * nat * nat :=
  let '(coverage, translatedCount, failedTotal) := acc in
  let langStats := getLanguageStats L (shortCode lang) in
  (<[label lang := translated langStats]> coverage,
   translatedCount + translated langStats,
   failedTotal + failed langStats).

(** [ReportingSystem.getProjectStats] *)
Definition getProjectStats (L : Ledger.t) (targetLanguages : list TargetLanguage)
    : StatsSummary :=
  let baseStats := LedgerQueries.getProjectStats L in
  let '(coverage, translatedCount, failedTotal) :=
    foldl (addLanguage L) (∅, 0, 0) targetLanguages in
  {| totalStrings := total_keys baseStats;
     translatedStrings := translatedCount;
     failedStrings := failedTotal;
     manualOverrides := manual_count baseStats;
     languageCoverage := coverage |}.

End Reporting.

(** ** Providers: retrying a request (src/providers/base-provider.ts) *)

Module BaseLLMProvider.

(** [this.maxRetries = config.maxRetries ?? 3] *)
Definition maxRetriesOf (configured : option Z) : Z := default 3%Z configured.

(** What a call of [retryWithBackoff] leaves: its result or the error it
    throws, the number of calls of [fn] made so far, and the delays it
    slept, in milliseconds, in order. *)
Record Retried (T E : Type) := mkRetried {
  outcome : T + E;
  calls : nat;
  delays : list Z
}.
Arguments mkRetried {T E} outcome calls delays.
Arguments outcome {T E} r.
Arguments calls {T E} r.
Arguments delays {T E} r.

Section Retry.

Context {T E : Type}.

(** [fn]: its n-th call resolves with a value or rejects with an error. *)
Variable fn : nat → T + E.

(** An integer, as the configuration schema requires. *)
Variable maxRetries : Z.

(** [Math.pow(2, attempt) * 1000]; the double is exact up to attempt 1013. *)
Definition delay (attempt : nat) : Z := (2 ^ Z.of_nat attempt * 1000)%Z.

(** [retryWithBackoff(fn, attempt)] when [fn] has been called [called]
    times.  Each level of the recursion calls [fn] once; [fuel] bounds the
    depth. *)
Fixpoint retryWithBackoff (fuel : nat) (attempt called : nat) : option (Retried T E) :=
  match fuel with
  | 0 => None
  | S fuel' =>
      match fn called with
      | inl value => Some {| outcome := inl value; calls := S called; delays := [] |}
      | inr error =>
          if decide (maxRetries ≤ Z.of_nat attempt)%Z
          then Some {| outcome := inr error; calls := S called; delays := [] |}
          else
            match retryWithBackoff fuel' (S attempt) (S called) with
            | Some r => Some {| outcome := outcome r; calls := calls r;
                                delays := delay attempt :: delays r |}
            | None => None
            end
      end
  end.

End Retry.

End BaseLLMProvider.

(** * The vocabulary of the properties *)

(** ** Planner *)

Module PlannerSpec.
Import Ledger Types Planner.

(** The pair (unit, language code) is in the plan: some batch for that
    language carries the unit. *)
Definition plan_includes (p : TranslationPlan) (u : SourceUnit) (langCode : string) : Prop :=
  ∃ b, b ∈ batches p ∧ targetLanguage b = langCode ∧ u ∈ sourceUnits b.

Section WithHost.

Variable computeHash : string → string.
Variable dateNow : nat → N.

(** The batch the loop of [createBatches] builds at index [i], at its
    [j]-th clock reading. *)
Definition batch_at (units : list SourceUnit) (targetLang : string)
    (batchSize tick i : nat) : TranslationBatch :=
  {| batchId := "batch_" +:+ targetLang +:+ "_" +:+ pretty (dateNow tick) +:+ "_" +:+ pretty i;
     sourceUnits := slice units i (i + batchSize);
     targetLanguage := targetLang;
     deduplicationKey :=
       computeHash (String.concat "_" (map sourceHash (slice units i (i + batchSize)))) |}.

(** The batches of one language, as [createPlan] makes them. *)
Definition lang_batches (L : Ledger.t) (us : list SourceUnit)
    (lang : TargetLanguage) (tick : nat) : list TranslationBatch :=
  createBatches computeHash dateNow (detectChanges L us (shortCode lang))
    (shortCode lang) defaultBatchSize tick.

End WithHost.

(** The slices the loop of [createBatches] cuts, without the batch records
    around them. *)
Fixpoint chunks_loop (fuel : nat) (units : list SourceUnit) (batchSize i : nat)
    : list (list SourceUnit) :=
  match fuel with
  | 0 => []
  | S fuel' =>
      if decide (i < length units)
      then slice units i (i + batchSize) :: chunks_loop fuel' units batchSize (i + batchSize)
      else []
  end.

End PlannerSpec.

(** ** Hashing utilities *)

Module HashSpec.
Import Hash.

(** The code units of a string. *)
Definition chars (s : string) : list CodeUnit := String.units s.

(** *** What a pattern matches (ECMAScript 22.2.2)

    The meaning of the patterns, stated on the text and without the
    matcher. *)

(** The code units of a character class. *)
Definition in_class (a : atom) (c : CodeUnit) : Prop :=
  match a with
  | Lit x => c = x
  | NotLit x => c ≠ x
  | OneOf cs => c ∈ cs
  | Digit => (48 ≤ c ≤ 57)%N
  end.

(** The pieces of text an item can take: one code unit of its class, or a
    run of them that is not empty. *)
Definition takes (it : item) (w : string) : Prop :=
  match it with
  | One a => ∃ c, w = String c "" ∧ in_class a c
  | Plus a => w ≠ "" ∧ ∀ c, c ∈ chars w → in_class a c
  end.

(** [parse r s ws rest]: the items of [r] take the pieces [ws], one after
    the other, from the start of [s], and leave [rest]. *)
Inductive parse : regex → string → list string → string → Prop :=
  | parse_nil s : parse [] s [] s
  | parse_cons it r w s ws rest :
      takes it w → parse r s ws rest → parse (it :: r) (w +:+ s) (w :: ws) rest.

(** The order in which backtracking tries the ways to match: a greedy [+]
    first takes as much as it can, so of two ways the one whose first
    differing piece is longer comes first. *)
Fixpoint tried_first (ws ws' : list string) : Prop :=
  match ws, ws' with
  | w :: ws, w' :: ws' =>
      String.length w' < String.length w
      ∨ String.length w' = String.length w ∧ tried_first ws ws'
  | _, _ => True
  end.

(** The match of [r] at the start of [s]: the first way in that order. *)
Definition match_here (r : regex) (s m rest : string) : Prop :=
  ∃ ws, parse r s ws rest ∧ m = foldr String.append "" ws
        ∧ ∀ ws' rest', parse r s ws' rest' → tried_first ws ws'.

Definition no_match_here (r : regex) (s : string) : Prop :=
  ∀ ws rest, ¬ parse r s ws rest.

(** The leftmost match of [r] in [s]: [pre] is passed over, [m] is the match
    and [rest] follows it; [r] matches at no earlier position. *)
Definition leftmost (r : regex) (s pre m rest : string) : Prop :=
  s = pre +:+ m +:+ rest
  ∧ match_here r (m +:+ rest) m rest
  ∧ ∀ pre' s', s = pre' +:+ s' → String.length pre' < String.length pre →
               no_match_here r s'.

(** [scan r s ms]: [ms] are the matches of the global pattern [r] on [s], in
    order: the leftmost match, then the matches of what follows it; after an
    empty match the scan moves on by one code unit. *)
Inductive scan (r : regex) : string → list string → Prop :=
  | scan_none s :
      (∀ pre s', s = pre +:+ s' → no_match_here r s') → scan r s []
  | scan_match s pre m rest ms :
      leftmost r s pre m rest → m ≠ "" → scan r rest ms → scan r s (m :: ms)
  | scan_empty s pre c rest ms :
      leftmost r s pre "" (String c rest) → scan r rest ms → scan r s ("" :: ms)
  | scan_empty_end s pre :
      leftmost r s pre "" "" → scan r s [""].

(** *** The five placeholder syntaxes *)

(** The text between the braces of a placeholder: not empty, and without a
    closing brace. *)
Definition brace_body (body : string) : Prop :=
  body ≠ "" ∧ "}"%unit ∉ chars body.

Inductive placeholder_shape : string → Prop :=
  | shape_brace body :
      brace_body body → placeholder_shape ("{" +:+ body +:+ "}")
  | shape_double_brace body :
      brace_body body → placeholder_shape ("{{" +:+ body +:+ "}}")
  | shape_printf c :
      c ∈ ["s"%unit; "d"%unit; "i"%unit; "f"%unit] → placeholder_shape ("%" +:+ String c "")
  | shape_dollar_brace body :
      brace_body body → placeholder_shape ("${" +:+ body +:+ "}")
  | shape_dollar_digits digits :
      digits ≠ "" → (∀ c, c ∈ chars digits → in_class Digit c) →
      placeholder_shape ("$" +:+ digits).

End HashSpec.

(** ** Validation pipeline *)

Module ValidationSpec.
Import Types Hash Validation.

(** White space (ECMAScript 11.2): TAB, VT, FF, the byte order mark and the
    space separators of Unicode, which are SP, NBSP, U+1680, U+2000 to
    U+200A, U+202F, U+205F and U+3000; and the line terminators (11.3): LF,
    CR, U+2028 and U+2029. *)
Definition white_space (c : CodeUnit) : Prop :=
  (c = 0x0009 ∨ c = 0x000B ∨ c = 0x000C ∨ c = 0xFEFF
   ∨ c = 0x0020 ∨ c = 0x00A0 ∨ c = 0x1680 ∨ 0x2000 ≤ c ≤ 0x200A
   ∨ c = 0x202F ∨ c = 0x205F ∨ c = 0x3000
   ∨ c = 0x000A ∨ c = 0x000D ∨ c = 0x2028 ∨ c = 0x2029)%N.

(** The text has only white-space code units (or none at all). *)
Definition whitespace_only (s : string) : Prop :=
  ∀ c, c ∈ HashSpec.chars s → white_space c.

Definition missingPlaceholderError (p : string) : ValidationError :=
  {| type := "MISSING_PLACEHOLDER";
     message := "Missing placeholder: " +:+ p;
     field := Some p |}.

Definition extraPlaceholderError (p : string) : ValidationError :=
  {| type := "EXTRA_PLACEHOLDER";
     message := "Unexpected placeholder: " +:+ p;
     field := Some p |}.

(** How many errors of type [ty] name the placeholder [p]. *)
Definition count_errors (ty p : string) (es : list ValidationError) : nat :=
  length (filter (λ e, type e = ty ∧ field e = Some p) es).

Definition emptyTranslationError : ValidationError :=
  {| type := "EMPTY_TRANSLATION"; message := "Translation is empty"; field := None |}.

Definition sourceLeakageError : ValidationError :=
  {| type := "SOURCE_LEAKAGE";
     message := "Translation appears to be in source language";
     field := None |}.

(** A multiplier that applies once when its condition holds. *)
Definition multiplier (applies : bool) (m : float) : float :=
  if applies then m else 1%float.

Set Warnings "-inexact-float".

(** The confidence as the product of the multipliers that apply. *)
Definition confidence_product (ph sem leak : bool) : float :=
  (1.0 * multiplier ph 0.5 * multiplier sem 0.8 * multiplier leak 0.3)%float.

Set Warnings "+inexact-float".

Section WithConfig.

Variable toFixed1 : float → string.
Variable numberToString : float → string.
Variable toLowerCase : string → string.
Variable config : Config.

(** The three conditions under which a multiplier applies: a placeholder
    error, a semantic warning, detected leakage. *)
Definition placeholderErrorsFound (result : TranslationResult) (sourceUnit : SourceUnit) : bool :=
  bool_decide (preservePlaceholders config ≠ Some false)
  && bool_decide (0 < length (validatePlaceholders sourceUnit result)).

Definition semanticWarningsFound (result : TranslationResult) (sourceUnit : SourceUnit) : bool :=
  bool_decide (0 < length (validateSemantics toFixed1 numberToString config sourceUnit result)).

Definition leakageFound (result : TranslationResult) (sourceUnit : SourceUnit) : bool :=
  bool_decide (preventSourceLeakage config ≠ Some false)
  && detectSourceLeakage toLowerCase sourceUnit result.

End WithConfig.

End ValidationSpec.

(** ** Importing existing translations *)

Module ImportSpec.
Import Ledger LedgerImport.

(** The pair has a row whose status is [CLEAN]. *)
Definition is_clean (L : Ledger.t) (k l : string) : Prop :=
  ∃ s, getSyncStatus L k l = Some s ∧ status s = CLEAN.

Definition step_ledger (acc : Ledger.t * ImportStats * nat) : Ledger.t := acc.1.1.
Definition step_stats (acc : Ledger.t * ImportStats * nat) : ImportStats := acc.1.2.

End ImportSpec.

(** ** The items a retry has still to look at *)

Module RetrySpec.
Import Ledger LedgerQueries CompilerRetry.

(** The primary key of the row a failed item was read from. *)
Definition item_key (item : FailedItem) : string * string :=
  (key_path (fi_row item), lang_code (fi_row item)).

(** The row of the pair is one [getFailedItems] selects. *)
Definition still_failed (langCode : option string) (L : Ledger.t) (key : string * string)
    : Prop :=
  ∃ row, sync_status L !! key = Some row ∧ is_failed_item langCode (key, row).

(** The counter [remainingFailed] is the number of failed items in the
    ledger, and the pairs still to be processed are distinct and failed. *)
Definition pending_failed {FS} (options : RetryOptions) (st : RetryState FS)
    (pending : list (string * string)) : Prop :=
  remaining st
    = Z.of_nat (length (getFailedItems (ledger st) (lang options) (batch options)))
  ∧ NoDup pending
  ∧ ∀ key, key ∈ pending → still_failed (lang options) (ledger st) key.

End RetrySpec.

(** ** The strings of a JSON value *)

Module ExtractorSpec.
Import JsonExtractor.

(** [string_at obj path text]: the steps of [path] lead from [obj] to the
    string [text]; a step is the index of an item of an array or the name
    of a property of an object. *)
Inductive string_at : Json → list string → string → Prop :=
  | at_string text : string_at (JString text) [] text
  | at_item items index item path text :
      items !! index = Some item → string_at item path text →
      string_at (JArray items) (pretty index :: path) text
  | at_property properties key value path text :
      (key, value) ∈ properties → string_at value path text →
      string_at (JObject properties) (key :: path) text.

(** [key] is the array index [n]: the decimal numeral of [n], which is at
    most 2^32 - 2. *)
Definition array_index (key : string) (n : N) : Prop :=
  key = pretty n ∧ (n ≤ 4294967294)%N.

(** [key] was created before [key']. *)
Definition created_before (properties : list (string * Json)) (key key' : string) : Prop :=
  ∃ i j, i < j ∧ properties.*1 !! i = Some key ∧ properties.*1 !! j = Some key'.

(** The order of two keys of an object in [Object.entries]: array indices
    come first, in ascending order; then the other keys, in the order of
    creation. *)
Definition key_before (properties : list (string * Json)) (key key' : string) : Prop :=
  (∃ n n', array_index key n ∧ array_index key' n' ∧ (n < n')%N)
  ∨ ((∃ n, array_index key n) ∧ ¬ (∃ n', array_index key' n'))
  ∨ (¬ (∃ n, array_index key n) ∧ ¬ (∃ n', array_index key' n')
     ∧ created_before properties key key').

(** The order of two paths into a value: at the first step where they part,
    the lower index of an array, the earlier key of an object. *)
Inductive path_before : Json → list string → list string → Prop :=
  | before_items items i j path path' :
      i < j → path_before (JArray items) (pretty i :: path) (pretty j :: path')
  | before_item items i item path path' :
      items !! i = Some item → path_before item path path' →
      path_before (JArray items) (pretty i :: path) (pretty i :: path')
  | before_keys properties key key' path path' :
      key_before properties key key' →
      path_before (JObject properties) (key :: path) (key' :: path')
  | before_property properties key value path path' :
      (key, value) ∈ properties → path_before value path path' →
      path_before (JObject properties) (key :: path) (key :: path').

(** Every object in the value has one property of a name. *)
Fixpoint distinct_names (obj : Json) : bool :=
  match obj with
  | JArray items => forallb distinct_names items
  | JObject properties =>
      bool_decide (NoDup properties.*1)
      && forallb (λ '(_, value), distinct_names value) properties
  | _ => true
  end.

End ExtractorSpec.

(** ** Brand names *)

Module BrandSpec.
Import Validation.

(** [sub] occurs in [s]. *)
Definition occurs_in (sub s : string) : Prop :=
  ∃ pre post, s = pre +:+ sub +:+ post.

(** The warning of [validateBrandNames] for one brand name. *)
Definition missingBrandWarning (brandName : string) : ValidationWarning :=
  {| w_type := "MISSING_BRAND_NAME";
     w_message := "Brand name " +:+ String 34%N "" +:+ brandName
                  +:+ String 34%N "" +:+ " not preserved in translation";
     w_field := Some brandName |}.

(** Two configurations that differ in [brandNames] at most. *)
Definition same_but_brands (config config' : Config) : Prop :=
  preservePlaceholders config' = preservePlaceholders config
  ∧ maxLengthRatio config' = maxLengthRatio config
  ∧ preventSourceLeakage config' = preventSourceLeakage config.

End BrandSpec.

(** ** The writes of a [sync] run *)

Module CompilerSpec.
Import Ledger Types Planner Compiler.

(** [L'] differs from [L] in [sync_status] only, and only in rows of pairs
    that satisfy [P], which then satisfy [Q]. *)
Definition writes_within (P : string → string → Prop) (Q : SyncStatus → Prop)
    (L L' : Ledger.t) : Prop :=
  source_hashes L' = source_hashes L
  ∧ ∀ k l, getSyncStatus L' k l = getSyncStatus L k l
           ∨ (P k l ∧ ∃ s, getSyncStatus L' k l = Some s ∧ Q s).

(** The two rows [sync] writes: a failed validation, with the empty target
    hash and no model, or a committed translation, with the hash of its
    text, the provider's fingerprint and the prompt version. *)
Definition committed {FS Nested} (env : Env FS Nested) (provider : LLMProvider)
    (s : SyncStatus) : Prop :=
  (status s = FAILED ∧ target_hash s = "" ∧ model_fingerprint s = None
   ∧ prompt_version s = None)
  ∨ (status s = CLEAN ∧ (∃ text, target_hash s = computeHash env text)
     ∧ model_fingerprint s = str_or_null (getModelFingerprint provider)
     ∧ prompt_version s = opt_num_or_null (Some (getPromptVersion env))).

(** Some unit of the batch has the key, and the batch is for the language. *)
Definition in_batch (batch : TranslationBatch) (k l : string) : Prop :=
  targetLanguage batch = l ∧ ∃ u, u ∈ sourceUnits batch ∧ keyPath u = k.

(** The pair is in some batch of the list. *)
Definition in_batches (batches : list TranslationBatch) (k l : string) : Prop :=
  ∃ batch, batch ∈ batches ∧ in_batch batch k l.

(** The number of units the batches carry. *)
Definition units_of (batches : list TranslationBatch) : nat :=
  sum_list (map (λ batch, length (sourceUnits batch)) batches).

(** The parts of what [sync] leaves. *)
Definition ledger_of {FS} (r : Ledger.t * RunHistory.t * FS * Outcome Stats.RunStatistics)
    : Ledger.t := r.1.1.1.
Definition history_of {FS} (r : Ledger.t * RunHistory.t * FS * Outcome Stats.RunStatistics)
    : RunHistory.t := r.1.1.2.
Definition files_of {FS} (r : Ledger.t * RunHistory.t * FS * Outcome Stats.RunStatistics)
    : FS := r.1.2.
Definition outcome_of {FS} (r : Ledger.t * RunHistory.t * FS * Outcome Stats.RunStatistics)
    : Outcome Stats.RunStatistics := r.2.

End CompilerSpec.

(** ** Worked inputs

    The scenarios of the property tests, run on the model. *)

Module Scenario.
Import Ledger Types Planner Hash Validation.

(** In the scenarios the identity stands for SHA-256 and the clock starts
    at a fixed instant. *)
Definition idHash (s : string) : string := s.
Definition clock (n : nat) : N := (1700000000000 + N.of_nat n)%N.

Definition unit_of (key text : string) (phs : list string) : SourceUnit :=
  {| unitId := key; keyPath := key; sourceText := text; sourceHash := idHash text;
     context := None; placeholders := phs; sourceFile := "test.json";
     schemaVersion := 1 |}.

Definition greeting : SourceUnit := unit_of "greeting" "Hello" [].
Definition farewell : SourceUnit := unit_of "farewell" "Bye" [].
Definition welcome : SourceUnit := unit_of "welcome" "Welcome {name}" ["{name}"].
Definition greeting' : SourceUnit := unit_of "greeting" "Hello!" [].

Definition french : TargetLanguage := {| language := "French"; shortCode := "fr" |}.
Definition german : TargetLanguage := {| language := "German"; shortCode := "de" |}.

(** A successful sync of one unit for one language. *)
Definition synced (L : Ledger.t) (u : SourceUnit) (lang : string) : Ledger.t :=
  updateSyncStatus (updateSourceHash L "t1" (keyPath u) (sourceHash u) None None)
    "t1" (keyPath u) lang "some-target-hash" CLEAN None None.

Definition afterFirstSync : Ledger.t :=
  synced (synced (synced Ledger.empty greeting "fr") farewell "fr") welcome "fr".

(** [sync_status] says [CLEAN] for greeting/fr, [source_hashes] has no row. *)
Definition cleanWithoutSourceHash : Ledger.t :=
  updateSyncStatus Ledger.empty "t1" "greeting" "fr" "some-target-hash" CLEAN None None.

Definition plan_keys (p : TranslationPlan) : list (string * list string) :=
  map (λ b, (targetLanguage b, map keyPath (sourceUnits b))) (batches p).

Definition noConfig : Config :=
  {| preservePlaceholders := None; maxLengthRatio := None;
     preventSourceLeakage := None; brandNames := None |}.

Definition answer (text : string) : TranslationResult :=
  {| tr_unitId := "1"; translatedText := text; tr_confidence := Some 1%float |}.

(** A blank answer: a space, an em space (U+2003), an ideographic space
    (U+3000), a line separator (U+2028) and a byte order mark (U+FEFF). *)
Definition blank : string :=
  String 32%N (String 8195%N (String 12288%N (String 8232%N (String 65279%N "")))).

Definition importRecord : LedgerImport.ImportRecord :=
  {| LedgerImport.keyPath := "test.key"; LedgerImport.langCode := "es";
     LedgerImport.sourceHash := "hash-a"; LedgerImport.targetHash := "hash-b" |}.

(** The greeting failed for French after the first sync. *)
Definition failedGreeting : Ledger.t :=
  updateSyncStatus afterFirstSync "t2" "greeting" "fr" "" FAILED None None.

(** [ORDER BY started_at DESC] carried out by a stable merge sort. *)
Definition stableOrder : list RunHistory.Run → list RunHistory.Run :=
  merge_sort RunHistory.newer_first.

(** Three runs on three days. *)
Definition runAt (t : Timestamp) : RunHistory.RunRow :=
  {| RunHistory.started_at := t; RunHistory.finished_at := None;
     RunHistory.model_used := "gpt-4";
     RunHistory.tokens_in := None; RunHistory.tokens_out := None;
     RunHistory.cost_estimate_usd := None;
     RunHistory.config_hash := "c" |}.

Definition threeRuns : RunHistory.t :=
  <["run_1_a" := runAt "2024-01-01 10:00:00"]>
    (<["run_2_b" := runAt "2024-01-02 10:00:00"]>
       (<["run_3_c" := runAt "2024-01-03 10:00:00"]> ∅)).

(** A file system that keeps what was written, latest first. *)
Definition Files : Type := list (string * (string * string)).

(** A provider that answers each text with the text and a mark, and one
    that rejects every request. *)
Definition echoProvider : Compiler.LLMProvider :=
  {| Compiler.translate := λ _ batch _,
       Some (map (λ u, answer (sourceText u +:+ "!")) (sourceUnits batch));
     Compiler.getModelFingerprint := "echo-1";
     Compiler.estimateCost := λ _, 0%float |}.

Definition deafProvider : Compiler.LLMProvider :=
  {| Compiler.translate := λ _ _ _, None;
     Compiler.getModelFingerprint := AnthropicProvider.getModelFingerprint "deaf-1";
     Compiler.estimateCost := AnthropicProvider.estimateCost |}.

(** The host's [toLowerCase] on the texts of the scenarios, which are ASCII:
    A to Z move up by 32. *)
Fixpoint asciiLower (s : string) : string :=
  match s with
  | String c s' =>
      String (if (65 <=? c) && (c <=? 90) then c + 32 else c)%N (asciiLower s')
  | EmptyString => EmptyString
  end.

(** A run over the given extraction, languages and provider. *)
Definition runOf (units : list SourceUnit) (langs : list TargetLanguage)
    (provider : Compiler.LLMProvider) : Compiler.Env Files (string * string) :=
  {| Compiler.computeHash := idHash;
     Compiler.dateNow := clock;
     Compiler.toFixed1 := λ _, "?";
     Compiler.numberToString := λ _, "?";
     Compiler.toLowerCase := asciiLower;
     Compiler.targetLanguages := langs;
     Compiler.validation := noConfig;
     Compiler.providerModel := "echo";
     Compiler.providerTemperature := 0.5%float;
     Compiler.configHash := "config-hash";
     Compiler.extract := Some units;
     Compiler.runDateNow := 1700000000000%N;
     Compiler.randomSuffix := "k3j9x0a1b";
     Compiler.startTime := 1700000000000%N;
     Compiler.finishTime := 1700000001000%N;
     Compiler.sqlNow := λ n, "t" +:+ pretty n;
     Compiler.createProvider := Some provider;
     Compiler.getSystemPrompt := λ langName _ _, "Translate to " +:+ langName;
     Compiler.getUserPrompt := λ texts, String.concat "," texts;
     Compiler.getPromptVersion := 1%Z;
     Compiler.getOutputPath := λ lang, shortCode lang +:+ ".json";
     Compiler.flatToNested := λ k text, (k, text);
     Compiler.writeTranslations := λ files path nested, ((path, nested) :: files, true) |}.

(** A parsed document whose members are, in this order, b, 10, a and 2. *)
Definition document : JsonExtractor.Json :=
  JsonExtractor.JObject
    [("b", JsonExtractor.JString "Bye {name}");
     ("10", JsonExtractor.JArray [JsonExtractor.JString "ten";
                                  JsonExtractor.JNumber 1;
                                  JsonExtractor.JString "%d more"]);
     ("a", JsonExtractor.JString "A");
     ("2", JsonExtractor.JString "two")].

(** A request that is rejected twice and then answered. *)
Definition flaky (n : nat) : string + string :=
  if decide (n < 2) then inr "overloaded" else inl "[]".

End Scenario.

(** * Properties *)

(** ** The order of strings *)

Lemma leb_cons c1 s1 c2 s2 :
  String.leb (String c1 s1) (String c2 s2) = true
  ↔ (c1 < c2)%N ∨ c1 = c2 ∧ String.leb s1 s2 = true.
Proof.
  simpl. destruct (N.ltb_spec c1 c2) as [Hlt|Hge].
  - split; [by left|done].
  - destruct (N.eqb_spec c1 c2) as [->|Hne].
    + split; [by right|]. intros [?|[_ ?]]; [lia|done].
    + split; [done|]. intros [?|[? _]]; [lia|done].
Qed.

Lemma le_cons c1 s1 c2 s2 :
  String.le (String c1 s1) (String c2 s2) ↔ (c1 < c2)%N ∨ c1 = c2 ∧ String.le s1 s2.
Proof. unfold String.le. rewrite !Is_true_true. apply leb_cons. Qed.

#[export] Instance string_le_po : PartialOrder String.le.
Proof.
  split; [split|].
  - intros s. induction s as [|c s IH]; [done|]. apply le_cons. by right.
  - intros s1. induction s1 as [|c1 s1 IH]; intros s2 s3 H12 H23; [done|].
    destruct s2 as [|c2 s2]; [done|]. destruct s3 as [|c3 s3]; [done|].
    apply le_cons in H12, H23. apply le_cons.
    destruct H12 as [?|[-> ?]], H23 as [?|[-> ?]]; [left; lia|by left|by left|].
    right. split; [done|]. by apply (IH s2).
  - intros s1. induction s1 as [|c1 s1 IH]; intros s2 H12 H21.
    + by destruct s2.
    + destruct s2 as [|c2 s2]; [done|].
      apply le_cons in H12, H21.
      destruct H12 as [?|[-> ?]], H21 as [?|[? ?]]; [lia|lia|lia|].
      f_equal. by apply IH.
Qed.

#[export] Instance string_le_total : Total String.le.
Proof.
  intros s1. induction s1 as [|c1 s1 IH]; intros s2; [by left|].
  destruct s2 as [|c2 s2]; [by right|].
  rewrite !le_cons.
  destruct (N.lt_trichotomy c1 c2) as [?|[->|?]]; [by left; left| |by right; left].
  destruct (IH s2); [left|right]; by right.
Qed.

(** ** Ledger *)

Section LedgerFacts.
Import Ledger.

Lemma getSyncStatus_None L k l :
  getSyncStatus L k l = None ↔ sync_status L !! (k, l) = None.
Proof. unfold getSyncStatus. destruct (sync_status L !! (k, l)); naive_solver. Qed.

Lemma getSyncStatus_Some_status L k l s :
  getSyncStatus L k l = Some s →
  ∃ row, sync_status L !! (k, l) = Some row ∧ status s = row_status row
         ∧ target_hash s = row_target_hash row.
Proof.
  unfold getSyncStatus. destruct (sync_status L !! (k, l)) as [row|]; [|done].
  intros [= <-]. by exists row.
Qed.

Lemma getSyncStatus_update_eq L now k l th st mf pv :
  getSyncStatus (updateSyncStatus L now k l th st mf pv) k l =
  Some {| key_path := k; lang_code := l; target_hash := th; status := st;
          model_fingerprint := opt_str_or_null mf;
          prompt_version := opt_num_or_null pv; updated_at := now |}.
Proof. unfold getSyncStatus, updateSyncStatus; simpl. by rewrite lookup_insert_eq. Qed.

Lemma getSyncStatus_update_ne L now k l th st mf pv k' l' :
  (k, l) ≠ (k', l') →
  getSyncStatus (updateSyncStatus L now k l th st mf pv) k' l' = getSyncStatus L k' l'.
Proof.
  intros Hne. unfold getSyncStatus, updateSyncStatus; simpl.
  by rewrite lookup_insert_ne.
Qed.

Lemma getSyncStatus_updateSourceHash L now k h cs r k' l' :
  getSyncStatus (updateSourceHash L now k h cs r) k' l' = getSyncStatus L k' l'.
Proof. reflexivity. Qed.

(** What [getSourceHash] hands back is the stored [value_hash], unless that
    is the empty string, which reads as absent. *)
Lemma getSourceHash_Some_iff L k h :
  getSourceHash L k = Some h ↔
  h ≠ "" ∧ ∃ row, source_hashes L !! k = Some row ∧ value_hash row = h.
Proof.
  unfold getSourceHash, str_or_null.
  destruct (source_hashes L !! k) as [row|]; [|by split; [|intros (_ & ? & ? & _)]].
  case_decide as He.
  - split; [done|]. intros (Hne & row' & [= <-] & <-). done.
  - split; [intros [= <-]; split; [done|by exists row]|].
    by intros (_ & row' & [= <-] & <-).
Qed.

Lemma getSourceHash_update_eq L now k h cs r :
  getSourceHash (updateSourceHash L now k h cs r) k = str_or_null h.
Proof. unfold getSourceHash, updateSourceHash; simpl. by rewrite lookup_insert_eq. Qed.

Lemma getSourceHash_updateSyncStatus L now k l th st mf pv k' :
  getSourceHash (updateSyncStatus L now k l th st mf pv) k' = getSourceHash L k'.
Proof. reflexivity. Qed.

End LedgerFacts.

(** ** Planner *)

Section PlannerFacts.
Import Ledger Types Planner PlannerSpec.

Variable computeHash : string → string.
Variable dateNow : nat → N.

Local Abbreviation batch_at := (PlannerSpec.batch_at computeHash dateNow).
Local Abbreviation lang_batches := (PlannerSpec.lang_batches computeHash dateNow).

Lemma elem_of_concat {A} (x : A) (ls : list (list A)) :
  x ∈ concat ls ↔ ∃ l, x ∈ l ∧ l ∈ ls.
Proof.
  induction ls as [|l ls IH]; simpl.
  - split; [by intros ?%elem_of_nil|]. by intros (l & _ & ?%elem_of_nil).
  - rewrite elem_of_app, IH. split.
    + intros [Hx|(l' & Hx & Hl')]; [exists l|exists l'];
        (split; [done|]); [left|by right].
    + intros (l' & Hx & [->|Hl']%elem_of_cons); [by left|right; by exists l'].
Qed.

Lemma detectChanges_filter L us l :
  detectChanges L us l = filter (λ u, unitNeedsTranslation L l u = true) us.
Proof.
  induction us as [|u us IH]; [done|]. simpl. rewrite filter_cons.
  destruct (unitNeedsTranslation L l u) eqn:E.
  - rewrite decide_True by done. by rewrite IH.
  - rewrite decide_False by done. done.
Qed.

Lemma elem_of_detectChanges L us l u :
  u ∈ detectChanges L us l ↔ u ∈ us ∧ unitNeedsTranslation L l u = true.
Proof. rewrite detectChanges_filter. by rewrite list_elem_of_filter, (comm and). Qed.

(** The decision chain as a proposition. *)
Lemma unitNeedsTranslation_spec L l u :
  unitNeedsTranslation L l u = true ↔
  getSyncStatus L (keyPath u) l = None ∨
  ∃ s, getSyncStatus L (keyPath u) l = Some s ∧ status s ≠ MANUAL ∧
       (getSourceHash L (keyPath u) ≠ Some (sourceHash u) ∨
        status s = FAILED ∨ status s = DIRTY).
Proof.
  unfold unitNeedsTranslation.
  destruct (getSyncStatus L (keyPath u) l) as [s|]; [|by split; [left|]].
  destruct (decide (status s = MANUAL)) as [HM|HM].
  { split; [done|]. intros [?|(s' & [= <-] & ? & _)]; done. }
  destruct (bool_decide (getSourceHash L (keyPath u) ≠ Some (sourceHash u))) eqn:Hc.
  - apply bool_decide_eq_true in Hc. split; [|done].
    intros _. right. exists s. auto.
  - apply bool_decide_eq_false in Hc. apply dec_stable in Hc.
    destruct (decide (status s = FAILED ∨ status s = DIRTY)) as [Hr|Hr].
    + split; [|done]. intros _. right. exists s. auto.
    + split; [done|]. intros [?|(s' & [= <-] & _ & [?|?])]; done.
Qed.

Lemma createBatches_loop_lookup fuel units lang bs tick i j :
  0 < bs → length units ≤ i + fuel →
  createBatches_loop computeHash dateNow fuel units lang bs tick i !! j =
  if decide (i + j * bs < length units)
  then Some (batch_at units lang bs (tick + j) (i + j * bs))
  else None.
Proof.
  intros Hbs. revert tick i j.
  induction fuel as [|fuel IH]; intros tick i j Hfuel; simpl.
  - rewrite decide_False by lia. done.
  - destruct (decide (i < length units)) as [Hi|Hi].
    + destruct j as [|j]; simpl.
      * rewrite decide_True by lia. unfold batch_at.
        by rewrite !Nat.add_0_r.
      * rewrite IH by lia.
        replace (i + bs + j * bs) with (i + (bs + j * bs)) by lia.
        by replace (S tick + j) with (tick + S j) by lia.
    + rewrite decide_False by lia. done.
Qed.

(** More fuel than [units.length] changes nothing: the loop has ended. *)
Lemma createBatches_loop_fuel fuel fuel' units lang bs tick i :
  0 < bs → length units ≤ i + fuel → length units ≤ i + fuel' →
  createBatches_loop computeHash dateNow fuel units lang bs tick i =
  createBatches_loop computeHash dateNow fuel' units lang bs tick i.
Proof.
  intros Hbs Hf Hf'. apply list_eq. intros j.
  by rewrite !createBatches_loop_lookup.
Qed.

Lemma createBatches_lookup units lang bs tick j :
  0 < bs →
  createBatches computeHash dateNow units lang bs tick !! j =
  if decide (j * bs < length units)
  then Some (batch_at units lang bs (tick + j) (j * bs))
  else None.
Proof.
  intros Hbs. unfold createBatches.
  rewrite createBatches_loop_lookup by lia. done.
Qed.

Lemma createBatches_loop_concat fuel units lang bs tick i :
  0 < bs → length units ≤ i + fuel →
  concat (map sourceUnits (createBatches_loop computeHash dateNow fuel units lang bs tick i))
  = drop i units.
Proof.
  intros Hbs. revert tick i.
  induction fuel as [|fuel IH]; intros tick i Hfuel; simpl.
  - by rewrite drop_ge by lia.
  - destruct (decide (i < length units)) as [Hi|Hi]; simpl.
    + rewrite IH by lia. unfold slice.
      replace (i + bs - i) with bs by lia.
      rewrite <- (take_drop bs (drop i units)) at 2.
      by rewrite drop_drop.
    + by rewrite drop_ge by lia.
Qed.

Lemma createBatches_concat units lang bs tick :
  0 < bs →
  concat (map sourceUnits (createBatches computeHash dateNow units lang bs tick)) = units.
Proof.
  intros Hbs. unfold createBatches.
  by rewrite createBatches_loop_concat by lia.
Qed.

Lemma createBatches_nil lang bs tick :
  createBatches computeHash dateNow [] lang bs tick = [].
Proof. reflexivity. Qed.

Lemma createBatches_targetLanguage units lang bs tick b :
  0 < bs → b ∈ createBatches computeHash dateNow units lang bs tick → targetLanguage b = lang.
Proof.
  intros Hbs [j Hj]%list_elem_of_lookup.
  rewrite createBatches_lookup in Hj by done.
  case_decide; [|done]. by injection Hj as <-.
Qed.

Lemma createPlan_loop_spec L us langs acc total tick :
  ∃ ticks, length ticks = length langs ∧
    createPlan_loop computeHash dateNow L us langs acc total tick =
    ((acc ++ concat (zip_with (lang_batches L us) langs ticks))%list,
     total + sum_list (map (λ lang, length (detectChanges L us (shortCode lang))) langs)).
Proof.
  revert acc total tick.
  induction langs as [|lang langs IH]; intros acc total tick; simpl.
  - exists []. by rewrite app_nil_r, Nat.add_0_r.
  - destruct (decide (length (detectChanges L us (shortCode lang)) = 0)) as [Hz|Hz].
    + destruct (IH acc total tick) as (ticks & Hlen & ->).
      exists (tick :: ticks). split; [simpl; lia|]. simpl.
      unfold lang_batches at 2. apply length_zero_iff_nil in Hz.
      rewrite Hz. rewrite createBatches_nil. simpl. done.
    + edestruct IH as (ticks & Hlen & ->).
      exists (tick :: ticks). split; [simpl; lia|]. simpl.
      rewrite <- app_assoc. f_equal. lia.
Qed.

Lemma createPlan_spec L us langs :
  ∃ ticks, length ticks = length langs ∧
    batches (createPlan computeHash dateNow L us langs) =
      concat (zip_with (lang_batches L us) langs ticks) ∧
    totalUnits (createPlan computeHash dateNow L us langs) =
      sum_list (map (λ lang, length (detectChanges L us (shortCode lang))) langs).
Proof.
  unfold createPlan.
  destruct (createPlan_loop_spec L us langs [] 0 0) as (ticks & Hlen & ->).
  exists ticks. done.
Qed.

Lemma plan_includes_iff L us langs u l :
  plan_includes (createPlan computeHash dateNow L us langs) u l ↔
  (∃ lang, lang ∈ langs ∧ shortCode lang = l) ∧ u ∈ detectChanges L us l.
Proof.
  destruct (createPlan_spec L us langs) as (ticks & Hlen & Hb & _).
  unfold plan_includes. rewrite Hb. split.
  - intros (b & Hin & Hl & Hu).
    apply elem_of_concat in Hin as (bs & Hbbs & Hbs).
    apply list_elem_of_lookup in Hbs as [i Hi].
    apply lookup_zip_with_Some in Hi as (lang & tick & -> & Hlang & Htick).
    unfold lang_batches in Hbbs.
    assert (targetLanguage b = shortCode lang) as Hb'.
    { eapply createBatches_targetLanguage; [|done]. unfold defaultBatchSize; lia. }
    split.
    + exists lang. split; [by eapply list_elem_of_lookup_2|congruence].
    + rewrite <- Hl, Hb'.
      rewrite <- (createBatches_concat (detectChanges L us (shortCode lang))
                    (shortCode lang) defaultBatchSize tick) by (unfold defaultBatchSize; lia).
      apply elem_of_concat. exists (sourceUnits b). split; [done|].
      by apply list_elem_of_fmap_2.
  - intros [(lang & Hlang & <-) Hu].
    apply list_elem_of_lookup in Hlang as [i Hi].
    destruct (lookup_lt_is_Some_2 ticks i) as [tick Htick].
    { rewrite Hlen. by eapply lookup_lt_Some. }
    rewrite <- (createBatches_concat (detectChanges L us (shortCode lang))
                  (shortCode lang) defaultBatchSize tick) in Hu
      by (unfold defaultBatchSize; lia).
    apply elem_of_concat in Hu as (su & Hsu & Hsu').
    apply list_elem_of_fmap in Hsu' as (b & -> & Hb').
    exists b. split_and!; [|by eapply createBatches_targetLanguage;
                               [|done]; unfold defaultBatchSize; lia|done].
    apply elem_of_concat. exists (lang_batches L us lang tick). split; [done|].
    apply list_elem_of_lookup. exists i.
    apply lookup_zip_with_Some. by exists lang, tick.
Qed.

Lemma createBatches_loop_units fuel units lang bs tick i :
  map sourceUnits (createBatches_loop computeHash dateNow fuel units lang bs tick i)
  = chunks_loop fuel units bs i.
Proof.
  revert tick i. induction fuel as [|fuel IH]; intros tick i; simpl; [done|].
  case_decide; simpl; [|done]. by rewrite IH.
Qed.

Lemma concat_zip_with_units L us langs ticks :
  length ticks = length langs →
  map sourceUnits (concat (zip_with (lang_batches L us) langs ticks)) =
  concat (map (λ lang, let sel := detectChanges L us (shortCode lang) in
                       chunks_loop (length sel) sel defaultBatchSize 0) langs).
Proof.
  revert ticks. induction langs as [|lang langs IH]; intros [|tick ticks] Hlen;
    simplify_eq/=; [done|].
  rewrite map_app, IH by done. f_equal.
  unfold lang_batches, createBatches. apply createBatches_loop_units.
Qed.

Lemma createPlan_units L us langs :
  map sourceUnits (batches (createPlan computeHash dateNow L us langs)) =
  concat (map (λ lang, let sel := detectChanges L us (shortCode lang) in
                       chunks_loop (length sel) sel defaultBatchSize 0) langs).
Proof.
  destruct (createPlan_spec L us langs) as (ticks & Hlen & -> & _).
  by apply concat_zip_with_units.
Qed.

End PlannerFacts.

(** *** The planner's decision table, idempotent re-sync, batching *)

Section PlannerClaims.
Import Ledger Types Planner PlannerSpec.

Variable computeHash : string → string.
Variable dateNow : nat → N.

Local Abbreviation createPlan := (Planner.createPlan computeHash dateNow).
Local Abbreviation createBatches := (Planner.createBatches computeHash dateNow).

(** C1.  For a source unit and a target language of the call, [createPlan]
    includes the pair exactly when the ledger has no [sync_status] row for
    (keyPath, langCode), or the stored status is not [MANUAL] and either the
    stored source hash (what [getSourceHash] returns) differs from the unit's
    [sourceHash] or the status is [FAILED] or [DIRTY].  In particular a
    [MANUAL] pair is never included, and a [CLEAN] pair whose stored source
    hash equals the unit's is excluded. *)
Theorem createPlan_includes_iff (L : Ledger.t) (us : list SourceUnit)
    (langs : list TargetLanguage) (u : SourceUnit) (lang : TargetLanguage) :
  u ∈ us → lang ∈ langs →
  let included := plan_includes (createPlan L us langs) u (shortCode lang) in
  let stored := getSyncStatus L (keyPath u) (shortCode lang) in
  (included ↔
     stored = None ∨
     ∃ s, stored = Some s ∧ status s ≠ MANUAL ∧
          (getSourceHash L (keyPath u) ≠ Some (sourceHash u) ∨
           status s = FAILED ∨ status s = DIRTY))
  ∧ (∀ s, stored = Some s → status s = MANUAL → ¬ included)
  ∧ (∀ s, stored = Some s → status s = CLEAN →
          getSourceHash L (keyPath u) = Some (sourceHash u) → ¬ included).
Proof.
  intros Hu Hlang included stored.
  assert (included ↔ unitNeedsTranslation L (shortCode lang) u = true) as Hinc.
  { unfold included. rewrite plan_includes_iff, elem_of_detectChanges.
    split; [tauto|]. intros Hn. split; [by exists lang|done]. }
  rewrite unitNeedsTranslation_spec in Hinc. fold stored in Hinc.
  split_and!; [done|..].
  - intros s Hs HM [Hnone|(s' & Hs' & Hne & _)]%Hinc; congruence.
  - intros s Hs HC Hh [Hnone|(s' & Hs' & _ & Hor)]%Hinc; [congruence|].
    assert (s' = s) as -> by congruence.
    destruct Hor as [?|[?|?]]; congruence.
Qed.

(** C2.  Re-sync is idempotent: when the stored source hash of every unit's
    keyPath equals the unit's [sourceHash] and every pair in scope is
    [CLEAN], the plan has no batch and [totalUnits] is 0. *)
Theorem createPlan_idempotent (L : Ledger.t) (us : list SourceUnit)
    (langs : list TargetLanguage) :
  (∀ u, u ∈ us → getSourceHash L (keyPath u) = Some (sourceHash u)) →
  (∀ u lang, u ∈ us → lang ∈ langs →
     ∃ s, getSyncStatus L (keyPath u) (shortCode lang) = Some s ∧ status s = CLEAN) →
  batches (createPlan L us langs) = [] ∧ totalUnits (createPlan L us langs) = 0.
Proof.
  intros Hhash Hclean.
  assert (∀ lang, lang ∈ langs → detectChanges L us (shortCode lang) = []) as Hnil.
  { intros lang Hlang. apply elem_of_nil_inv. intros u [Hu Hn]%elem_of_detectChanges.
    destruct (Hclean u lang Hu Hlang) as (s & Hs & Hst).
    apply unitNeedsTranslation_spec in Hn as [Hn|(s' & Hs' & _ & Hor)]; [congruence|].
    assert (s' = s) as -> by congruence.
    specialize (Hhash u Hu). destruct Hor as [?|[?|?]]; congruence. }
  destruct (createPlan_spec computeHash dateNow L us langs) as (ticks & Hlen & -> & ->).
  clear Hhash Hclean. revert ticks Hlen.
  induction langs as [|lang langs IH]; intros ticks Hlen.
  - by destruct ticks.
  - destruct ticks as [|tick ticks]; [done|]. simpl.
    unfold lang_batches at 1.
    rewrite (Hnil lang) by apply list_elem_of_here.
    rewrite createBatches_nil. simpl.
    apply IH; [|simpl in Hlen; lia].
    intros lang' Hl. apply Hnil. by apply list_elem_of_further.
Qed.

(** C10.  A pair whose stored status is [CLEAN] is nevertheless included
    when [source_hashes] has no row for the keyPath: [getSourceHash] returns
    absent, which is unequal to the unit's [sourceHash]. *)
Theorem createPlan_clean_without_source_hash (L : Ledger.t) (us : list SourceUnit)
    (langs : list TargetLanguage) (u : SourceUnit) (lang : TargetLanguage) (s : SyncStatus) :
  u ∈ us → lang ∈ langs →
  getSyncStatus L (keyPath u) (shortCode lang) = Some s → status s = CLEAN →
  source_hashes L !! keyPath u = None →
  getSourceHash L (keyPath u) = None ∧
  plan_includes (createPlan L us langs) u (shortCode lang).
Proof.
  intros Hu Hlang Hs HC Hrow.
  assert (getSourceHash L (keyPath u) = None) as Hnone.
  { unfold getSourceHash. by rewrite Hrow. }
  split; [done|].
  apply plan_includes_iff. split; [by exists lang|].
  apply elem_of_detectChanges. split; [done|].
  apply unitNeedsTranslation_spec. right. exists s.
  split_and!; [done|congruence|left; congruence].
Qed.

(** C9.  For each target language the selected units are cut, in their
    order, into consecutive batches of 20: the plan's batch list is the
    concatenation over the languages of [createBatches] on the selected
    units; batch [j] holds units [20j .. 20j+19], so every batch but the last
    has exactly 20 units and the batches' unit lists concatenate to the
    selected list.  The deduplication key is the hash of the members' source
    hashes concatenated with ["_"] between them; replacing the hash function
    (or the clock) changes neither the units of the batches nor
    [totalUnits]. *)
Theorem createBatches_fixed_size (L : Ledger.t) (us : list SourceUnit)
    (langs : list TargetLanguage) :
  let plan := createPlan L us langs in
  (∃ ticks, length ticks = length langs ∧
     batches plan =
     concat (zip_with (λ lang tick,
                         createBatches (detectChanges L us (shortCode lang))
                                       (shortCode lang) 20 tick) langs ticks))
  ∧ (∀ (selected : list SourceUnit) (lang : string) (tick : nat),
       let bs := createBatches selected lang 20 tick in
       concat (map sourceUnits bs) = selected ∧
       ∀ j b, bs !! j = Some b →
         sourceUnits b = take 20 (drop (20 * j) selected) ∧
         1 ≤ length (sourceUnits b) ≤ 20 ∧
         (S j < length bs → length (sourceUnits b) = 20) ∧
         targetLanguage b = lang ∧
         deduplicationKey b =
           computeHash (String.concat "_" (map sourceHash (sourceUnits b))))
  ∧ (∀ (computeHash' : string → string) (dateNow' : nat → N),
       let plan' := Planner.createPlan computeHash' dateNow' L us langs in
       map sourceUnits (batches plan') = map sourceUnits (batches plan) ∧
       totalUnits plan' = totalUnits plan).
Proof.
  intros plan. split_and!.
  - destruct (createPlan_spec computeHash dateNow L us langs) as (ticks & Hlen & Hb & _).
    by exists ticks.
  - intros selected lang tick bs. split.
    { apply createBatches_concat. lia. }
    intros j b Hj. unfold bs in *.
    pose proof Hj as Hj'. rewrite createBatches_lookup in Hj' by lia.
    case_decide as Hlt; [|done]. injection Hj' as <-. simpl.
    assert (slice selected (j * 20) (j * 20 + 20) = take 20 (drop (20 * j) selected)) as ->.
    { unfold slice. f_equal; [lia|]. f_equal. lia. }
    split_and!; try done.
    + rewrite length_take, length_drop. lia.
    + rewrite length_take, length_drop. lia.
    + intros Hlast. apply lookup_lt_is_Some_2 in Hlast as [b' Hb'].
      rewrite createBatches_lookup in Hb' by lia.
      case_decide; [|done]. rewrite length_take, length_drop. lia.
  - intros computeHash' dateNow' plan'. unfold plan, plan'. split.
    + by rewrite !createPlan_units.
    + destruct (createPlan_spec computeHash dateNow L us langs) as (? & _ & _ & ->).
      by destruct (createPlan_spec computeHash' dateNow' L us langs) as (? & _ & _ & ->).
Qed.

(** C3.  [isManualOverride] answers true exactly when the stored status is
    [MANUAL], or is [CLEAN] with a stored target hash other than the current
    one; it answers false for a pair without a row and for a [CLEAN] pair
    with the same hash.  After [markAsManualOverride k lang h] it answers
    true for every hash, and while the pair's row stays as marked, whatever
    happens to the source hashes and to the units, [createPlan] does not
    include the pair. *)
Theorem manual_override_sticky :
  (∀ L k l h,
     isManualOverride L k l h = true ↔
     ∃ s, getSyncStatus L k l = Some s ∧
          (status s = MANUAL ∨ (status s = CLEAN ∧ target_hash s ≠ h)))
  ∧ (∀ L k l h, getSyncStatus L k l = None → isManualOverride L k l h = false)
  ∧ (∀ L k l s, getSyncStatus L k l = Some s → status s = CLEAN →
                isManualOverride L k l (target_hash s) = false)
  ∧ (∀ L now k l h h', isManualOverride (markAsManualOverride L now k l h) k l h' = true)
  ∧ (∀ L now k l h L',
       sync_status L' !! (k, l) = sync_status (markAsManualOverride L now k l h) !! (k, l) →
       ∀ us langs u, keyPath u = k → ¬ plan_includes (createPlan L' us langs) u l).
Proof.
  split_and!.
  - intros L k l h. unfold isManualOverride.
    destruct (getSyncStatus L k l) as [s|]; [|by split; [|intros (? & ? & _)]].
    destruct (decide (status s = MANUAL)) as [HM|HM].
    { split; [|done]. intros _. exists s. auto. }
    destruct (decide (status s = CLEAN ∧ target_hash s ≠ h)) as [HC|HC].
    + split; [|done]. intros _. exists s. auto.
    + split; [done|]. intros (s' & [= <-] & [?|?]); done.
  - intros L k l h Hnone. unfold isManualOverride. by rewrite Hnone.
  - intros L k l s Hs HC. unfold isManualOverride. rewrite Hs, HC.
    rewrite decide_False by done. rewrite decide_False; [done|]. by intros [_ ?].
  - intros L now k l h h'. unfold isManualOverride, markAsManualOverride.
    by rewrite getSyncStatus_update_eq.
  - intros L now k l h L' Hrow us langs u Hk [_ Hin]%plan_includes_iff.
    apply elem_of_detectChanges in Hin as [_ Hn]. subst k.
    unfold unitNeedsTranslation, getSyncStatus in Hn. rewrite Hrow in Hn.
    unfold markAsManualOverride, updateSyncStatus in Hn. simpl in Hn.
    rewrite lookup_insert_eq in Hn. simpl in Hn. done.
Qed.

End PlannerClaims.

(** ** Hashing utilities *)

Section HashFacts.
Import Hash HashSpec.

(** *** Appending strings *)

Lemma string_app_cons c (s1 s2 : string) : String c s1 +:+ s2 = String c (s1 +:+ s2).
Proof. reflexivity. Qed.

Lemma string_app_nil_l (s : string) : "" +:+ s = s.
Proof. reflexivity. Qed.

Lemma string_app_length (s1 s2 : string) :
  String.length (s1 +:+ s2) = String.length s1 + String.length s2.
Proof.
  induction s1 as [|c s1 IH]; [done|].
  rewrite string_app_cons. simpl. by rewrite IH.
Qed.

Lemma string_app_assoc (s1 s2 s3 : string) :
  (s1 +:+ s2) +:+ s3 = s1 +:+ (s2 +:+ s3).
Proof.
  induction s1 as [|c s1 IH]; [done|].
  rewrite !string_app_cons. by rewrite IH.
Qed.

(** *** The matcher against the meaning of the patterns *)

Lemma accepts_spec a c : accepts a c = true ↔ in_class a c.
Proof.
  destruct a as [x|x|cs|]; simpl.
  - apply bool_decide_eq_true.
  - apply bool_decide_eq_true.
  - apply bool_decide_eq_true.
  - unfold is_digit. rewrite andb_true_iff, !N.leb_le. done.
Qed.

Lemma string_app_nil_r (s : string) : s +:+ "" = s.
Proof. induction s as [|c s IH]; [done|]. by rewrite string_app_cons, IH. Qed.

Lemma string_app_inv (w s w' s' : string) :
  w +:+ s = w' +:+ s' → String.length w = String.length w' → w = w' ∧ s = s'.
Proof.
  revert w'. induction w as [|c w IH]; intros [|c' w']; try done.
  rewrite !string_app_cons. intros [= -> Hs] [= Hl].
  destruct (IH _ Hs Hl) as [-> ->]. done.
Qed.

Lemma match_at_Plus_nil a r : match_at (Plus a :: r) "" = None.
Proof. reflexivity. Qed.

Lemma match_at_Plus_cons a r c s :
  match_at (Plus a :: r) (String c s) =
  if accepts a c then
    match match_at (Plus a :: r) s with
    | Some (m, rest) => Some (String c m, rest)
    | None => (λ '(m, rest), (String c m, rest)) <$> match_at r s
    end
  else None.
Proof. reflexivity. Qed.

Lemma parse_nil_inv s ws rest : parse [] s ws rest → ws = [] ∧ rest = s.
Proof. by inversion 1. Qed.

Lemma parse_cons_inv it r s ws rest :
  parse (it :: r) s ws rest →
  ∃ w s0 ws0, s = w +:+ s0 ∧ ws = w :: ws0 ∧ takes it w ∧ parse r s0 ws0 rest.
Proof. inversion 1; subst. by eexists _, _, _. Qed.

Lemma parse_split r s ws rest :
  parse r s ws rest → s = foldr String.append "" ws +:+ rest.
Proof.
  induction 1 as [|it r w s ws rest Hw Hp IH]; [done|].
  simpl. by rewrite string_app_assoc, <- IH.
Qed.

(** Two ways to match that are each tried no later than the other are one. *)
Lemma parse_tried_first_antisym r s ws rest ws' rest' :
  parse r s ws rest → parse r s ws' rest' →
  tried_first ws ws' → tried_first ws' ws → ws = ws' ∧ rest = rest'.
Proof.
  intros Hp. revert ws' rest'.
  induction Hp as [|it r w s ws rest Hw Hp IH]; intros ws' rest' Hp' H1 H2.
  - by apply parse_nil_inv in Hp' as [-> ->].
  - apply parse_cons_inv in Hp' as (w' & s' & ws0 & Hs & -> & Hw' & Hp').
    simpl in H1, H2.
    assert (String.length w = String.length w' ∧ tried_first ws ws0 ∧ tried_first ws0 ws)
      as (Hl & H1' & H2') by (destruct H1 as [?|[? ?]], H2 as [?|[? ?]]; try lia; done).
    destruct (string_app_inv _ _ _ _ Hs Hl) as [-> ->].
    destruct (IH _ _ Hp' H1' H2') as [-> ->]. done.
Qed.

Lemma takes_One_inv a w s c s' :
  takes (One a) w → w +:+ s = String c s' → w = String c "" ∧ s = s' ∧ in_class a c.
Proof.
  intros (c0 & -> & Hc). rewrite string_app_cons, string_app_nil_l. by intros [= -> ->].
Qed.

Lemma takes_Plus_inv a w s c s' :
  takes (Plus a) w → w +:+ s = String c s' →
  in_class a c ∧ ∃ w', w = String c w' ∧ s' = w' +:+ s
                       ∧ (w' = "" ∨ takes (Plus a) w').
Proof.
  intros [Hne Hall]. destruct w as [|c0 w']; [done|].
  rewrite string_app_cons. intros [= -> <-].
  split; [apply Hall, list_elem_of_here|].
  exists w'. split_and!; [done..|].
  destruct w' as [|c1 w'']; [by left|right].
  split; [done|]. intros c' Hc'. by apply Hall, list_elem_of_further.
Qed.

Lemma takes_Plus_cons a c w :
  in_class a c → w = "" ∨ takes (Plus a) w → takes (Plus a) (String c w).
Proof.
  intros Hc Hw. split; [done|].
  intros c' [->|Hc']%elem_of_cons; [done|].
  destruct Hw as [->|[_ Hall]]; [by apply elem_of_nil in Hc'|by apply Hall].
Qed.

(** The matcher returns the first way to match in the order of trial, and
    fails only when there is no way. *)
Lemma match_at_spec r s :
  match match_at r s with
  | Some (m, rest) => match_here r s m rest
  | None => no_match_here r s
  end.
Proof.
  revert s. induction r as [|[a|a] r IH]; intros s.
  - simpl. exists []. split_and!; [constructor|done|].
    by intros ws' rest' [-> _]%parse_nil_inv.
  - destruct s as [|c s]; simpl.
    { intros ws rest (w & s0 & ws0 & Hs & _ & (c & -> & _) & _)%parse_cons_inv.
      by rewrite string_app_cons in Hs. }
    destruct (accepts a c) eqn:Hc.
    + specialize (IH s). destruct (match_at r s) as [[m rest]|]; simpl.
      * destruct IH as (ws & Hp & -> & Hfirst).
        exists (String c "" :: ws). split_and!.
        -- apply (parse_cons (One a) r (String c "") s); [|done].
           exists c. split; [done|]. by apply accepts_spec.
        -- done.
        -- intros ws' rest' (w & s0 & ws0 & Hs & -> & Hw & Hp')%parse_cons_inv.
           symmetry in Hs. destruct (takes_One_inv _ _ _ _ _ Hw Hs) as (-> & -> & _).
           simpl. right. split; [done|]. by eapply Hfirst.
      * intros ws' rest' (w & s0 & ws0 & Hs & -> & Hw & Hp')%parse_cons_inv.
        symmetry in Hs. destruct (takes_One_inv _ _ _ _ _ Hw Hs) as (-> & -> & _).
        by eapply IH.
    + intros ws' rest' (w & s0 & ws0 & Hs & -> & Hw & Hp')%parse_cons_inv.
      symmetry in Hs. destruct (takes_One_inv _ _ _ _ _ Hw Hs) as (_ & _ & Hin).
      apply accepts_spec in Hin. congruence.
  - induction s as [|c s IHs].
    { rewrite match_at_Plus_nil.
      intros ws rest (w & s0 & ws0 & Hs & _ & [Hne _] & _)%parse_cons_inv.
      destruct w; [done|]. by rewrite string_app_cons in Hs. }
    rewrite match_at_Plus_cons. destruct (accepts a c) eqn:Hc.
    2:{ intros ws' rest' (w & s0 & ws0 & Hs & -> & Hw & Hp')%parse_cons_inv.
        symmetry in Hs. destruct (takes_Plus_inv _ _ _ _ _ Hw Hs) as (Hin & _).
        apply accepts_spec in Hin. congruence. }
    apply accepts_spec in Hc.
    destruct (match_at (Plus a :: r) s) as [[m rest]|].
    + destruct IHs as (ws & Hp & -> & Hfirst).
      apply parse_cons_inv in Hp as Hp'.
      destruct Hp' as (w & s0 & ws0 & -> & -> & Hw & Hp0).
      exists (String c w :: ws0). split_and!.
      * rewrite <- string_app_cons. constructor; [|done].
        apply takes_Plus_cons; [done|by right].
      * done.
      * intros ws' rest' (w' & s0' & ws0' & Hs & -> & Hw' & Hp')%parse_cons_inv.
        symmetry in Hs.
        destruct (takes_Plus_inv _ _ _ _ _ Hw' Hs) as (_ & w'' & -> & Hs' & Hw'').
        destruct Hw'' as [->|Hw''].
        -- simpl. left. destruct Hw as [Hne _]. destruct w; [done|]. simpl. lia.
        -- assert (parse (Plus a :: r) (w +:+ s0) (w'' :: ws0') rest') as Hp''.
           { rewrite Hs'. by constructor. }
           apply Hfirst in Hp''. simpl in Hp'' |- *.
           destruct Hp'' as [?|[? ?]]; [left; lia|right; split; [lia|done]].
    + specialize (IH s). destruct (match_at r s) as [[m rest]|]; simpl.
      * destruct IH as (ws & Hp & -> & Hfirst).
        exists (String c "" :: ws). split_and!.
        -- apply (parse_cons (Plus a) r (String c "") s); [|done].
           apply takes_Plus_cons; [done|by left].
        -- done.
        -- intros ws' rest' (w' & s0' & ws0' & Hs & -> & Hw' & Hp')%parse_cons_inv.
           symmetry in Hs.
           destruct (takes_Plus_inv _ _ _ _ _ Hw' Hs) as (_ & w'' & -> & Hs' & Hw'').
           destruct Hw'' as [->|Hw''].
           ++ rewrite string_app_nil_l in Hs'. subst s0'.
              simpl. right. split; [done|]. by eapply Hfirst.
           ++ exfalso. apply (IHs (w'' :: ws0') rest'). rewrite Hs'. by constructor.
      * intros ws' rest' (w' & s0' & ws0' & Hs & -> & Hw' & Hp')%parse_cons_inv.
        symmetry in Hs.
        destruct (takes_Plus_inv _ _ _ _ _ Hw' Hs) as (_ & w'' & -> & Hs' & Hw'').
        destruct Hw'' as [->|Hw''].
        -- rewrite string_app_nil_l in Hs'. subst s0'. by eapply IH.
        -- apply (IHs (w'' :: ws0') rest'). rewrite Hs'. by constructor.
Qed.

Lemma match_here_unique r s m rest m' rest' :
  match_here r s m rest → match_here r s m' rest' → m = m' ∧ rest = rest'.
Proof.
  intros (ws & Hp & -> & Hfirst) (ws' & Hp' & -> & Hfirst').
  destruct (parse_tried_first_antisym r s ws rest ws' rest') as [-> ->]; eauto.
Qed.

Lemma match_here_no_match r s m rest : match_here r s m rest → ¬ no_match_here r s.
Proof. intros (ws & Hp & _) Hno. by eapply Hno. Qed.

Lemma match_here_split r s m rest : match_here r s m rest → s = m +:+ rest.
Proof. intros (ws & Hp & -> & _). by apply (parse_split r). Qed.

Lemma match_at_Some_iff r s m rest :
  match_at r s = Some (m, rest) ↔ match_here r s m rest.
Proof.
  pose proof (match_at_spec r s) as Hspec. split.
  - intros E. by rewrite E in Hspec.
  - intros Hm. destruct (match_at r s) as [[m' rest']|].
    + by destruct (match_here_unique _ _ _ _ _ _ Hm Hspec) as [-> ->].
    + by apply match_here_no_match in Hm.
Qed.

Lemma match_at_None_iff r s : match_at r s = None ↔ no_match_here r s.
Proof.
  pose proof (match_at_spec r s) as Hspec. split.
  - intros E. by rewrite E in Hspec.
  - intros Hno. destruct (match_at r s) as [[m' rest']|]; [|done].
    by apply match_here_no_match in Hspec.
Qed.

(** *** The scan against its meaning *)

Lemma leftmost_here r s m rest : match_here r s m rest → leftmost r s "" m rest.
Proof.
  intros Hm. apply match_here_split in Hm as Hs. split_and!.
  - by rewrite string_app_nil_l.
  - by rewrite <- Hs.
  - intros pre' s' _ Hlt. simpl in Hlt. lia.
Qed.

Lemma leftmost_skip r c s pre m rest :
  no_match_here r (String c s) → leftmost r s pre m rest →
  leftmost r (String c s) (String c pre) m rest.
Proof.
  intros Hno (-> & Hm & Hmin). split_and!; [done..|].
  intros [|c' pre'] s'; rewrite ?string_app_nil_l, ?string_app_cons.
  - by intros <- _.
  - intros [= <- Hs] Hlt. apply (Hmin pre'); [done|]. simpl in Hlt. lia.
Qed.

Lemma nowhere_skip r c s :
  no_match_here r (String c s) →
  (∀ pre s', s = pre +:+ s' → no_match_here r s') →
  ∀ pre s', String c s = pre +:+ s' → no_match_here r s'.
Proof.
  intros Hno Hnone [|c' pre'] s'; rewrite ?string_app_nil_l, ?string_app_cons.
  - by intros <-.
  - intros [= <- Hs]. by apply (Hnone pre').
Qed.

Lemma scan_skip r c s ms :
  no_match_here r (String c s) → scan r s ms → scan r (String c s) ms.
Proof.
  intros Hno Hscan.
  destruct Hscan as [s Hnone|s pre m rest ms Hl Hm Hs|s pre c' rest ms Hl Hs|s pre Hl].
  - apply scan_none. by apply nowhere_skip.
  - eapply scan_match; [by apply leftmost_skip|done..].
  - eapply scan_empty; [by apply leftmost_skip|done].
  - eapply scan_empty_end. by apply leftmost_skip.
Qed.

(** The loop of [matchAll] finds the matches of the pattern. *)
Lemma matchAll_loop_scan fuel r s :
  String.length s < fuel → scan r s (matchAll_loop fuel r s).
Proof.
  revert s. induction fuel as [|fuel IH]; intros s Hf; [lia|]. simpl.
  destruct (match_at r s) as [[m rest]|] eqn:E.
  - apply match_at_Some_iff in E. apply match_here_split in E as Hs.
    destruct (decide (m = "")) as [->|Hm].
    + rewrite string_app_nil_l in Hs. subst rest.
      destruct s as [|c s'].
      * apply (scan_empty_end r "" ""). by apply leftmost_here.
      * apply (scan_empty r (String c s') "" c s'); [by apply leftmost_here|].
        apply IH. simpl in Hf. lia.
    + apply (scan_match r s "" m rest); [by apply leftmost_here|done|].
      apply IH. rewrite Hs, string_app_length in Hf. destruct m; [done|]. simpl in Hf. lia.
  - apply match_at_None_iff in E. destruct s as [|c s'].
    + apply scan_none. intros [|c pre] s'; [|done]. rewrite string_app_nil_l. by intros <-.
    + apply scan_skip; [done|]. apply IH. simpl in Hf. lia.
Qed.

Lemma matchAll_scan r text : scan r text (matchAll r text).
Proof. apply matchAll_loop_scan. lia. Qed.

Lemma leftmost_unique r s pre m rest pre' m' rest' :
  leftmost r s pre m rest → leftmost r s pre' m' rest' →
  pre = pre' ∧ m = m' ∧ rest = rest'.
Proof.
  intros (Hs & Hm & Hmin) (Hs' & Hm' & Hmin').
  assert (String.length pre = String.length pre') as Hl.
  { destruct (Nat.lt_trichotomy (String.length pre) (String.length pre')) as [Hlt|[?|Hlt]];
      [|done|].
    - exfalso. by apply (match_here_no_match _ _ _ _ Hm), (Hmin' pre).
    - exfalso. by apply (match_here_no_match _ _ _ _ Hm'), (Hmin pre'). }
  rewrite Hs in Hs'. destruct (string_app_inv _ _ _ _ Hs' Hl) as [<- Heq].
  rewrite <- Heq in Hm'.
  destruct (match_here_unique _ _ _ _ _ _ Hm Hm') as [<- <-]. done.
Qed.

Lemma leftmost_somewhere r s pre m rest :
  leftmost r s pre m rest → ¬ ∀ pre s', s = pre +:+ s' → no_match_here r s'.
Proof.
  intros (Hs & Hm & _) Hnone. by apply (match_here_no_match _ _ _ _ Hm), (Hnone pre).
Qed.

(** A pattern has one list of matches on a text. *)
Lemma scan_functional r s ms ms' : scan r s ms → scan r s ms' → ms = ms'.
Proof.
  intros Hscan. revert ms'.
  induction Hscan as [s Hnone|s pre m rest ms Hl Hm Hs IH|s pre c rest ms Hl Hs IH|s pre Hl];
    intros ms' Hscan'.
  - destruct Hscan' as [| ? ? ? ? ? Hl' | ? ? ? ? ? Hl' | ? ? Hl']; [done|..];
      by apply leftmost_somewhere in Hl'.
  - destruct Hscan' as [? Hnone'| ? ? ? ? ? Hl' ? Hs' | ? ? ? ? ? Hl' | ? ? Hl'].
    + by apply leftmost_somewhere in Hl.
    + destruct (leftmost_unique _ _ _ _ _ _ _ _ Hl Hl') as (_ & <- & <-).
      f_equal. by apply IH.
    + by destruct (leftmost_unique _ _ _ _ _ _ _ _ Hl Hl') as (_ & ? & _).
    + by destruct (leftmost_unique _ _ _ _ _ _ _ _ Hl Hl') as (_ & ? & _).
  - destruct Hscan' as [? Hnone'| ? ? ? ? ? Hl' ? Hs' | ? ? ? ? ? Hl' Hs' | ? ? Hl'].
    + by apply leftmost_somewhere in Hl.
    + by destruct (leftmost_unique _ _ _ _ _ _ _ _ Hl Hl') as (_ & ? & _).
    + destruct (leftmost_unique _ _ _ _ _ _ _ _ Hl Hl') as (_ & _ & [= <- <-]).
      f_equal. by apply IH.
    + by destruct (leftmost_unique _ _ _ _ _ _ _ _ Hl Hl') as (_ & _ & ?).
  - destruct Hscan' as [? Hnone'| ? ? ? ? ? Hl' ? Hs' | ? ? ? ? ? Hl' Hs' | ? ? Hl'].
    + by apply leftmost_somewhere in Hl.
    + by destruct (leftmost_unique _ _ _ _ _ _ _ _ Hl Hl') as (_ & ? & _).
    + by destruct (leftmost_unique _ _ _ _ _ _ _ _ Hl Hl') as (_ & _ & ?).
    + done.
Qed.

Lemma scan_matchAll r text ms : scan r text ms ↔ ms = matchAll r text.
Proof.
  split; [|intros ->; apply matchAll_scan].
  intros Hscan. eapply scan_functional; [done|apply matchAll_scan].
Qed.

(** *** The matcher returns a prefix of its input *)

Lemma match_at_split r s m rest :
  match_at r s = Some (m, rest) → s = m +:+ rest.
Proof.
  revert s m rest. induction r as [|it r IH]; intros s m rest; simpl.
  - by intros [= <- <-].
  - destruct it as [a|a].
    + destruct s as [|c s']; [done|].
      destruct (accepts a c); [|done].
      destruct (match_at r s') as [[m' rest']|] eqn:E; [|done].
      intros [= <- <-]. rewrite string_app_cons. f_equal. by apply IH.
    + revert m rest. induction s as [|c s' IHs]; intros m rest; [done|].
      destruct (accepts a c); [|done].
      match goal with |- context [match ?t with Some _ => _ | None => _ end] =>
        destruct t as [[m' rest']|] eqn:Emany end.
      * intros [= <- <-]. rewrite string_app_cons. f_equal. by apply IHs.
      * destruct (match_at r s') as [[m' rest']|] eqn:E; [|done].
        intros [= <- <-]. rewrite string_app_cons. f_equal. by apply IH.
Qed.

Lemma match_at_nonempty r s m rest :
  r ≠ [] → match_at r s = Some (m, rest) → m ≠ "".
Proof.
  destruct r as [|[a|a] r]; [done|..]; intros _; simpl.
  - destruct s as [|c s']; [done|]. destruct (accepts a c); [|done].
    destruct (match_at r s') as [[m' rest']|]; [|done]. by intros [= <- <-].
  - destruct s as [|c s']; [done|]. destruct (accepts a c); [|done].
    match goal with |- context [match ?t with Some _ => _ | None => _ end] =>
      destruct t as [[m' rest']|] end.
    + by intros [= <- <-].
    + destruct (match_at r s') as [[m' rest']|]; [|done]. by intros [= <- <-].
Qed.

(** *** What a match of each kind of item looks like *)

Lemma match_at_nil_inv s m rest :
  match_at [] s = Some (m, rest) → m = "" ∧ rest = s.
Proof. by intros [= <- <-]. Qed.

Lemma match_at_One_inv a r s m rest :
  match_at (One a :: r) s = Some (m, rest) →
  ∃ c s' m', s = String c s' ∧ accepts a c = true ∧ m = String c m'
             ∧ match_at r s' = Some (m', rest).
Proof.
  simpl. destruct s as [|c s']; [done|].
  destruct (accepts a c) eqn:Ha; [|done].
  destruct (match_at r s') as [[m' rest']|] eqn:E; [|done].
  intros [= <- <-]. by exists c, s', m'.
Qed.

Lemma match_at_Plus_inv a r s m rest :
  match_at (Plus a :: r) s = Some (m, rest) →
  ∃ run s' m', run ≠ "" ∧ (∀ c, c ∈ chars run → accepts a c = true)
               ∧ s = run +:+ s' ∧ m = run +:+ m'
               ∧ match_at r s' = Some (m', rest).
Proof.
  simpl. revert m rest. induction s as [|c s IHs]; intros m rest; [done|].
  destruct (accepts a c) eqn:Ha; [|done].
  match goal with |- context [match ?t with Some _ => _ | None => _ end] =>
    destruct t as [[m1 rest1]|] eqn:Emany end.
  - intros [= <- <-].
    destruct (IHs _ _ eq_refl) as (run & s' & m' & Hne & Hall & -> & -> & Hr).
    exists (String c run), s', m'. split_and!; [done| |done..].
    intros c' [->|Hc']%elem_of_cons; [done|by apply Hall].
  - destruct (match_at r s) as [[m' rest']|] eqn:E; [|done].
    intros [= <- <-]. exists (String c ""), s, m'. split_and!; [done| |done..].
    by intros c' ->%list_elem_of_singleton.
Qed.

Lemma accepts_Lit c x : accepts (Lit x) c = true → c = x.
Proof. apply bool_decide_eq_true. Qed.

Lemma accepts_NotLit_all x run :
  (∀ c, c ∈ chars run → accepts (NotLit x) c = true) → x ∉ chars run.
Proof.
  intros Hall Hx. specialize (Hall x Hx). apply bool_decide_eq_true in Hall. done.
Qed.

(** Each of the five patterns matches only texts of its syntax. *)
Lemma match_at_shape r s m rest :
  r ∈ patterns → match_at r s = Some (m, rest) → placeholder_shape m.
Proof.
  unfold patterns. intros Hr Hm.
  repeat (apply elem_of_cons in Hr as [->|Hr]); [..|by apply elem_of_nil in Hr].
  - apply match_at_One_inv in Hm as (c1 & s1 & m1 & -> & ->%accepts_Lit & -> & Hm).
    apply match_at_Plus_inv in Hm as (run & s2 & m2 & Hne & Hall & -> & -> & Hm).
    apply match_at_One_inv in Hm as (c3 & s3 & m3 & -> & ->%accepts_Lit & -> & Hm).
    apply match_at_nil_inv in Hm as [-> ->].
    apply (shape_brace run). split; [done|by apply accepts_NotLit_all].
  - apply match_at_One_inv in Hm as (c1 & s1 & m1 & -> & ->%accepts_Lit & -> & Hm).
    apply match_at_One_inv in Hm as (c2 & s2 & m2 & -> & ->%accepts_Lit & -> & Hm).
    apply match_at_Plus_inv in Hm as (run & s3 & m3 & Hne & Hall & -> & -> & Hm).
    apply match_at_One_inv in Hm as (c4 & s4 & m4 & -> & ->%accepts_Lit & -> & Hm).
    apply match_at_One_inv in Hm as (c5 & s5 & m5 & -> & ->%accepts_Lit & -> & Hm).
    apply match_at_nil_inv in Hm as [-> ->].
    apply (shape_double_brace run). split; [done|by apply accepts_NotLit_all].
  - apply match_at_One_inv in Hm as (c1 & s1 & m1 & -> & ->%accepts_Lit & -> & Hm).
    apply match_at_One_inv in Hm as (c2 & s2 & m2 & -> & Hc & -> & Hm).
    apply match_at_nil_inv in Hm as [-> ->].
    apply (shape_printf c2). by apply bool_decide_eq_true in Hc.
  - apply match_at_One_inv in Hm as (c1 & s1 & m1 & -> & ->%accepts_Lit & -> & Hm).
    apply match_at_One_inv in Hm as (c2 & s2 & m2 & -> & ->%accepts_Lit & -> & Hm).
    apply match_at_Plus_inv in Hm as (run & s3 & m3 & Hne & Hall & -> & -> & Hm).
    apply match_at_One_inv in Hm as (c4 & s4 & m4 & -> & ->%accepts_Lit & -> & Hm).
    apply match_at_nil_inv in Hm as [-> ->].
    apply (shape_dollar_brace run). split; [done|by apply accepts_NotLit_all].
  - apply match_at_One_inv in Hm as (c1 & s1 & m1 & -> & ->%accepts_Lit & -> & Hm).
    apply match_at_Plus_inv in Hm as (run & s2 & m2 & Hne & Hall & -> & -> & Hm).
    apply match_at_nil_inv in Hm as [-> ->].
    replace (run +:+ "") with run by (clear; induction run as [|c run IH];
      [done|by rewrite string_app_cons, <- IH]).
    apply (shape_dollar_digits run); [done|].
    intros c Hc. by apply (accepts_spec Digit), Hall.
Qed.

(** *** Enough fuel: the scan ends within [length text + 1] rounds *)

Lemma matchAll_loop_fuel r s fuel fuel' :
  String.length s < fuel → String.length s < fuel' →
  matchAll_loop fuel r s = matchAll_loop fuel' r s.
Proof.
  revert s fuel'. induction fuel as [|fuel IH]; intros s fuel' Hf Hf'; [lia|].
  destruct fuel' as [|fuel']; [lia|]. simpl.
  destruct (match_at r s) as [[m rest]|] eqn:E.
  - apply match_at_split in E as Hs.
    destruct (decide (m = "")) as [->|Hm].
    + f_equal. destruct s as [|c s']; [done|]. simpl in *. apply IH; lia.
    + f_equal. apply IH.
      * rewrite Hs, string_app_length in Hf. destruct m; [done|]. simpl in Hf. lia.
      * rewrite Hs, string_app_length in Hf'. destruct m; [done|]. simpl in Hf'. lia.
  - destruct s as [|c s']; [done|]. simpl in *. apply IH; lia.
Qed.

(** *** Every reported match is a piece of the text that the pattern matches *)

Lemma matchAll_loop_substring fuel r s x :
  x ∈ matchAll_loop fuel r s →
  ∃ pre post, s = pre +:+ x +:+ post ∧ match_at r (x +:+ post) = Some (x, post).
Proof.
  revert s. induction fuel as [|fuel IH]; intros s; simpl; [by intros ?%elem_of_nil|].
  assert (∀ c s', x ∈ matchAll_loop fuel r s' →
            ∃ pre post, String c s' = pre +:+ x +:+ post
                        ∧ match_at r (x +:+ post) = Some (x, post)) as Hskip.
  { intros c s' (pre & post & -> & Hm)%IH. by exists (String c pre), post. }
  destruct (match_at r s) as [[m rest]|] eqn:E.
  - apply match_at_split in E as Hs.
    assert (x = m → ∃ pre post, s = pre +:+ x +:+ post
                               ∧ match_at r (x +:+ post) = Some (x, post)) as Hhere.
    { intros ->. exists "", rest. simpl. split; [done|]. by rewrite <- Hs. }
    destruct (decide (m = "")) as [Hm|Hm].
    + intros [?|Hin]%elem_of_cons; [by apply Hhere|].
      destruct s as [|c s']; [by apply elem_of_nil in Hin|]. by apply Hskip.
    + intros [?|Hin]%elem_of_cons; [by apply Hhere|].
      apply IH in Hin as (pre & post & -> & Hx).
      exists (m +:+ pre), post. split; [|done].
      by rewrite Hs, string_app_assoc.
  - destruct s as [|c s']; [by intros ?%elem_of_nil|]. apply Hskip.
Qed.

(** *** [Set]: no duplicates, the members are the values added *)

Lemma set_add_NoDup st x : NoDup st → NoDup (set_add st x).
Proof.
  intros Hnd. unfold set_add. case_decide; [done|].
  apply NoDup_app. split_and!; [done| |apply NoDup_singleton].
  by intros y Hy ->%list_elem_of_singleton.
Qed.

Lemma elem_of_set_add st x y : y ∈ set_add st x ↔ y ∈ st ∨ y = x.
Proof.
  unfold set_add. case_decide as Hx.
  - split; [by left|]. by intros [?| ->].
  - by rewrite elem_of_app, list_elem_of_singleton.
Qed.

Lemma foldl_set_add_NoDup st l : NoDup st → NoDup (foldl set_add st l).
Proof.
  revert st. induction l as [|x l IH]; intros st Hnd; simpl; [done|].
  by apply IH, set_add_NoDup.
Qed.

Lemma elem_of_foldl_set_add st l y : y ∈ foldl set_add st l ↔ y ∈ st ∨ y ∈ l.
Proof.
  revert st. induction l as [|x l IH]; intros st; simpl.
  - split; [by left|]. by intros [?|?%elem_of_nil].
  - rewrite IH, elem_of_set_add, elem_of_cons. tauto.
Qed.

Lemma set_of_array_NoDup l : NoDup (set_of_array l).
Proof. apply foldl_set_add_NoDup, NoDup_nil_2. Qed.

Lemma elem_of_set_of_array l y : y ∈ set_of_array l ↔ y ∈ l.
Proof.
  unfold set_of_array. rewrite elem_of_foldl_set_add.
  split; [by intros [?%elem_of_nil|?]|by right].
Qed.

Lemma set_has_true st x : set_has st x = true ↔ x ∈ st.
Proof. unfold set_has. apply bool_decide_eq_true. Qed.

(** The set built by the two nested loops of [extractPlaceholders]. *)
Lemma collect_NoDup (text : string) (rs : list regex) (st : JSSet) :
  NoDup st →
  NoDup (foldl (λ placeholders pattern,
                  foldl set_add placeholders (matchAll pattern text)) st rs).
Proof.
  revert st. induction rs as [|r rs IH]; intros st Hnd; simpl; [done|].
  by apply IH, foldl_set_add_NoDup.
Qed.

Lemma elem_of_collect (text : string) (rs : list regex) (st : JSSet) y :
  y ∈ foldl (λ placeholders pattern,
               foldl set_add placeholders (matchAll pattern text)) st rs
  ↔ y ∈ st ∨ ∃ r, r ∈ rs ∧ y ∈ matchAll r text.
Proof.
  revert st. induction rs as [|r rs IH]; intros st; simpl.
  - split; [by left|]. by intros [?|(r & ?%elem_of_nil & _)].
  - rewrite IH, elem_of_foldl_set_add. split.
    + intros [[?|?]|(r' & ? & ?)]; [by left|right; exists r|right; exists r'];
        (split; [|done]); [apply list_elem_of_here|by apply list_elem_of_further].
    + intros [?|(r' & [->|?]%elem_of_cons & ?)]; [by do 2 left|left; by right|].
      right. by exists r'.
Qed.

(** C7.  [extractPlaceholders] returns a list without duplicates, sorted in
    the lexicographic order of code units.  Its members are exactly the
    matches that the five patterns have on the text (the union over the
    patterns), where the matches of a pattern are what the pattern means on
    the text, not what a matcher computes: the leftmost match, its greedy
    run as long as the rest of the pattern allows, then the matches of the
    text after it; every pattern has one such list of matches.  Every member
    is the matched piece of the text itself, the text being
    [pre ++ x ++ post], with its braces, percent or dollar sign, and has one
    of the five shapes, where the body between braces is any text without a
    closing brace that is not empty. *)
Theorem extractPlaceholders_sorted_union (text : string) :
  let result := extractPlaceholders text in
  NoDup result
  ∧ StronglySorted String.le result
  ∧ StronglySorted (strict String.le) result
  ∧ (∀ r, r ∈ patterns → ∃ ms, scan r text ms ∧ ∀ ms', scan r text ms' → ms' = ms)
  ∧ (∀ x, x ∈ result ↔ ∃ r ms, r ∈ patterns ∧ scan r text ms ∧ x ∈ ms)
  ∧ (∀ x, x ∈ result ↔ ∃ r, r ∈ patterns ∧ x ∈ matchAll r text)
  ∧ (∀ x, x ∈ result →
       ∃ r pre post, r ∈ patterns ∧ text = pre +:+ x +:+ post ∧
                     match_here r (x +:+ post) x post ∧
                     match_at r (x +:+ post) = Some (x, post) ∧
                     placeholder_shape x).
Proof.
  intros result. unfold result, extractPlaceholders, sort.
  set (collected := foldl (λ placeholders pattern,
                            foldl set_add placeholders (matchAll pattern text)) [] patterns).
  assert (NoDup collected) as Hnd by apply collect_NoDup, NoDup_nil_2.
  assert (∀ x, x ∈ collected ↔ ∃ r, r ∈ patterns ∧ x ∈ matchAll r text) as Hmem.
  { intros x. unfold collected. rewrite elem_of_collect.
    split; [by intros [?%elem_of_nil|?]|by right]. }
  pose proof (merge_sort_Permutation String.le collected) as Hperm.
  assert (NoDup (merge_sort String.le collected)) as Hnd' by by rewrite Hperm.
  assert (StronglySorted String.le (merge_sort String.le collected)) as Hss
    by apply (StronglySorted_merge_sort _).
  split_and!; [done|done| | | | |].
  - revert Hnd' Hss. generalize (merge_sort String.le collected) as l.
    induction l as [|a l IH]; intros Hnd' Hss; [constructor|].
    apply NoDup_cons in Hnd' as [Ha Hnd']. apply StronglySorted_inv in Hss as [Hss Hall].
    constructor; [by apply IH|].
    apply Forall_forall. intros y Hy. rewrite Forall_forall in Hall.
    apply strict_spec_alt. split; [by apply Hall|]. by intros ->.
  - intros r _. exists (matchAll r text). split; [apply matchAll_scan|].
    intros ms'. apply scan_matchAll.
  - intros x. rewrite Hperm, Hmem. split.
    + intros (r & Hr & Hx). exists r, (matchAll r text).
      split_and!; [done|apply matchAll_scan|done].
    + intros (r & ms & Hr & ->%scan_matchAll & Hx). by exists r.
  - intros x. by rewrite Hperm.
  - intros x Hx. rewrite Hperm in Hx. apply Hmem in Hx as (r & Hr & Hx).
    apply matchAll_loop_substring in Hx as Hsub. destruct Hsub as (pre & post & Ht & Hm).
    exists r, pre, post. split_and!; [done|done|by apply match_at_Some_iff|done|].
    by eapply match_at_shape.
Qed.

(** C7, nested braces.  On the text [{{x}}] the pattern of [{var}] does not
    find [{x}]: its leftmost match starts at the first brace, and the body,
    any code units but a closing brace, takes the second brace, so the match
    is [{{x}]; the scan goes on after it, at the last brace, and finds
    nothing.  The result is [{{x}] and [{{x}}], without [{x}].  A body is not
    a word only: [{a b}] is a match. *)
Theorem extractPlaceholders_nested_braces :
  extractPlaceholders "{{x}}" = ["{{x}"; "{{x}}"]
  ∧ ("{x}" ∉ extractPlaceholders "{{x}}")
  ∧ scan re_brace "{{x}}" ["{{x}"]
  ∧ scan re_double_brace "{{x}}" ["{{x}}"]
  ∧ extractPlaceholders "{a b}" = ["{a b}"].
Proof.
  assert (extractPlaceholders "{{x}}" = ["{{x}"; "{{x}}"]) as E by by vm_compute.
  split_and!.
  - done.
  - rewrite E. by intros [?|[?|?%elem_of_nil]%elem_of_cons]%elem_of_cons.
  - apply scan_matchAll. by vm_compute.
  - apply scan_matchAll. by vm_compute.
  - by vm_compute.
Qed.

End HashFacts.

(** ** Validation pipeline *)

Section ValidationFacts.
Import Types Hash Validation ValidationSpec.

(** [is_ws] holds of the white-space code units. *)
Lemma is_ws_spec c : is_ws c = true ↔ white_space c.
Proof.
  unfold is_ws, white_space. rewrite bool_decide_eq_true. split.
  - intros Hc. repeat (apply elem_of_cons in Hc as [->|Hc]; [lia|]).
    by apply elem_of_nil in Hc.
  - intros Hc.
    assert (c = 9 ∨ c = 10 ∨ c = 11 ∨ c = 12 ∨ c = 13 ∨ c = 32 ∨ c = 160 ∨ c = 5760
            ∨ c = 8192 ∨ c = 8193 ∨ c = 8194 ∨ c = 8195 ∨ c = 8196 ∨ c = 8197
            ∨ c = 8198 ∨ c = 8199 ∨ c = 8200 ∨ c = 8201 ∨ c = 8202
            ∨ c = 8232 ∨ c = 8233 ∨ c = 8239 ∨ c = 8287 ∨ c = 12288
            ∨ c = 65279)%N as Hcases by lia.
    clear Hc. repeat (destruct Hcases as [->|Hcases]; [set_solver|]).
    subst c. set_solver.
Qed.

Lemma whitespace_only_cons c s :
  whitespace_only (String c s) ↔ is_ws c = true ∧ whitespace_only s.
Proof.
  unfold whitespace_only. rewrite is_ws_spec. simpl. split.
  - intros H. split; [apply H, list_elem_of_here|].
    intros c' Hc'. by apply H, list_elem_of_further.
  - intros [Hc Hs] c' [->|Hc']%elem_of_cons; [done|by apply Hs].
Qed.

Lemma whitespace_only_nil : whitespace_only "".
Proof. by intros c ?%elem_of_nil. Qed.

Lemma trimStart_whitespace_only s : whitespace_only (trimStart s) ↔ whitespace_only s.
Proof.
  induction s as [|c s IH]; [done|]. simpl.
  destruct (is_ws c) eqn:Hc; [|done].
  rewrite IH, whitespace_only_cons. tauto.
Qed.

Lemma trimEnd_empty_iff s : trimEnd s = "" ↔ whitespace_only s.
Proof.
  induction s as [|c s IH]; simpl.
  - split; [intros _; apply whitespace_only_nil|done].
  - rewrite whitespace_only_cons, <- IH.
    destruct (is_ws c); simpl; [|by split; [|intros [? _]]].
    case_bool_decide; [by split|]. by split; [|intros [_ ?]].
Qed.

Lemma trim_empty_iff s : trim s = "" ↔ whitespace_only s.
Proof. unfold trim. by rewrite trimEnd_empty_iff, trimStart_whitespace_only. Qed.

(** The guard of stage 1: [!text || text.trim().length === 0]. *)
Lemma stage1_guard s :
  bool_decide (s = "") || bool_decide (String.length (trim s) = 0) = true
  ↔ whitespace_only s.
Proof.
  rewrite orb_true_iff, !bool_decide_eq_true, <- trim_empty_iff. split.
  - intros [->|Hlen]; [done|]. by destruct (trim s).
  - intros ->. by right.
Qed.

(** Case analysis on a decidable condition of the pipeline, in both its
    [decide] and its [bool_decide] form. *)
Ltac decide_cond P :=
  let H := fresh "Hcond" in
  destruct (decide P) as [H|H];
  [rewrite ?(bool_decide_eq_true_2 P H) | rewrite ?(bool_decide_eq_false_2 P H)].

(** *** The placeholder comparison *)

Lemma count_errors_app ty p es1 es2 :
  count_errors ty p (es1 ++ es2) = count_errors ty p es1 + count_errors ty p es2.
Proof. unfold count_errors. by rewrite filter_app, length_app. Qed.

Lemma count_errors_other ty p (mk : string → ValidationError) (keep : string → bool)
    (l : list string) :
  (∀ x, type (mk x) ≠ ty) →
  count_errors ty p (omap (λ x, if keep x then Some (mk x) else None) l) = 0.
Proof.
  intros Hty. unfold count_errors. induction l as [|x l IH]; [done|]. simpl.
  destruct (keep x); [|done]. rewrite filter_cons, decide_False; [done|].
  intros [? _]. by eapply Hty.
Qed.

Lemma count_errors_one ty p (mk : string → ValidationError) (keep : string → bool)
    (l : list string) :
  NoDup l → (∀ x, type (mk x) = ty) → (∀ x, field (mk x) = Some x) →
  count_errors ty p (omap (λ x, if keep x then Some (mk x) else None) l) =
  if decide (p ∈ l ∧ keep p = true) then 1 else 0.
Proof.
  intros Hnd Hty Hfield. unfold count_errors.
  induction Hnd as [|x l Hx Hnd IH].
  - rewrite decide_False; [done|]. by intros [?%elem_of_nil _].
  - change (omap ?f (x :: l)) with
      (match f x with Some y => y :: omap f l | None => omap f l end).
    cbv beta. destruct (keep x) eqn:Hk.
    + rewrite filter_cons. destruct (decide (x = p)) as [->|Hne].
      * rewrite decide_True by (split; [apply Hty|apply Hfield]).
        simpl. rewrite IH. rewrite decide_False by (by intros [? _]).
        rewrite decide_True; [done|]. split; [apply list_elem_of_here|done].
      * rewrite decide_False.
        2:{ intros [_ Hf]. rewrite Hfield in Hf. congruence. }
        rewrite IH. apply decide_ext. rewrite elem_of_cons.
        split; [intros [? ?]; split; [by right|done]|].
        intros [[?|?] ?]; [congruence|done].
    + rewrite IH. apply decide_ext. rewrite elem_of_cons.
      split; [intros [? ?]; split; [by right|done]|].
      intros [[->|?] ?]; [congruence|done].
Qed.

Lemma elem_of_omap_keep (mk : string → ValidationError) (keep : string → bool)
    (l : list string) e :
  e ∈ omap (λ x, if keep x then Some (mk x) else None) l ↔
  ∃ x, x ∈ l ∧ keep x = true ∧ e = mk x.
Proof.
  rewrite list_elem_of_omap. split.
  - intros (x & Hx & He). exists x. destruct (keep x); by simplify_eq.
  - intros (x & Hx & Hk & ->). exists x. by rewrite Hk.
Qed.

Lemma negb_set_has st x : negb (set_has st x) = true ↔ x ∉ st.
Proof. rewrite negb_true_iff, <- not_true_iff_false. by rewrite set_has_true. Qed.

(** [validatePlaceholders] as its two loops. *)
Lemma validatePlaceholders_unfold sourceUnit result :
  let src := set_of_array (placeholders sourceUnit) in
  let tr := set_of_array (extractPlaceholders (translatedText result)) in
  validatePlaceholders sourceUnit result =
  (omap (λ x, if (λ x, negb (set_has tr x)) x
              then Some (missingPlaceholderError x) else None) src
   ++ omap (λ x, if (λ x, negb (set_has src x)) x
                 then Some (extraPlaceholderError x) else None) tr)%list.
Proof. reflexivity. Qed.

Lemma elem_of_validatePlaceholders sourceUnit result e :
  e ∈ validatePlaceholders sourceUnit result ↔
  ∃ p, (e = missingPlaceholderError p ∧ p ∈ placeholders sourceUnit
          ∧ p ∉ extractPlaceholders (translatedText result))
     ∨ (e = extraPlaceholderError p ∧ p ∈ extractPlaceholders (translatedText result)
          ∧ p ∉ placeholders sourceUnit).
Proof.
  rewrite validatePlaceholders_unfold. cbv zeta.
  rewrite elem_of_app, !elem_of_omap_keep. split.
  - intros [(p & Hp & Hk & ->)|(p & Hp & Hk & ->)]; exists p; [left|right];
      rewrite elem_of_set_of_array in Hp; rewrite negb_set_has in Hk;
      rewrite elem_of_set_of_array in Hk; done.
  - intros (p & [(-> & Hp & Hn)|(-> & Hp & Hn)]); [left|right]; exists p;
      rewrite negb_set_has, !elem_of_set_of_array; done.
Qed.

Lemma validatePlaceholders_nil_iff sourceUnit result :
  validatePlaceholders sourceUnit result = [] ↔
  ∀ p, p ∈ placeholders sourceUnit ↔ p ∈ extractPlaceholders (translatedText result).
Proof.
  split.
  - intros Hnil p.
    destruct (decide (p ∈ placeholders sourceUnit)) as [Hs|Hs];
      destruct (decide (p ∈ extractPlaceholders (translatedText result))) as [Ht|Ht];
      try tauto; exfalso.
    + assert (missingPlaceholderError p ∈ validatePlaceholders sourceUnit result) as Hin
        by (apply elem_of_validatePlaceholders; exists p; by left).
      rewrite Hnil in Hin. by apply elem_of_nil in Hin.
    + assert (extraPlaceholderError p ∈ validatePlaceholders sourceUnit result) as Hin
        by (apply elem_of_validatePlaceholders; exists p; by right).
      rewrite Hnil in Hin. by apply elem_of_nil in Hin.
  - intros Heq. apply elem_of_nil_inv. intros e.
    rewrite elem_of_validatePlaceholders.
    intros (p & [(_ & Hp & Hn)|(_ & Hp & Hn)]); apply Hn; by apply Heq.
Qed.

Lemma count_errors_validatePlaceholders sourceUnit result p :
  count_errors "MISSING_PLACEHOLDER" p (validatePlaceholders sourceUnit result) =
    (if decide (p ∈ placeholders sourceUnit
                ∧ p ∉ extractPlaceholders (translatedText result)) then 1 else 0)
  ∧ count_errors "EXTRA_PLACEHOLDER" p (validatePlaceholders sourceUnit result) =
    (if decide (p ∈ extractPlaceholders (translatedText result)
                ∧ p ∉ placeholders sourceUnit) then 1 else 0).
Proof.
  rewrite validatePlaceholders_unfold. cbv zeta. rewrite !count_errors_app.
  split.
  - rewrite count_errors_one by (done || apply set_of_array_NoDup).
    rewrite count_errors_other by done.
    rewrite Nat.add_0_r. apply decide_ext.
    by rewrite negb_set_has, !elem_of_set_of_array.
  - rewrite count_errors_other by done.
    rewrite count_errors_one by (done || apply set_of_array_NoDup).
    simpl. apply decide_ext.
    by rewrite negb_set_has, !elem_of_set_of_array.
Qed.

Section WithConfig.

Variable toFixed1 : float → string.
Variable numberToString : float → string.
Variable toLowerCase : string → string.
Variable config : Config.

Local Abbreviation validate := (Validation.validate toFixed1 numberToString toLowerCase config).
Local Abbreviation validateSemantics :=
  (Validation.validateSemantics toFixed1 numberToString config).
Local Abbreviation placeholderErrorsFound := (ValidationSpec.placeholderErrorsFound config).
Local Abbreviation semanticWarningsFound :=
  (ValidationSpec.semanticWarningsFound toFixed1 numberToString config).
Local Abbreviation leakageFound := (ValidationSpec.leakageFound toLowerCase config).
Local Abbreviation detectSourceLeakage := (Validation.detectSourceLeakage toLowerCase).

Lemma validate_empty result sourceUnit :
  whitespace_only (translatedText result) →
  validate result sourceUnit =
  {| isValid := false; errors := [emptyTranslationError]; warnings := [];
     confidence := 0%float |}.
Proof.
  intros Hws%stage1_guard. unfold Validation.validate. by rewrite Hws.
Qed.

Lemma validate_nonempty result sourceUnit :
  ¬ whitespace_only (translatedText result) →
  let errs :=
    ((if decide (preservePlaceholders config ≠ Some false)
      then validatePlaceholders sourceUnit result else [])
     ++ (if leakageFound result sourceUnit then [sourceLeakageError] else []))%list in
  validate result sourceUnit =
  {| isValid := bool_decide (length errs = 0);
     errors := errs;
     warnings := stage_brands config sourceUnit result (validateSemantics sourceUnit result);
     confidence := confidence_product (placeholderErrorsFound result sourceUnit)
                                      (semanticWarningsFound result sourceUnit)
                                      (leakageFound result sourceUnit) |}.
Proof.
  intros Hws. rewrite <- stage1_guard in Hws. apply not_true_is_false in Hws.
  unfold Validation.validate. rewrite Hws.
  unfold stage_placeholders, stage_semantics, stage_leakage,
    placeholderErrorsFound, semanticWarningsFound, leakageFound, confidence_product,
    multiplier.
  decide_cond (preservePlaceholders config ≠ Some false);
    decide_cond (0 < length (validatePlaceholders sourceUnit result));
    decide_cond (0 < length (validateSemantics sourceUnit result));
    decide_cond (preventSourceLeakage config ≠ Some false);
    destruct (detectSourceLeakage sourceUnit result);
    cbn [andb app]; rewrite ?app_nil_r; reflexivity.
Qed.

(** C5.  On a translated text that is empty or only white space [validate]
    returns [isValid = false], confidence exactly 0, the single error
    [EMPTY_TRANSLATION] and no warning; no later stage runs, so the result
    is the same for every configuration and every source unit. *)
Theorem validate_empty_translation (result : TranslationResult) (sourceUnit : SourceUnit) :
  whitespace_only (translatedText result) →
  let R := validate result sourceUnit in
  isValid R = false
  ∧ confidence R = 0%float
  ∧ errors R = [ {| type := "EMPTY_TRANSLATION"; message := "Translation is empty";
                    field := None |} ]
  ∧ warnings R = []
  ∧ ∀ toFixed1' numberToString' toLowerCase' config' sourceUnit',
      Validation.validate toFixed1' numberToString' toLowerCase' config' result sourceUnit' = R.
Proof.
  intros Hws R. unfold R. rewrite validate_empty by done.
  split_and!; try reflexivity.
  intros toFixed1' numberToString' toLowerCase' config' sourceUnit'.
  apply stage1_guard in Hws. unfold Validation.validate. by rewrite Hws.
Qed.

(** C8.  [isValid] is true exactly when the error list is empty; the
    confidence lies in [0,1]: it is 0 for an empty translation and otherwise
    the product, from 1.0, of 0.5 if there is a placeholder error, 0.8 if
    there is a semantic warning and 0.3 if source leakage is detected, each
    applied at most once. *)
Theorem validate_confidence (result : TranslationResult) (sourceUnit : SourceUnit) :
  let R := validate result sourceUnit in
  (isValid R = true ↔ errors R = [])
  ∧ (PrimFloat.leb 0 (confidence R) = true ∧ PrimFloat.leb (confidence R) 1 = true)
  ∧ (whitespace_only (translatedText result) → confidence R = 0%float)
  ∧ (¬ whitespace_only (translatedText result) →
       confidence R =
       confidence_product (placeholderErrorsFound result sourceUnit)
                          (semanticWarningsFound result sourceUnit)
                          (leakageFound result sourceUnit)).
Proof.
  intros R. unfold R.
  destruct (bool_decide (translatedText result = "")
            || bool_decide (String.length (trim (translatedText result)) = 0)) eqn:Hguard.
  - apply stage1_guard in Hguard. rewrite validate_empty by done. simpl.
    split_and!; [by split|done|done|done|done].
  - apply not_true_iff_false in Hguard. rewrite stage1_guard in Hguard.
    rewrite validate_nonempty by done. simpl.
    split_and!; [| | |done|done].
    + rewrite bool_decide_eq_true. apply length_zero_iff_nil.
    + by destruct (placeholderErrorsFound _ _), (semanticWarningsFound _ _),
        (leakageFound _ _).
    + by destruct (placeholderErrorsFound _ _), (semanticWarningsFound _ _),
        (leakageFound _ _).
Qed.

(** C4.  With placeholder preservation enabled and a non-empty translation
    (one that passes stage 1: not empty, not only white space), the error
    list is the placeholder errors followed by the leakage error
    if any; each placeholder recorded on the source unit and absent from the
    set extracted from the translation has exactly one [MISSING_PLACEHOLDER]
    error, each extracted placeholder absent from the source unit's has
    exactly one [EXTRA_PLACEHOLDER] error, and there are no other placeholder
    errors: none at all exactly when the two sets are equal.  A placeholder
    error makes the result invalid and multiplies the confidence by 0.5,
    once. *)
Theorem validate_placeholders_exact (result : TranslationResult) (sourceUnit : SourceUnit) :
  preservePlaceholders config ≠ Some false →
  ¬ whitespace_only (translatedText result) →
  let R := validate result sourceUnit in
  let src := placeholders sourceUnit in
  let tr := extractPlaceholders (translatedText result) in
  let phErrors := validatePlaceholders sourceUnit result in
  errors R = (phErrors ++ if leakageFound result sourceUnit
                          then [sourceLeakageError] else [])%list
  ∧ (∀ p, p ∈ src → p ∉ tr → count_errors "MISSING_PLACEHOLDER" p (errors R) = 1)
  ∧ (∀ p, p ∈ tr → p ∉ src → count_errors "EXTRA_PLACEHOLDER" p (errors R) = 1)
  ∧ (∀ e, e ∈ phErrors →
       ∃ p, (e = missingPlaceholderError p ∧ p ∈ src ∧ p ∉ tr)
          ∨ (e = extraPlaceholderError p ∧ p ∈ tr ∧ p ∉ src))
  ∧ (phErrors = [] ↔ ∀ p, p ∈ src ↔ p ∈ tr)
  ∧ (phErrors ≠ [] → isValid R = false)
  ∧ confidence R =
      confidence_product (bool_decide (phErrors ≠ []))
                         (semanticWarningsFound result sourceUnit)
                         (leakageFound result sourceUnit).
Proof.
  intros Hpreserve Hws R src tr phErrors. unfold R.
  rewrite validate_nonempty by done. simpl.
  rewrite decide_True by done. fold phErrors.
  assert (∀ ty p, ty ≠ "SOURCE_LEAKAGE" →
            count_errors ty p (if leakageFound result sourceUnit
                               then [sourceLeakageError] else []) = 0) as Hleak.
  { intros ty p Hty. destruct (leakageFound _ _); [|done].
    unfold count_errors. rewrite filter_cons, decide_False; [done|].
    intros [Ht _]. by apply Hty. }
  split_and!.
  - done.
  - intros p Hs Ht. rewrite count_errors_app, Hleak by done.
    destruct (count_errors_validatePlaceholders sourceUnit result p) as [Hc _].
    fold phErrors in Hc. rewrite Hc. by rewrite decide_True.
  - intros p Ht Hs. rewrite count_errors_app, Hleak by done.
    destruct (count_errors_validatePlaceholders sourceUnit result p) as [_ Hc].
    fold phErrors in Hc. rewrite Hc. by rewrite decide_True.
  - intros e. apply elem_of_validatePlaceholders.
  - apply validatePlaceholders_nil_iff.
  - intros Hne. apply bool_decide_eq_false. rewrite length_app.
    destruct phErrors; [done|]. simpl. lia.
  - f_equal. unfold placeholderErrorsFound.
    rewrite bool_decide_eq_true_2 by done. simpl. apply bool_decide_ext.
    fold phErrors. destruct phErrors; simpl; [|split; [done|lia]].
    split; [lia|done].
Qed.

End WithConfig.
End ValidationFacts.

(** ** Importing existing translations *)

Section ImportFacts.
Import Ledger LedgerImport ImportSpec.

Local Arguments import_step : simpl never.

Lemma importExistingTranslation_clean L now k l sh th run :
  getSyncStatus (importExistingTranslation L now k l sh th run) k l =
  Some {| key_path := k; lang_code := l; target_hash := th; status := CLEAN;
          model_fingerprint := None; prompt_version := None; updated_at := now |}.
Proof. unfold importExistingTranslation. by rewrite getSyncStatus_update_eq. Qed.

Lemma importExistingTranslation_other L now k l sh th run k' l' :
  (k, l) ≠ (k', l') →
  getSyncStatus (importExistingTranslation L now k l sh th run) k' l' = getSyncStatus L k' l'.
Proof.
  intros Hne. unfold importExistingTranslation.
  by rewrite getSyncStatus_update_ne, getSyncStatus_updateSourceHash.
Qed.

Lemma importExistingTranslation_source_hash L now k l sh th run :
  getSourceHash (importExistingTranslation L now k l sh th run) k = str_or_null sh.
Proof.
  unfold importExistingTranslation.
  by rewrite getSourceHash_updateSyncStatus, getSourceHash_update_eq.
Qed.

Lemma import_step_skip now run L stats i r :
  is_clean L (keyPath r) (langCode r) →
  import_step now run (L, stats, i) r =
  (L, {| totalRecords := totalRecords stats; imported := imported stats;
         skipped := S (skipped stats); errors := errors stats |}, S i).
Proof.
  intros (s & Hs & Hc). unfold import_step. rewrite Hs.
  by rewrite decide_True.
Qed.

Lemma import_step_import now run L stats i r :
  ¬ is_clean L (keyPath r) (langCode r) →
  import_step now run (L, stats, i) r =
  (importExistingTranslation L (now i) (keyPath r) (langCode r)
     (sourceHash r) (targetHash r) run,
   {| totalRecords := totalRecords stats; imported := S (imported stats);
      skipped := skipped stats; errors := errors stats |}, S i).
Proof.
  intros Hn. unfold import_step.
  destruct (getSyncStatus L (keyPath r) (langCode r)) as [s|] eqn:Hs; [|done].
  rewrite decide_False; [done|]. intros Hc. apply Hn. by exists s.
Qed.

Lemma is_clean_dec L k l : Decision (is_clean L k l).
Proof.
  unfold is_clean. destruct (getSyncStatus L k l) as [s|].
  - destruct (decide (status s = CLEAN)) as [Hc|Hc].
    + left. by exists s.
    + right. by intros (s' & [= <-] & ?).
  - right. by intros (s' & ? & _).
Qed.

(** A step leaves clean pairs clean and makes its own pair clean. *)
Lemma import_step_clean now run acc r :
  is_clean (step_ledger (import_step now run acc r)) (keyPath r) (langCode r)
  ∧ ∀ k l, is_clean (step_ledger acc) k l →
           is_clean (step_ledger (import_step now run acc r)) k l.
Proof.
  destruct acc as [[L stats] i].
  change (step_ledger (L, stats, i)) with L.
  destruct (is_clean_dec L (keyPath r) (langCode r)) as [Hc|Hc].
  - rewrite import_step_skip by done. by split.
  - rewrite import_step_import by done. unfold step_ledger. simpl. split.
    + eexists. split; [apply importExistingTranslation_clean|done].
    + intros k l (s & Hs & Hst).
      destruct (decide ((keyPath r, langCode r) = (k, l))) as [[= <- <-]|Hne].
      * eexists. split; [apply importExistingTranslation_clean|done].
      * exists s. split; [|done]. by rewrite importExistingTranslation_other.
Qed.

Lemma import_fold_clean now run rs acc :
  let acc' := foldl (import_step now run) acc rs in
  (∀ r, r ∈ rs → is_clean (step_ledger acc') (keyPath r) (langCode r))
  ∧ ∀ k l, is_clean (step_ledger acc) k l → is_clean (step_ledger acc') k l.
Proof.
  revert acc. induction rs as [|r rs IH]; intros acc; simpl.
  - split; [by intros r ?%elem_of_nil|done].
  - destruct (IH (import_step now run acc r)) as [IH1 IH2].
    destruct (import_step_clean now run acc r) as [Hr Hkeep].
    split.
    + intros r' [->|Hin]%elem_of_cons; [by apply IH2|by apply IH1].
    + intros k l Hc. by apply IH2, Hkeep.
Qed.

(** Over clean pairs the loop only counts. *)
Lemma import_fold_skip now run rs L stats i :
  (∀ r, r ∈ rs → is_clean L (keyPath r) (langCode r)) →
  foldl (import_step now run) (L, stats, i) rs =
  (L, {| totalRecords := totalRecords stats; imported := imported stats;
         skipped := skipped stats + length rs; errors := errors stats |}, i + length rs).
Proof.
  revert stats i. induction rs as [|r rs IH]; intros stats i Hc; simpl.
  - rewrite !Nat.add_0_r. by destruct stats.
  - rewrite import_step_skip by apply Hc, list_elem_of_here.
    rewrite IH by (intros r' Hr'; by apply Hc, list_elem_of_further).
    simpl. do 2 f_equal; [f_equal|]; lia.
Qed.

Lemma import_fold_counts now run rs acc :
  let stats := step_stats acc in
  let stats' := step_stats (foldl (import_step now run) acc rs) in
  imported stats' + skipped stats' = imported stats + skipped stats + length rs
  ∧ errors stats' = errors stats ∧ totalRecords stats' = totalRecords stats.
Proof.
  revert acc. induction rs as [|r rs IH]; intros acc; simpl.
  - split_and!; [lia|done..].
  - destruct (IH (import_step now run acc r)) as (IHc & -> & ->).
    rewrite IHc. destruct acc as [[L stats] i]. unfold step_stats.
    destruct (is_clean_dec L (keyPath r) (langCode r)) as [Hc|Hc].
    + rewrite import_step_skip by done. simpl. split_and!; [lia|done..].
    + rewrite import_step_import by done. simpl. split_and!; [lia|done..].
Qed.

Lemma bulkImportTranslations_fold L now rs run :
  bulkImportTranslations L now rs run =
  (step_ledger (foldl (import_step now run)
                  (L, {| totalRecords := length rs; imported := 0;
                         skipped := 0; errors := 0 |}, 0) rs),
   step_stats (foldl (import_step now run)
                 (L, {| totalRecords := length rs; imported := 0;
                        skipped := 0; errors := 0 |}, 0) rs)).
Proof.
  unfold bulkImportTranslations, transaction, step_ledger, step_stats.
  by destruct (foldl _ _ rs) as [[L' stats'] i'].
Qed.

(** C6.  [bulkImportTranslations] runs as one transaction over its records,
    skips a record whose pair is already [CLEAN], imports the others as
    [CLEAN], and counts imported, skipped and errored records.  Importing the
    same records a second time reports every one of them as skipped, none as
    imported or errored, and leaves the ledger as the first call left it. *)
Theorem bulkImportTranslations_idempotent (L : Ledger.t) (now now' : nat → Timestamp)
    (records : list ImportRecord) (runId runId' : option string) :
  let first := bulkImportTranslations L now records runId in
  let second := bulkImportTranslations first.1 now' records runId' in
  (imported first.2 + skipped first.2 + errors first.2 = length records
   ∧ totalRecords first.2 = length records)
  ∧ (∀ r, r ∈ records →
       ∃ s, getSyncStatus first.1 (keyPath r) (langCode r) = Some s ∧ status s = CLEAN)
  ∧ (∀ r, is_clean L (keyPath r) (langCode r) →
       bulkImportTranslations L now [r] runId =
       (L, {| totalRecords := 1; imported := 0; skipped := 1; errors := 0 |}))
  ∧ (∀ r, ¬ is_clean L (keyPath r) (langCode r) →
       bulkImportTranslations L now [r] runId =
       (importExistingTranslation L (now 0) (keyPath r) (langCode r)
          (sourceHash r) (targetHash r) runId,
        {| totalRecords := 1; imported := 1; skipped := 0; errors := 0 |}))
  ∧ second.1 = first.1
  ∧ second.2 = {| totalRecords := length records; imported := 0;
                  skipped := length records; errors := 0 |}.
Proof.
  intros first second. unfold second, first.
  rewrite !bulkImportTranslations_fold. simpl.
  set (init := (L, {| totalRecords := length records; imported := 0;
                      skipped := 0; errors := 0 |}, 0)).
  destruct (import_fold_counts now runId records init) as (Hcount & Herr & Htot).
  destruct (import_fold_clean now runId records init) as [Hclean _].
  simpl in Hcount, Herr, Htot.
  split_and!.
  - rewrite Herr, Hcount. lia.
  - done.
  - apply Hclean.
  - intros r Hc. rewrite bulkImportTranslations_fold. simpl.
    by rewrite import_step_skip.
  - intros r Hc. rewrite bulkImportTranslations_fold. simpl.
    by rewrite import_step_import.
  - by rewrite import_fold_skip.
  - by rewrite import_fold_skip.
Qed.

End ImportFacts.

(** ** The scenarios of the property tests *)

Section ScenarioFacts.
Import Ledger Types Planner Hash Validation Scenario.

Local Abbreviation createPlan := (Planner.createPlan idHash clock).
Local Abbreviation validate := (Validation.validate (λ _, "?") (λ _, "?") asciiLower).

(** New project: empty ledger, three units, one language: one batch of three. *)
Example scenario_new_project :
  plan_keys (createPlan Ledger.empty [greeting; farewell; welcome] [french])
    = [("fr", ["greeting"; "farewell"; "welcome"])]
  ∧ totalUnits (createPlan Ledger.empty [greeting; farewell; welcome] [french]) = 3.
Proof. split; vm_compute; reflexivity. Qed.

(** After the sync nothing is planned. *)
Example scenario_second_run :
  createPlan afterFirstSync [greeting; farewell; welcome] [french]
  = {| batches := []; totalUnits := 0; estimatedCost := 0%float |}.
Proof. vm_compute. reflexivity. Qed.

(** Single edit: only the edited unit is planned. *)
Example scenario_single_edit :
  plan_keys (createPlan afterFirstSync [greeting'; farewell; welcome] [french])
    = [("fr", ["greeting"])].
Proof. vm_compute. reflexivity. Qed.

(** A language without rows gets every unit. *)
Example scenario_new_language :
  plan_keys (createPlan afterFirstSync [greeting; farewell] [french; german])
    = [("de", ["greeting"; "farewell"])].
Proof. vm_compute. reflexivity. Qed.

(** Manual edit detection: a [CLEAN] pair whose stored target hash is not
    the current one. *)
Example scenario_manual_edit :
  let L := updateSyncStatus Ledger.empty "t1" "greeting" "fr" "H1" CLEAN None None in
  isManualOverride L "greeting" "fr" "H2" = true
  ∧ isManualOverride L "greeting" "fr" "H1" = false
  ∧ isManualOverride Ledger.empty "greeting" "fr" "H1" = false.
Proof. vm_compute. done. Qed.

(** Forty-five units make batches of 20, 20 and 5. *)
Example scenario_batches :
  map (λ b, length (sourceUnits b))
      (createBatches idHash clock (replicate 45 greeting) "fr" defaultBatchSize 0)
  = [20; 20; 5].
Proof. vm_compute. reflexivity. Qed.

Example scenario_batch_record :
  createBatches idHash clock [greeting; farewell] "fr" defaultBatchSize 0
  = [ {| batchId := "batch_fr_1700000000000_0";
         sourceUnits := [greeting; farewell];
         targetLanguage := "fr";
         deduplicationKey := "Hello_Bye" |} ].
Proof. vm_compute. reflexivity. Qed.

(** The five placeholder syntaxes; the single-brace pattern takes the inner
    opening brace of a double-brace placeholder into its match. *)
Example scenario_placeholders :
  extractPlaceholders "Hi {name}, {{count}} new %s for ${user} at $1, {name}!"
  = ["$1"; "${user}"; "%s"; "{name}"; "{user}"; "{{count}"; "{{count}}"].
Proof. vm_compute. reflexivity. Qed.

Example scenario_placeholders_none :
  extractPlaceholders "100% sure, {} $ {open" = [].
Proof. vm_compute. reflexivity. Qed.

(** A translation that lost its placeholder. *)
Example scenario_missing_placeholder :
  validate noConfig (answer "Bienvenue") welcome
  = {| isValid := false;
       errors := [ {| type := "MISSING_PLACEHOLDER";
                      message := "Missing placeholder: {name}";
                      field := Some "{name}" |} ];
       warnings := [];
       confidence := 0.5%float |}.
Proof. vm_compute. reflexivity. Qed.

Example scenario_accepted :
  validate noConfig (answer "Bienvenue {name}") welcome
  = {| isValid := true; errors := []; warnings := []; confidence := 1%float |}.
Proof. vm_compute. reflexivity. Qed.

(** Importing the same record twice. *)
Example scenario_import_twice :
  let first :=
    LedgerImport.bulkImportTranslations Ledger.empty (λ _, "t1") [importRecord] None in
  let second :=
    LedgerImport.bulkImportTranslations first.1 (λ _, "t2") [importRecord] None in
  (LedgerImport.imported first.2, LedgerImport.skipped first.2) = (1, 0)
  ∧ (LedgerImport.imported second.2, LedgerImport.skipped second.2) = (0, 1)
  ∧ second.1 = first.1.
Proof. vm_compute. done. Qed.

End ScenarioFacts.

(** ** The theorems with premises, at the scenarios *)

Section Witnesses.
Import Ledger Types Planner PlannerSpec Hash Validation ValidationSpec Scenario.

Local Abbreviation createPlan := (Planner.createPlan idHash clock).
Local Abbreviation validate := (Validation.validate (λ _, "?") (λ _, "?") asciiLower).

(** After the first sync the edited greeting is planned for French, by the
    decision table: its row is [CLEAN] and its stored source hash differs. *)
Lemma createPlan_includes_iff_witness :
  greeting' ∈ [greeting'; farewell; welcome] ∧ french ∈ [french] ∧
  plan_includes (createPlan afterFirstSync [greeting'; farewell; welcome] [french])
    greeting' "fr" ∧
  ¬ plan_includes (createPlan afterFirstSync [greeting'; farewell; welcome] [french])
    farewell "fr".
Proof.
  assert (greeting' ∈ [greeting'; farewell; welcome]) as Hu by apply list_elem_of_here.
  assert (farewell ∈ [greeting'; farewell; welcome]) as Hu'
    by apply list_elem_of_further, list_elem_of_here.
  assert (french ∈ [french]) as Hl by apply list_elem_of_here.
  split_and!; [done|done|..].
  - destruct (createPlan_includes_iff idHash clock afterFirstSync _ _ _ _ Hu Hl)
      as [Hiff _].
    apply Hiff. right. eexists. split; [reflexivity|]. split; [done|].
    left. vm_compute. discriminate.
  - destruct (createPlan_includes_iff idHash clock afterFirstSync _ _ _ _ Hu' Hl)
      as (_ & _ & Hclean).
    eapply Hclean; reflexivity.
Defined.

(** After the first sync, with unchanged units, the plan is empty. *)
Lemma createPlan_idempotent_witness :
  batches (createPlan afterFirstSync [greeting; farewell; welcome] [french]) = []
  ∧ totalUnits (createPlan afterFirstSync [greeting; farewell; welcome] [french]) = 0.
Proof.
  apply (createPlan_idempotent idHash clock).
  - intros u Hu.
    repeat (apply elem_of_cons in Hu as [->|Hu]; [vm_compute; reflexivity|]).
    by apply elem_of_nil in Hu.
  - intros u lang Hu ->%list_elem_of_singleton.
    repeat (apply elem_of_cons in Hu as [->|Hu];
            [eexists; split; [reflexivity|reflexivity]|]).
    by apply elem_of_nil in Hu.
Defined.

(** A [CLEAN] row without a [source_hashes] row: the unit is planned. *)
Lemma createPlan_clean_without_source_hash_witness :
  getSourceHash cleanWithoutSourceHash "greeting" = None ∧
  plan_includes (createPlan cleanWithoutSourceHash [greeting] [french]) greeting "fr".
Proof.
  apply (createPlan_clean_without_source_hash idHash clock cleanWithoutSourceHash
           [greeting] [french] greeting french
           {| key_path := "greeting"; lang_code := "fr";
              target_hash := "some-target-hash"; status := CLEAN;
              model_fingerprint := None; prompt_version := None;
              updated_at := "t1" |}).
  - apply list_elem_of_here.
  - apply list_elem_of_here.
  - vm_compute. reflexivity.
  - reflexivity.
  - vm_compute. reflexivity.
Defined.

(** "Bienvenue" for "Welcome {name}": one missing-placeholder error. *)
Lemma validate_placeholders_exact_witness :
  count_errors "MISSING_PLACEHOLDER" "{name}"
    (errors (validate noConfig (answer "Bienvenue") welcome)) = 1
  ∧ isValid (validate noConfig (answer "Bienvenue") welcome) = false.
Proof.
  assert (preservePlaceholders noConfig ≠ Some false) as Hcfg by done.
  assert (¬ whitespace_only (translatedText (answer "Bienvenue"))) as Hws.
  { intros Hw%stage1_guard. vm_compute in Hw. discriminate. }
  destruct (validate_placeholders_exact (λ _, "?") (λ _, "?") asciiLower noConfig
              (answer "Bienvenue") welcome Hcfg Hws)
    as (_ & Hmissing & _ & _ & _ & Hinvalid & _).
  split.
  - apply Hmissing; [apply list_elem_of_here|].
    vm_compute. by intros ?%elem_of_nil.
  - apply Hinvalid. vm_compute. discriminate.
Defined.

(** White space of several kinds is an empty translation. *)
Lemma validate_empty_translation_witness :
  isValid (validate noConfig (answer blank) welcome) = false
  ∧ confidence (validate noConfig (answer blank) welcome) = 0%float.
Proof.
  assert (whitespace_only (translatedText (answer blank))) as Hws.
  { apply stage1_guard. vm_compute. reflexivity. }
  destruct (validate_empty_translation (λ _, "?") (λ _, "?") asciiLower noConfig
              (answer blank) welcome Hws)
    as (Hvalid & Hconf & _).
  by split.
Defined.

End Witnesses.

(** * Further properties of the code *)

(** ** Ledger: upserts in sequence, and the queries *)

Section LedgerQueryFacts.
Import Ledger Types Planner PlannerSpec LedgerQueries.

(** X1.  After a sequence of [updateSourceHash] calls the last hash written
    for a key is the one [getSourceHash] returns (absent if it is the empty
    string); a key no call names keeps what it had. *)
Theorem updateSourceHash_last_wins (L : Ledger.t) (now : Timestamp)
    (contextSig runId : option string) (entries : list (string * string)) (k : string) :
  getSourceHash
    (foldl (λ L e, updateSourceHash L now e.1 e.2 contextSig runId) L entries) k
  = match last (filter (λ e, e.1 = k) entries) with
    | Some e => str_or_null e.2
    | None => getSourceHash L k
    end.
Proof.
  induction entries as [|e entries IH] using rev_ind; [done|].
  rewrite foldl_app, filter_app, filter_cons, filter_nil. simpl.
  destruct (decide (e.1 = k)) as [<-|Hne].
  - rewrite last_snoc. apply getSourceHash_update_eq.
  - rewrite app_nil_r, <- IH.
    unfold getSourceHash, updateSourceHash. simpl. by rewrite lookup_insert_ne.
Qed.

(** X2.  After a sequence of [updateSyncStatus] calls the row of a pair
    carries the target hash and the status of the last call for that pair;
    a pair no call names keeps its row. *)
Theorem updateSyncStatus_last_wins (L : Ledger.t) (now : Timestamp)
    (records : list (string * string * string * SyncStatusType)) (k l : string) :
  let L' := foldl (λ L r, updateSyncStatus L now r.1.1.1 r.1.1.2 r.1.2 r.2 None None)
                  L records in
  match last (filter (λ r, r.1.1.1 = k ∧ r.1.1.2 = l) records) with
  | Some r => ∃ s, getSyncStatus L' k l = Some s ∧ target_hash s = r.1.2 ∧ status s = r.2
  | None => getSyncStatus L' k l = getSyncStatus L k l
  end.
Proof.
  induction records as [|r records IH] using rev_ind; [done|].
  rewrite foldl_app, filter_app, filter_cons, filter_nil. simpl.
  destruct (decide (r.1.1.1 = k ∧ r.1.1.2 = l)) as [[<- <-]|Hne].
  - rewrite last_snoc. rewrite getSyncStatus_update_eq. by eexists.
  - rewrite app_nil_r. rewrite getSyncStatus_update_ne; [done|].
    intros [= ? ?]. by apply Hne.
Qed.

Lemma sync_entry_lookup L (e : SyncEntry) :
  sync_status L !! e.1 = Some e.2 →
  getSyncStatus L (entry_key_path e) (entry_lang_code e) =
  Some {| key_path := entry_key_path e; lang_code := entry_lang_code e;
          target_hash := row_target_hash e.2; status := row_status e.2;
          model_fingerprint := row_model_fingerprint e.2;
          prompt_version := row_prompt_version e.2;
          updated_at := row_updated_at e.2 |}.
Proof.
  destruct e as [[k l] row]. unfold getSyncStatus, entry_key_path, entry_lang_code.
  simpl. by intros ->.
Qed.

Lemma select_key_path_NoDup (P : SyncEntry → Prop) `{!∀ e, Decision (P e)}
    (L : Ledger.t) (l : string) :
  (∀ e, P e → entry_lang_code e = l) →
  NoDup (entry_key_path <$> map_to_list (filter P (sync_status L))).
Proof.
  intros Hl. apply NoDup_fmap_2_strong; [|apply NoDup_map_to_list].
  intros [[k1 l1] r1] [[k2 l2] r2] H1 H2 Hk.
  apply elem_of_map_to_list, map_lookup_filter_Some in H1 as [H1 HP1].
  apply elem_of_map_to_list, map_lookup_filter_Some in H2 as [H2 HP2].
  apply Hl in HP1, HP2. unfold entry_key_path, entry_lang_code in *. simpl in *.
  subst. by simplify_eq.
Qed.

Lemma elem_of_getDirtyKeys L langCode k :
  k ∈ getDirtyKeys L langCode ↔
  ∃ s, getSyncStatus L k langCode = Some s ∧ (status s = DIRTY ∨ status s = FAILED).
Proof.
  unfold getDirtyKeys. rewrite list_elem_of_fmap. split.
  - intros ([[k' l] row] & -> & Hin).
    apply elem_of_map_to_list, map_lookup_filter_Some in Hin as [Hrow [Hl Hst]].
    unfold entry_key_path, entry_lang_code, entry_status in *. simpl in *. subst l.
    eexists. split; [by apply (sync_entry_lookup L (k', langCode, row))|done].
  - intros (s & Hs & Hst).
    apply getSyncStatus_Some_status in Hs as (row & Hrow & Hstatus & _).
    exists (k, langCode, row). split; [done|].
    apply elem_of_map_to_list, map_lookup_filter_Some. split; [done|].
    split; [done|]. unfold entry_status. simpl. by rewrite <- Hstatus.
Qed.

(** X3.  [getDirtyKeys] lists, each once, exactly the keys whose row for the
    language has status [DIRTY] or [FAILED]. *)
Theorem getDirtyKeys_spec (L : Ledger.t) (langCode : string) :
  NoDup (getDirtyKeys L langCode)
  ∧ ∀ k, k ∈ getDirtyKeys L langCode ↔
         ∃ s, getSyncStatus L k langCode = Some s ∧ (status s = DIRTY ∨ status s = FAILED).
Proof.
  split.
  - apply (select_key_path_NoDup _ L langCode). by intros e [? _].
  - apply elem_of_getDirtyKeys.
Qed.

(** X4.  What [getDirtyKeys] reports for a language is planned for it: a unit
    whose key is dirty or failed is included by [createPlan], whatever the
    hash function, the clock and the stored source hash. *)
Theorem dirty_keys_are_planned (computeHash : string → string) (dateNow : nat → N)
    (L : Ledger.t) (us : list SourceUnit) (langs : list TargetLanguage)
    (u : SourceUnit) (lang : TargetLanguage) :
  u ∈ us → lang ∈ langs →
  keyPath u ∈ getDirtyKeys L (shortCode lang) →
  plan_includes (createPlan computeHash dateNow L us langs) u (shortCode lang).
Proof.
  intros Hu Hlang (s & Hs & Hst)%elem_of_getDirtyKeys.
  apply plan_includes_iff. split; [by exists lang|].
  apply elem_of_detectChanges. split; [done|].
  apply unitNeedsTranslation_spec. right. exists s.
  split_and!; [done|destruct Hst; congruence|right; tauto].
Qed.

(** *** Counting rows *)

(** The filters of [getLanguageStats] select different rows. *)
Lemma translated_failed_disjoint L l :
  filter (is_translated l) (sync_status L) ##ₘ filter (is_failed_or_dirty l) (sync_status L).
Proof.
  apply map_disjoint_spec. intros i x y [Hx [_ Hc]]%map_lookup_filter_Some
    [Hy [_ Hf]]%map_lookup_filter_Some.
  assert (x = y) as -> by congruence.
  unfold entry_status in *. simpl in *. destruct Hf; congruence.
Qed.

(** X5.  [getLanguageStats]: [failed] is the number of keys [getDirtyKeys]
    reports for the language; [translated] and [failed] count different
    rows, so together they are at most the number of rows of [sync_status];
    and writing [CLEAN] over a dirty or failed row moves one from [failed]
    to [translated] for that language and changes no other language's
    numbers. *)
Theorem getLanguageStats_spec (L : Ledger.t) (langCode : string) :
  failed (getLanguageStats L langCode) = length (getDirtyKeys L langCode)
  ∧ translated (getLanguageStats L langCode) + failed (getLanguageStats L langCode)
    ≤ size (sync_status L)
  ∧ ∀ now k th mf pv,
      k ∈ getDirtyKeys L langCode →
      let L' := updateSyncStatus L now k langCode th CLEAN mf pv in
      translated (getLanguageStats L' langCode)
        = S (translated (getLanguageStats L langCode))
      ∧ S (failed (getLanguageStats L' langCode)) = failed (getLanguageStats L langCode)
      ∧ ∀ l', l' ≠ langCode → getLanguageStats L' l' = getLanguageStats L l'.
Proof.
  split_and!.
  - unfold getLanguageStats, getDirtyKeys. cbn [failed].
    rewrite length_fmap, length_map_to_list.
    f_equal. apply map_filter_ext. intros [k l] row _.
    unfold is_failed_or_dirty, is_dirty. tauto.
  - unfold getLanguageStats. cbn [failed translated].
    rewrite <- map_size_disj_union by apply translated_failed_disjoint.
    apply map_subseteq_size. apply map_union_least; apply map_filter_subseteq.
  - intros now k th mf pv (s & Hs & Hst)%elem_of_getDirtyKeys L'.
    apply getSyncStatus_Some_status in Hs as (row & Hrow & Hstatus & _).
    rewrite Hstatus in Hst.
    unfold L', getLanguageStats, updateSyncStatus.
    cbn [failed translated sync_status].
    split_and!.
    + rewrite map_filter_insert_True by done.
      rewrite map_size_insert_None; [done|].
      apply map_lookup_filter_None. right. intros row' Hrow' [_ Hc].
      unfold entry_status in Hc. simpl in Hc. destruct Hst; congruence.
    + rewrite map_filter_insert_False.
      2:{ intros [_ Hc]. unfold entry_status in Hc. simpl in Hc.
          destruct Hc; congruence. }
      rewrite map_filter_delete, map_size_delete_Some; [|].
      2:{ exists row. apply map_lookup_filter_Some. split; [done|].
          split; [done|]. unfold entry_status. simpl. tauto. }
      assert (0 < size (filter (is_failed_or_dirty langCode) (sync_status L))).
      { apply Nat.neq_0_lt_0. intros Hz%map_size_empty_iff.
        assert (filter (is_failed_or_dirty langCode) (sync_status L) !! (k, langCode)
                = Some row) as Hin.
        { apply map_lookup_filter_Some. split; [done|]. split; [done|].
          unfold entry_status. simpl. tauto. }
        rewrite Hz in Hin. by rewrite lookup_empty in Hin. }
      lia.
    + intros l' Hl'. f_equal.
      * rewrite map_filter_insert_False by (by intros [? _]).
        rewrite map_filter_delete, delete_id; [done|].
        apply map_lookup_filter_None. right. by intros row' _ [? _].
      * rewrite map_filter_insert_False by (by intros [? _]).
        rewrite map_filter_delete, delete_id; [done|].
        apply map_lookup_filter_None. right. by intros row' _ [? _].
Qed.

(** *** Failed items *)

Lemma elem_of_getFailedItems L langCode batchId (item : FailedItem) :
  item ∈ getFailedItems L langCode batchId ↔
  getSyncStatus L (key_path (fi_row item)) (lang_code (fi_row item)) = Some (fi_row item)
  ∧ status (fi_row item) = FAILED
  ∧ (∀ l, langCode = Some l → l ≠ "" → lang_code (fi_row item) = l)
  ∧ fi_value_hash item = value_hash <$> source_hashes L !! key_path (fi_row item).
Proof.
  unfold getFailedItems. rewrite list_elem_of_fmap. split.
  - intros ([[k l] row] & -> & Hin).
    apply elem_of_map_to_list, map_lookup_filter_Some in Hin as [Hrow [Hst Hl]].
    cbn [fi_row fi_value_hash key_path lang_code status].
    split_and!; [by apply (sync_entry_lookup L (k, l, row))|done| |done].
    intros l' -> Hne. by rewrite decide_False in Hl.
  - intros (Hs & Hst & Hl & Hvh). destruct item as [[k l th st mf pv ts] vh].
    cbn [fi_row fi_value_hash key_path lang_code status] in *.
    unfold getSyncStatus in Hs.
    destruct (sync_status L !! (k, l)) as [row|] eqn:Hrow; [|done].
    injection Hs as <- <- <- <- <-.
    exists (k, l, row). split; [by rewrite Hvh|].
    apply elem_of_map_to_list, map_lookup_filter_Some. split; [done|].
    split; [done|]. destruct langCode as [l'|]; [|done].
    case_decide; [done|]. by apply Hl.
Qed.

(** X6.  [getFailedItems] returns the rows whose status is [FAILED], each
    with the stored source hash of its key (absent when [source_hashes] has
    no row for it).  A language code restricts the rows to that language,
    except the empty string, which like an absent code selects every
    language; the batch id changes nothing.  For a language the keys of the
    failed items are among its dirty keys. *)
Theorem getFailedItems_spec (L : Ledger.t) (langCode batchId : option string) :
  (∀ item, item ∈ getFailedItems L langCode batchId ↔
     getSyncStatus L (key_path (fi_row item)) (lang_code (fi_row item)) = Some (fi_row item)
     ∧ status (fi_row item) = FAILED
     ∧ (∀ l, langCode = Some l → l ≠ "" → lang_code (fi_row item) = l)
     ∧ fi_value_hash item = value_hash <$> source_hashes L !! key_path (fi_row item))
  ∧ getFailedItems L (Some "") batchId = getFailedItems L None batchId
  ∧ (∀ batchId', getFailedItems L langCode batchId' = getFailedItems L langCode batchId)
  ∧ (∀ l item, l ≠ "" → item ∈ getFailedItems L (Some l) batchId →
       key_path (fi_row item) ∈ getDirtyKeys L l).
Proof.
  split_and!.
  - apply elem_of_getFailedItems.
  - unfold getFailedItems. by f_equal.
  - done.
  - intros l item Hne (Hs & Hst & Hl & _)%elem_of_getFailedItems.
    apply elem_of_getDirtyKeys. exists (fi_row item).
    split; [by rewrite <- (Hl l eq_refl Hne)|by right].
Qed.

(** *** Project statistics *)

(** X7.  [getProjectStats]: writing a source hash for a key that has none
    raises [total_keys] by one, writing over a stored one leaves it, and
    neither changes [manual_count]; marking a pair as a manual override
    raises [manual_count] by one unless the pair is [MANUAL] already, and
    leaves [total_keys]. *)
Theorem getProjectStats_updates (L : Ledger.t) (now : Timestamp) :
  (∀ k h cs run,
     let L' := updateSourceHash L now k h cs run in
     total_keys (getProjectStats L') =
       (if decide (is_Some (source_hashes L !! k))
        then total_keys (getProjectStats L) else S (total_keys (getProjectStats L)))
     ∧ manual_count (getProjectStats L') = manual_count (getProjectStats L))
  ∧ (∀ k l h,
       let L' := markAsManualOverride L now k l h in
       manual_count (getProjectStats L') =
         (if decide (status <$> getSyncStatus L k l = Some MANUAL)
          then manual_count (getProjectStats L) else S (manual_count (getProjectStats L)))
       ∧ total_keys (getProjectStats L') = total_keys (getProjectStats L)).
Proof.
  split.
  - intros k h cs run L'. split; [|done].
    unfold L', getProjectStats, updateSourceHash. cbn [total_keys source_hashes].
    rewrite map_size_insert.
    destruct (source_hashes L !! k) as [row|].
    + by rewrite decide_True.
    + rewrite decide_False; [done|]. by intros [? ?].
  - intros k l h L'. split; [|done].
    unfold L', getProjectStats, markAsManualOverride, updateSyncStatus.
    cbn [manual_count sync_status].
    rewrite map_filter_insert_True by done. rewrite map_size_insert.
    destruct (filter is_manual (sync_status L) !! (k, l)) as [row|] eqn:Hf.
    + apply map_lookup_filter_Some in Hf as [Hrow Hm].
      rewrite decide_True; [done|].
      pose proof (sync_entry_lookup L (k, l, row) Hrow) as Hs.
      unfold entry_key_path, entry_lang_code in Hs. simpl in Hs. rewrite Hs.
      simpl. by f_equal.
    + rewrite decide_False; [done|].
      destruct (getSyncStatus L k l) as [s|] eqn:Hs; [|done]. intros [= Hst].
      apply getSyncStatus_Some_status in Hs as (row & Hrow & Hstatus & _).
      assert (filter is_manual (sync_status L) !! (k, l) = Some row) as Hin.
      { apply map_lookup_filter_Some. split; [done|].
        unfold is_manual, entry_status. simpl. congruence. }
      congruence.
Qed.

End LedgerQueryFacts.

(** ** Ledger: the run history *)

Section RunHistoryFacts.
Import Ledger RunHistory.

(** X8.  [startRun] throws exactly when the run id it builds is taken;
    otherwise it returns that id, adds one row, started now and not
    finished, and leaves the other rows as they were. *)
Theorem startRun_spec (H : RunHistory.t) (now : Timestamp) (dateNow : N)
    (randomSuffix modelUsed configHash : string) :
  let runId := makeRunId dateNow randomSuffix in
  (startRun H now dateNow randomSuffix modelUsed configHash = None ↔ is_Some (H !! runId))
  ∧ ∀ H' id, startRun H now dateNow randomSuffix modelUsed configHash = Some (H', id) →
      id = runId
      ∧ size H' = S (size H)
      ∧ (∃ row, H' !! id = Some row ∧ started_at row = now ∧ finished_at row = None
                ∧ model_used row = modelUsed ∧ config_hash row = configHash)
      ∧ ∀ id', id' ≠ id → H' !! id' = H !! id'.
Proof.
  intros runId. unfold startRun. fold runId.
  destruct (H !! runId) as [row|] eqn:Hid.
  - split; [by split; [eauto|]|done].
  - split; [by split; [|intros [? ?]]|].
    intros H' id [= <- <-]. split_and!; [done| | |].
    + by rewrite map_size_insert_None.
    + eexists. by rewrite lookup_insert_eq.
    + intros id' Hne. by rewrite lookup_insert_ne.
Qed.

(** X9.  [completeRun] does nothing when no run has the id; on a run of the
    history it records the finish time and the token counts and keeps the
    start time, the model and the configuration hash; the cost is recorded
    as given unless it is zero or not a number, and a cost that is not a
    number is recorded as NULL; it never adds or removes a run, and the
    other runs keep their rows. *)
Theorem completeRun_spec (H : RunHistory.t) (now : Timestamp) (runId : string)
    (tokensIn tokensOut : Z) (cost : float) :
  let H' := completeRun H now runId tokensIn tokensOut cost in
  (H !! runId = None → H' = H)
  ∧ (∀ row, H !! runId = Some row →
       ∃ row', H' !! runId = Some row'
         ∧ started_at row' = started_at row ∧ finished_at row' = Some now
         ∧ model_used row' = model_used row ∧ config_hash row' = config_hash row
         ∧ tokens_in row' = Some tokensIn ∧ tokens_out row' = Some tokensOut
         ∧ (PrimFloat.is_nan cost = true → cost_estimate_usd row' = None)
         ∧ (PrimFloat.is_nan cost = false → PrimFloat.is_zero cost = false →
            cost_estimate_usd row' = Some cost))
  ∧ (∀ id, id ≠ runId → H' !! id = H !! id)
  ∧ dom H' = dom H.
Proof.
  intros H'. unfold H', completeRun. split_and!.
  - intros Hnone. apply map_eq. intros id. rewrite lookup_alter.
    case_decide; [subst; by rewrite Hnone|done].
  - intros row Hrow. rewrite lookup_alter, decide_True by done. rewrite Hrow. simpl.
    eexists. split; [done|]. cbn [started_at finished_at model_used config_hash tokens_in
      tokens_out cost_estimate_usd]. unfold storedReal.
    split_and!; [done..| |].
    + by intros ->.
    + by intros -> ->.
  - intros id Hne. by rewrite lookup_alter_ne.
  - apply dom_alter_L.
Qed.

(** *** Pruning *)

Section WithOrder.

Variable orderByStartedAtDesc : list Run → list Run.
Hypothesis order_perm : ∀ rows, orderByStartedAtDesc rows ≡ₚ rows.
Hypothesis order_sorted : ∀ rows, Sorted newer_first (orderByStartedAtDesc rows).

Local Abbreviation cleanupHistory := (RunHistory.cleanupHistory orderByStartedAtDesc).
Local Abbreviation getLatestRun := (RunHistory.getLatestRun orderByStartedAtDesc).

#[local] Instance newer_first_trans : Transitive newer_first.
Proof. intros a b c Hab Hbc. unfold newer_first in *. by etrans. Qed.

Lemma NoDup_take {A} (n : nat) (l : list A) : NoDup l → NoDup (take n l).
Proof. intros Hnd. eapply sublist_NoDup; [done|apply sublist_take]. Qed.

Lemma ordered_NoDup_keys (H : RunHistory.t) :
  NoDup (orderByStartedAtDesc (map_to_list H)).*1.
Proof using order_perm. rewrite order_perm. apply NoDup_fst_map_to_list. Qed.

Lemma elem_of_ordered (H : RunHistory.t) id row :
  (id, row) ∈ orderByStartedAtDesc (map_to_list H) ↔ H !! id = Some row.
Proof using order_perm. by rewrite order_perm, elem_of_map_to_list. Qed.

(** The rows that stay are the first of the ordered rows. *)
Lemma cleanupHistory_kept (H : RunHistory.t) (keepLast : option Z) :
  cleanupHistory H keepLast =
  list_to_map (limit (default 100%Z keepLast) (orderByStartedAtDesc (map_to_list H))).
Proof using order_perm.
  unfold RunHistory.cleanupHistory. cbv zeta.
  set (kept := limit _ _).
  assert (NoDup kept.*1) as Hnd.
  { unfold kept, limit. case_decide; [apply ordered_NoDup_keys|].
    rewrite fmap_take. apply NoDup_take, ordered_NoDup_keys. }
  assert (∀ x, x ∈ kept → x ∈ orderByStartedAtDesc (map_to_list H)) as Hsub.
  { intros x. unfold kept, limit. case_decide; [done|]. apply subseteq_take. }
  apply map_eq. intros id. apply option_eq. intros row.
  rewrite map_lookup_filter_Some, <- elem_of_list_to_map by done. simpl. split.
  - intros [Hrow ((id' & row') & -> & Hin)%list_elem_of_fmap].
    apply Hsub in Hin as Hin'. apply elem_of_ordered in Hin'. simpl in *.
    by assert (row' = row) as <- by congruence.
  - intros Hin. split; [by apply elem_of_ordered, Hsub|].
    apply list_elem_of_fmap. by exists (id, row).
Qed.

(** X10.  [cleanupHistory] only deletes: a run that stays keeps its row.  For
    a non-negative [keepLast] (100 when omitted) exactly
    [min keepLast (number of runs)] stay, and none of those deleted started
    later than one that stays; a negative [keepLast] deletes nothing.
    Pruning again with the same [keepLast] changes nothing. *)
Theorem cleanupHistory_spec (H : RunHistory.t) (keepLast : option Z) :
  let n := default 100%Z keepLast in
  let H' := cleanupHistory H keepLast in
  H' ⊆ H
  ∧ ((n < 0)%Z → H' = H)
  ∧ ((0 ≤ n)%Z → size H' = Z.to_nat n `min` size H)
  ∧ (∀ id row id' row', H' !! id = Some row → H !! id' = Some row' → H' !! id' = None →
       newer_first (id, row) (id', row'))
  ∧ cleanupHistory H' keepLast = H'.
Proof using order_perm order_sorted.
  intros n H'.
  assert (H' ⊆ H) as Hsub by apply map_filter_subseteq.
  assert ((n < 0)%Z → H' = H) as Hneg.
  { intros Hn. unfold H'. rewrite cleanupHistory_kept. fold n. unfold limit.
    rewrite decide_True by done.
    rewrite <- (list_to_map_to_list H) at 2.
    apply list_to_map_proper; [apply ordered_NoDup_keys|apply order_perm]. }
  assert ((0 ≤ n)%Z → size H' = Z.to_nat n `min` size H) as Hsize.
  { intros Hn. unfold H'. rewrite cleanupHistory_kept. fold n. unfold limit.
    rewrite decide_False by lia.
    rewrite map_size_list_to_map
      by (rewrite fmap_take; apply NoDup_take, ordered_NoDup_keys).
    rewrite length_take, order_perm, length_map_to_list. done. }
  split_and!; [done..| |].
  - intros id row id' row' Hkept Hrow' Hgone.
    unfold H' in Hkept, Hgone. rewrite cleanupHistory_kept in Hkept, Hgone.
    fold n in Hkept, Hgone. unfold limit in Hkept, Hgone.
    destruct (decide (n < 0)%Z) as [Hn|Hn].
    { apply not_elem_of_list_to_map in Hgone. exfalso. apply Hgone.
      apply list_elem_of_fmap. exists (id', row'). split; [done|].
      by apply elem_of_ordered. }
    pose proof (order_sorted (map_to_list H)) as Hsorted.
    apply (Sorted_StronglySorted _) in Hsorted.
    rewrite <- (take_drop (Z.to_nat n) (orderByStartedAtDesc (map_to_list H))) in Hsorted.
    apply StronglySorted_app in Hsorted as (Hlt & _ & _).
    apply Hlt.
    + apply elem_of_list_to_map in Hkept; [done|].
      rewrite fmap_take. apply NoDup_take, ordered_NoDup_keys.
    + apply elem_of_ordered in Hrow'.
      rewrite <- (take_drop (Z.to_nat n) (orderByStartedAtDesc (map_to_list H))) in Hrow'.
      apply elem_of_app in Hrow' as [Hin|Hin]; [|done].
      apply not_elem_of_list_to_map in Hgone. exfalso. apply Hgone.
      apply list_elem_of_fmap. by exists (id', row').
  - destruct (decide (n < 0)%Z) as [Hn|Hn].
    + rewrite (Hneg Hn). by apply Hneg.
    + rewrite cleanupHistory_kept. fold n. unfold limit. rewrite decide_False by done.
      rewrite take_ge.
      2:{ rewrite order_perm, length_map_to_list, Hsize by lia. lia. }
      rewrite <- (list_to_map_to_list H') at 2.
      apply list_to_map_proper; [apply ordered_NoDup_keys|apply order_perm].
Qed.

(** X11.  [getLatestRun] returns nothing exactly on an empty history;
    otherwise it returns a run of the history, and no run started later. *)
Theorem getLatestRun_spec (H : RunHistory.t) :
  (getLatestRun H = None ↔ H = ∅)
  ∧ ∀ id row, getLatestRun H = Some (id, row) →
      H !! id = Some row
      ∧ ∀ id' row', H !! id' = Some row' → String.le (started_at row') (started_at row).
Proof using order_perm order_sorted.
  unfold RunHistory.getLatestRun, limit. rewrite decide_False by lia.
  change (Z.to_nat 1) with 1.
  pose proof (order_perm (map_to_list H)) as Hperm.
  pose proof (order_sorted (map_to_list H)) as Hsorted.
  apply (Sorted_StronglySorted _) in Hsorted.
  destruct (orderByStartedAtDesc (map_to_list H)) as [|[id0 row0] rest] eqn:Hord; simpl.
  - split; [|done]. split; [|done]. intros _.
    apply Permutation_nil_l in Hperm. by apply map_to_list_empty_iff.
  - split.
    + split; [done|]. intros ->. rewrite map_to_list_empty in Hperm.
      by apply Permutation_nil_r in Hperm.
    + intros id row [= <- <-].
      assert (∀ i r, (i, r) ∈ (id0, row0) :: rest ↔ H !! i = Some r) as Hmem.
      { intros i r. by rewrite Hperm, elem_of_map_to_list. }
      split; [apply Hmem, list_elem_of_here|].
      intros id' row' [[= -> ->]|Hin]%Hmem%elem_of_cons; [done|].
      apply StronglySorted_inv in Hsorted as [_ Hall].
      rewrite Forall_forall in Hall. by apply (Hall (id', row')).
Qed.

End WithOrder.

End RunHistoryFacts.

(** ** Planner: the size of a plan *)

Section PlanSizeFacts.
Import Ledger Types Planner PlannerSpec.

Variable computeHash : string → string.
Variable dateNow : nat → N.

Local Abbreviation createPlan := (Planner.createPlan computeHash dateNow).
Local Abbreviation createBatches := (Planner.createBatches computeHash dateNow).

(** The units of the batches, batch after batch, are the selected units,
    language after language. *)
Lemma createPlan_flat L us langs :
  concat (map sourceUnits (batches (createPlan L us langs))) =
  concat (map (λ lang, detectChanges L us (shortCode lang)) langs).
Proof.
  destruct (createPlan_spec computeHash dateNow L us langs) as (ticks & Hlen & -> & _).
  revert ticks Hlen.
  induction langs as [|lang langs IH]; intros [|tick ticks] Hlen; simplify_eq/=; [done|].
  rewrite map_app, concat_app, IH by done. f_equal.
  apply createBatches_concat. unfold defaultBatchSize. lia.
Qed.

Lemma concat_nil_iff {A} (ls : list (list A)) : concat ls = [] ↔ ∀ l, l ∈ ls → l = [].
Proof.
  induction ls as [|l ls IH]; simpl.
  - split; [by intros _ l ?%elem_of_nil|done].
  - rewrite app_nil, IH. split.
    + intros [-> Hls] l' [->|Hin]%elem_of_cons; auto.
    + intros Hall. split; [apply Hall, list_elem_of_here|].
      intros l' Hin. by apply Hall, list_elem_of_further.
Qed.

(** The plan has no batch exactly when no language selects a unit. *)
Lemma createPlan_batches_nil L us langs :
  batches (createPlan L us langs) = [] ↔
  ∀ lang, lang ∈ langs → detectChanges L us (shortCode lang) = [].
Proof.
  split.
  - intros Hnil lang Hlang.
    pose proof (createPlan_flat L us langs) as Hflat. rewrite Hnil in Hflat.
    symmetry in Hflat. simpl in Hflat.
    apply (proj1 (concat_nil_iff _) Hflat). apply list_elem_of_fmap. by exists lang.
  - intros Hall.
    destruct (createPlan_spec computeHash dateNow L us langs) as (ticks & Hlen & -> & _).
    apply concat_nil_iff. intros bs [i Hi]%list_elem_of_lookup.
    apply lookup_zip_with_Some in Hi as (lang & tick & -> & Hlang & _).
    unfold lang_batches. rewrite Hall by (by eapply list_elem_of_lookup_2).
    apply createBatches_nil.
Qed.

Lemma length_createBatches units lang tick :
  length (createBatches units lang defaultBatchSize tick)
  = (length units + 19) / 20.
Proof.
  set (bs := createBatches units lang defaultBatchSize tick).
  set (n := (length units + 19) / 20).
  assert (∀ j, is_Some (bs !! j) ↔ j < n) as Hsome.
  { intros j. unfold bs. rewrite createBatches_lookup by (unfold defaultBatchSize; lia).
    unfold defaultBatchSize, n.
    pose proof (Nat.div_mod_eq (length units + 19) 20) as Hdiv.
    pose proof (Nat.mod_upper_bound (length units + 19) 20) as Hmod.
    case_decide; split; [lia|by eauto|by intros [? ?]|lia]. }
  destruct (Nat.lt_trichotomy (length bs) n) as [Hlt|[Heq|Hgt]]; [|done|].
  - apply Hsome in Hlt as [b Hb]. apply lookup_lt_Some in Hb. lia.
  - assert (is_Some (bs !! n)) as Hn by (apply lookup_lt_is_Some; lia).
    apply Hsome in Hn. lia.
Qed.

(** The plan has a batch exactly when some unit needs translation for some
    language. *)
Lemma createPlan_batches_cons L us langs :
  batches (createPlan L us langs) ≠ [] ↔
  ∃ u lang, u ∈ us ∧ lang ∈ langs ∧ unitNeedsTranslation L (shortCode lang) u = true.
Proof.
  rewrite createPlan_batches_nil. split.
  - intros Hne.
    destruct (decide (Forall (λ lang, length (detectChanges L us (shortCode lang)) = 0) langs))
      as [Hall|Hex].
    { exfalso. apply Hne. intros lang Hlang. rewrite Forall_forall in Hall.
      by apply length_zero_iff_nil, Hall. }
    apply not_Forall_Exists in Hex; [|apply _].
    apply Exists_exists in Hex as (lang & Hlang & Hsel). cbv beta in Hsel.
    destruct (detectChanges L us (shortCode lang)) as [|u sel] eqn:Hd.
    { exfalso. apply Hsel. by rewrite Hd. }
    assert (u ∈ detectChanges L us (shortCode lang)) as Hu
      by (rewrite Hd; apply list_elem_of_here).
    apply elem_of_detectChanges in Hu as [Hu Hneeds]. by exists u, lang.
  - intros (u & lang & Hu & Hlang & Hneeds) Hall.
    assert (u ∈ detectChanges L us (shortCode lang)) as Hin
      by (by apply elem_of_detectChanges).
    rewrite (Hall lang Hlang) in Hin. by apply elem_of_nil in Hin.
Qed.

(** Every batch of the plan is for one of the target languages. *)
Lemma createPlan_batch_language L us langs batch :
  batch ∈ batches (createPlan L us langs) →
  ∃ lang, lang ∈ langs ∧ shortCode lang = targetLanguage batch.
Proof.
  destruct (createPlan_spec computeHash dateNow L us langs) as (ticks & Hlen & -> & _).
  intros (bs & Hbatch & Hbs)%elem_of_concat.
  apply list_elem_of_lookup in Hbs as [i Hi].
  apply lookup_zip_with_Some in Hi as (lang & tick & -> & Hlang & _).
  exists lang. split; [by eapply list_elem_of_lookup_2|].
  symmetry. eapply createBatches_targetLanguage; [|exact Hbatch].
  unfold defaultBatchSize. lia.
Qed.

Lemma length_detectChanges L us l : length (detectChanges L us l) ≤ length us.
Proof. rewrite detectChanges_filter. apply length_filter. Qed.

(** X12.  The size of a plan: [totalUnits] is the number of units its
    batches carry, which are the selected units of the languages in the
    order of the languages, at most one for each unit and language; the
    number of batches is the sum over the languages of the selected units
    over 20, rounded up; and the plan has no batch exactly when [totalUnits]
    is 0, that is when no language selects a unit. *)
Theorem createPlan_size (L : Ledger.t) (us : list SourceUnit) (langs : list TargetLanguage) :
  let plan := createPlan L us langs in
  concat (map sourceUnits (batches plan))
    = concat (map (λ lang, detectChanges L us (shortCode lang)) langs)
  ∧ totalUnits plan = length (concat (map sourceUnits (batches plan)))
  ∧ totalUnits plan ≤ length us * length langs
  ∧ length (batches plan)
    = sum_list (map (λ lang, (length (detectChanges L us (shortCode lang)) + 19) / 20) langs)
  ∧ (batches plan = [] ↔ totalUnits plan = 0)
  ∧ (batches plan = [] ↔ ∀ lang, lang ∈ langs → detectChanges L us (shortCode lang) = []).
Proof.
  intros plan.
  pose proof (createPlan_flat L us langs) as Hflat. fold plan in Hflat.
  destruct (createPlan_spec computeHash dateNow L us langs) as (ticks & Hlen & Hb & Htotal).
  fold plan in Hb, Htotal.
  assert (totalUnits plan = length (concat (map sourceUnits (batches plan)))) as Hcount.
  { rewrite Hflat, Htotal. clear. induction langs as [|lang langs IH]; [done|].
    simpl. by rewrite length_app, IH. }
  pose proof (createPlan_batches_nil L us langs) as Hnil. fold plan in Hnil.
  split_and!; [done|done| | | |done].
  - rewrite Htotal. clear. induction langs as [|lang langs IH]; simpl; [lia|].
    pose proof (length_detectChanges L us (shortCode lang)). lia.
  - rewrite Hb. clear Hb Htotal Hflat Hcount Hnil. revert ticks Hlen.
    induction langs as [|lang langs IH]; intros [|tick ticks] Hlen; simplify_eq/=; [done|].
    rewrite length_app, IH by done. f_equal. apply length_createBatches.
  - rewrite Hnil, Htotal. clear. induction langs as [|lang langs IH]; simpl.
    + split; [done|]. by intros _ lang ?%elem_of_nil.
    + split.
      * intros Hall. rewrite (Hall lang) by apply list_elem_of_here. simpl.
        apply IH. intros lang' Hin. by apply Hall, list_elem_of_further.
      * intros Hz lang' [->|Hin]%elem_of_cons.
        -- apply length_zero_iff_nil. lia.
        -- apply IH; [lia|done].
Qed.

End PlanSizeFacts.

(** ** Compiler: what a [sync] run writes *)

Section CompilerFacts.
Import Ledger Types Planner PlannerSpec Validation Compiler CompilerSpec.

Context {FS Nested : Type}.
Variable env : Env FS Nested.

(** *** Writes within a set of pairs *)

Lemma writes_within_refl P Q L : writes_within P Q L L.
Proof. split; [done|]. intros k l. by left. Qed.

Lemma writes_within_trans P Q L1 L2 L3 :
  writes_within P Q L1 L2 → writes_within P Q L2 L3 → writes_within P Q L1 L3.
Proof.
  intros [Hs12 H12] [Hs23 H23]. split; [congruence|].
  intros k l. destruct (H23 k l) as [Heq|Hw]; [|by right].
  rewrite Heq. apply H12.
Qed.

Lemma writes_within_mono (P P' : string → string → Prop) Q L L' :
  (∀ k l, P k l → P' k l) → writes_within P Q L L' → writes_within P' Q L L'.
Proof.
  intros HP [Hs Hw]. split; [done|].
  intros k l. destruct (Hw k l) as [Heq|[Hp Hq]]; [by left|right]. split; [by apply HP|done].
Qed.

Lemma writes_within_update (P : string → string → Prop) (Q : SyncStatus → Prop)
    L now k l th st mf pv :
  P k l →
  Q {| key_path := k; lang_code := l; target_hash := th; status := st;
       model_fingerprint := opt_str_or_null mf;
       prompt_version := opt_num_or_null pv; updated_at := now |} →
  writes_within P Q L (updateSyncStatus L now k l th st mf pv).
Proof.
  intros HP HQ. split; [done|]. intros k' l'.
  destruct (decide ((k, l) = (k', l'))) as [[= <- <-]|Hne].
  - right. split; [done|]. eexists. split; [apply getSyncStatus_update_eq|done].
  - left. by apply getSyncStatus_update_ne.
Qed.

(** A row once written in one of the two shapes keeps one of them. *)
Lemma writes_within_keeps P (Q : SyncStatus → Prop) L L' k l :
  writes_within P Q L L' →
  (∃ s, getSyncStatus L k l = Some s ∧ Q s) →
  ∃ s, getSyncStatus L' k l = Some s ∧ Q s.
Proof.
  intros [_ Hw] Hs. destruct (Hw k l) as [Heq|[_ Hq]]; [by rewrite Heq|done].
Qed.

(** *** Step 2: recording the source hashes *)

Lemma recordSourceHashes_sync_status L n runId us :
  sync_status (recordSourceHashes env L n runId us) = sync_status L.
Proof.
  revert L n. induction us as [|u us IH]; intros L n; simpl; [done|]. by rewrite IH.
Qed.

Lemma getSyncStatus_recordSourceHashes L n runId us k l :
  getSyncStatus (recordSourceHashes env L n runId us) k l = getSyncStatus L k l.
Proof. unfold getSyncStatus. by rewrite recordSourceHashes_sync_status. Qed.

Lemma recordSourceHashes_other L n runId us k :
  k ∉ keyPath <$> us →
  source_hashes (recordSourceHashes env L n runId us) !! k = source_hashes L !! k.
Proof.
  revert L n. induction us as [|u us IH]; intros L n Hk; simpl; [done|].
  rewrite fmap_cons, not_elem_of_cons in Hk. destruct Hk as [Hne Hk].
  rewrite IH by done. simpl. by rewrite lookup_insert_ne.
Qed.

Lemma recordSourceHashes_row L n runId us u :
  NoDup (keyPath <$> us) → u ∈ us →
  ∃ row, source_hashes (recordSourceHashes env L n runId us) !! keyPath u = Some row
         ∧ value_hash row = sourceHash u
         ∧ context_sig row = None
         ∧ last_seen_run row = str_or_null runId.
Proof.
  revert L n. induction us as [|u0 us IH]; intros L n Hnd Hu.
  { by apply elem_of_nil in Hu. }
  rewrite fmap_cons in Hnd. apply NoDup_cons in Hnd as [Hfresh Hnd].
  apply elem_of_cons in Hu as [->|Hu]; simpl.
  - rewrite recordSourceHashes_other by done. simpl. rewrite lookup_insert_eq.
    eexists. by split_and!.
  - by apply IH.
Qed.

Lemma getSourceHash_recordSourceHashes L n runId us u :
  NoDup (keyPath <$> us) → u ∈ us →
  getSourceHash (recordSourceHashes env L n runId us) (keyPath u)
  = str_or_null (sourceHash u).
Proof.
  intros Hnd Hu.
  destruct (recordSourceHashes_row L n runId us u Hnd Hu) as (row & Hrow & Hvh & _).
  unfold getSourceHash. by rewrite Hrow, Hvh.
Qed.

(** After step 2 the stored hash of a unit is its own: what remains of the
    decision chain is the status alone. *)
Lemma unitNeedsTranslation_recorded L n runId us u l :
  NoDup (keyPath <$> us) → u ∈ us → sourceHash u ≠ "" →
  unitNeedsTranslation (recordSourceHashes env L n runId us) l u = true ↔
  getSyncStatus L (keyPath u) l = None
  ∨ ∃ s, getSyncStatus L (keyPath u) l = Some s ∧ (status s = FAILED ∨ status s = DIRTY).
Proof.
  intros Hnd Hu Hne. rewrite unitNeedsTranslation_spec.
  rewrite getSyncStatus_recordSourceHashes, getSourceHash_recordSourceHashes by done.
  unfold str_or_null. rewrite decide_False by done. split.
  - intros [Hnone|(s & Hs & Hm & [Hch|Hst])]; [by left|done|].
    right. by exists s.
  - intros [Hnone|(s & Hs & Hst)]; [by left|]. right. exists s.
    split_and!; [done|destruct Hst; congruence|by right].
Qed.

(** *** Step 4: the results of a batch *)

Lemma processResult_writes provider batch lang st i result st' thrown :
  processResult env provider batch lang st i result = (st', thrown) →
  writes_within (in_batch batch) (committed env provider) (ledger st) (ledger st').
Proof.
  unfold processResult.
  destruct (sourceUnits batch !! i) as [u|] eqn:Hu.
  2:{ intros [= <- <-]. apply writes_within_refl. }
  assert (in_batch batch (keyPath u) (targetLanguage batch)) as Hin.
  { split; [done|]. exists u. split; [by eapply list_elem_of_lookup_2|done]. }
  destruct (negb _).
  { intros [= <- <-]. simpl. apply writes_within_update; [done|]. by left. }
  destruct (writeTranslations env _ _ _) as [fs' written].
  destruct written; intros [= <- <-]; simpl; [|apply writes_within_refl].
  apply writes_within_update; [done|]. right. split_and!; [done|by eexists|done..].
Qed.

Lemma processResults_writes provider batch lang st i results st' thrown :
  processResults env provider batch lang st i results = (st', thrown) →
  writes_within (in_batch batch) (committed env provider) (ledger st) (ledger st').
Proof.
  revert st i. induction results as [|result results IH]; intros st i; simpl.
  { intros [= <- <-]. apply writes_within_refl. }
  destruct (processResult env provider batch lang st i result) as [st1 thrown1] eqn:Hstep.
  apply processResult_writes in Hstep.
  destruct thrown1.
  - by intros [= <- <-].
  - intros Hrest%IH. by eapply writes_within_trans.
Qed.

Lemma processBatch_writes provider st b batch :
  writes_within (in_batch batch) (committed env provider)
    (ledger st) (ledger (processBatch env provider st b batch)).
Proof.
  unfold processBatch.
  destruct (List.find _ _) as [lang|]; [|apply writes_within_refl].
  destruct (translate provider b batch _) as [results|]; [|apply writes_within_refl].
  destruct (processResults env provider batch lang st 0 results) as [st' thrown] eqn:Hres.
  apply processResults_writes in Hres. by destruct thrown.
Qed.

Lemma processBatches_writes provider st b batches :
  writes_within (in_batches batches) (committed env provider)
    (ledger st) (ledger (processBatches env provider st b batches)).
Proof.
  revert st b. induction batches as [|batch batches IH]; intros st b; simpl.
  { apply writes_within_refl. }
  eapply writes_within_trans.
  - eapply writes_within_mono; [|apply processBatch_writes].
    intros k l Hin. exists batch. split; [apply list_elem_of_here|done].
  - eapply writes_within_mono; [|apply IH].
    intros k l (batch' & Hin & Hkl). exists batch'.
    split; [by apply list_elem_of_further|done].
Qed.

(** *** The run as a whole *)

Local Abbreviation runId := (RunHistory.makeRunId (runDateNow env) (randomSuffix env)).
Local Abbreviation recorded L units := (recordSourceHashes env L 1 runId units).
Local Abbreviation planOf L units :=
  (createPlan (computeHash env) (dateNow env) (recorded L units) units (targetLanguages env)).
Local Abbreviation initial L units files :=
  {| ledger := recorded L units; fs := files; statements := S (length units);
     translatedUnits := 0; failedUnits := 0; totalTokensIn := 0; totalTokensOut := 0 |}.

Lemma startRun_Some H now d r m c H1 id :
  RunHistory.startRun H now d r m c = Some (H1, id) →
  id = RunHistory.makeRunId d r ∧ H !! id = None.
Proof.
  unfold RunHistory.startRun.
  destruct (H !! RunHistory.makeRunId d r) eqn:Hid; [done|]. by intros [= <- <-].
Qed.

(** The pairs of the plan [sync] makes: a unit of the extraction, a target
    language, and a row that is absent or not [MANUAL]. *)
Lemma in_batches_planOf L units k l :
  in_batches (batches (planOf L units)) k l →
  (∃ u lang, u ∈ units ∧ keyPath u = k ∧ lang ∈ targetLanguages env ∧ shortCode lang = l)
  ∧ ∀ s, getSyncStatus L k l = Some s → status s ≠ MANUAL.
Proof.
  intros (batch & Hbatch & Hl & u & Hu & Hk).
  assert (plan_includes (planOf L units) u l) as Hinc by (by exists batch).
  apply plan_includes_iff in Hinc as [(lang & Hlang & Hsc) Hsel].
  apply elem_of_detectChanges in Hsel as [Hin Hneeds].
  split; [by exists u, lang|].
  apply unitNeedsTranslation_spec in Hneeds.
  rewrite getSyncStatus_recordSourceHashes, Hk in Hneeds.
  intros s Hs. destruct Hneeds as [Hnone|(s' & Hs' & Hm & _)]; congruence.
Qed.

(** The five ways through [sync]: the plan is empty, the batches are
    processed, no provider, the run id is taken, the extraction fails. *)
Ltac sync_paths L H units H1 provider batch0 rest Hext Hrun Hfresh Hb Hprov :=
  let id := fresh "id" in
  unfold sync;
  destruct (extract env) as [units|] eqn:Hext;
  [destruct (RunHistory.startRun _ _ _ _ _ _) as [[H1 id]|] eqn:Hrun;
   [pose proof (startRun_Some _ _ _ _ _ _ _ _ Hrun) as [-> Hfresh];
    destruct (batches (planOf L units)) as [|batch0 rest] eqn:Hb;
    [rewrite decide_True by done
    |rewrite decide_False by done;
     destruct (createProvider env) as [provider|] eqn:Hprov]
   |assert (is_Some (H !! runId)) as Hfresh
      by (unfold RunHistory.startRun in Hrun; destruct (H !! runId); [eauto|done])]
  |].

(** X13.  What [sync] does to [sync_status], whether it returns or throws: a
    row is left as it was, or it belongs to a unit of the extraction and a
    target language, was absent or not [MANUAL], and is now [FAILED] with
    the empty target hash and no model, or [CLEAN] with the hash of a text,
    the provider's fingerprint and the prompt version.  So a [MANUAL] row is
    never overwritten. *)
Theorem sync_ledger_writes (L : Ledger.t) (H : RunHistory.t) (files : FS) (k l : string) :
  let L' := ledger_of (sync env L H files) in
  (getSyncStatus L' k l = getSyncStatus L k l
   ∨ ((∃ units u lang, extract env = Some units ∧ u ∈ units ∧ keyPath u = k
                       ∧ lang ∈ targetLanguages env ∧ shortCode lang = l)
      ∧ (∀ s, getSyncStatus L k l = Some s → status s ≠ MANUAL)
      ∧ ∃ provider s, createProvider env = Some provider
                      ∧ getSyncStatus L' k l = Some s ∧ committed env provider s))
  ∧ (∀ s, getSyncStatus L k l = Some s → status s = MANUAL →
          getSyncStatus L' k l = Some s).
Proof.
  intros L'.
  assert (getSyncStatus L' k l = getSyncStatus L k l
          ∨ ((∃ units u lang, extract env = Some units ∧ u ∈ units ∧ keyPath u = k
                              ∧ lang ∈ targetLanguages env ∧ shortCode lang = l)
             ∧ (∀ s, getSyncStatus L k l = Some s → status s ≠ MANUAL)
             ∧ ∃ provider s, createProvider env = Some provider
                             ∧ getSyncStatus L' k l = Some s ∧ committed env provider s))
    as Hcases.
  { unfold L'.
    sync_paths L H units H1 provider batch0 rest Hext Hrun Hfresh Hb Hprov;
      unfold ledger_of; cbn [fst snd];
      try (left; apply getSyncStatus_recordSourceHashes); try (by left).
    pose proof (processBatches_writes provider (initial L units files) 0
                  (batch0 :: rest)) as [_ Hw].
    destruct (Hw k l) as [Heq|[Hin Hs]].
    - left. rewrite Heq. apply getSyncStatus_recordSourceHashes.
    - right. rewrite <- Hb in Hin.
      apply in_batches_planOf in Hin as [(u & lang & Hu) Hm].
      split_and!; [by exists units, u, lang|done|].
      destruct Hs as (s & Hs & Hc). by exists provider, s. }
  split; [done|].
  intros s Hs Hm. destruct Hcases as [->|(_ & Hnm & _)]; [done|].
  by apply Hnm in Hs.
Qed.

(** X14.  [sync] throws in three cases only: the extraction fails, the run
    id is taken, or something is to be translated and no provider can be
    made.  A rejected request, a failed validation and a failed write never
    make it throw.  When it throws it has written no file and changed no
    row of [sync_status]; when it returns, the run is in the history,
    finished. *)
Theorem sync_throws_iff (L : Ledger.t) (H : RunHistory.t) (files : FS) :
  let r := sync env L H files in
  (outcome_of r = Thrown ↔
     extract env = None
     ∨ is_Some (H !! runId)
     ∨ (createProvider env = None
        ∧ ∃ units u lang, extract env = Some units ∧ u ∈ units
            ∧ lang ∈ targetLanguages env
            ∧ unitNeedsTranslation (recorded L units) (shortCode lang) u = true))
  ∧ (outcome_of r = Thrown →
       files_of r = files ∧ sync_status (ledger_of r) = sync_status L)
  ∧ (∀ stats, outcome_of r = Returned stats →
       Stats.runId stats = runId
       ∧ ∃ row, history_of r !! runId = Some row
                ∧ is_Some (RunHistory.finished_at row)
                ∧ RunHistory.tokens_in row = Some (Z.of_nat (Stats.tokensIn stats))
                ∧ RunHistory.tokens_out row = Some (Z.of_nat (Stats.tokensOut stats))).
Proof.
  intros r. unfold r.
  sync_paths L H units H1 provider batch0 rest Hext Hrun Hfresh Hb Hprov;
    unfold outcome_of, files_of, ledger_of, history_of; cbn [fst snd].
  - (* nothing to translate *)
    split_and!; [split; [done|]|done|].
    + intros [?|[[? ?]|(_ & units' & u & lang & [= <-] & Hu)]]; [done|congruence|].
      assert (batches (planOf L units) ≠ []) as Hne
        by (apply createPlan_batches_cons; by exists u, lang).
      done.
    + intros stats [= <-]. split; [done|].
      unfold RunHistory.startRun in Hrun. rewrite Hfresh in Hrun.
      injection Hrun as <-. unfold RunHistory.completeRun.
      rewrite lookup_alter, decide_True by done. rewrite lookup_insert_eq. simpl.
      eexists. by split_and!.
  - (* the batches are processed *)
    split_and!; [split; [done|]|done|].
    + intros [?|[[? ?]|(? & _)]]; congruence.
    + intros stats [= <-]. split; [done|].
      unfold RunHistory.startRun in Hrun. rewrite Hfresh in Hrun.
      injection Hrun as <-. unfold RunHistory.completeRun.
      rewrite lookup_alter, decide_True by done. rewrite lookup_insert_eq. simpl.
      eexists. by split_and!.
  - (* no provider *)
    split_and!; [split; [intros _|done]| |done].
    + right. right. split; [done|].
      assert (batches (planOf L units) ≠ []) as Hne by (by rewrite Hb).
      apply createPlan_batches_cons in Hne as (u & lang & Hu). by exists units, u, lang.
    + intros _. split; [done|]. apply recordSourceHashes_sync_status.
  - (* the run id is taken *)
    split_and!; [split; [intros _|done]|done|done]. right. by left.
  - (* nothing extracted *)
    split_and!; [split; [intros _|done]|done|done]. by left.
Qed.

(** X15.  Step 2 runs before step 3: the plan [sync] makes is made on the
    ledger that already holds the hashes of this extraction.  With distinct
    key paths and non-empty hashes a pair is planned exactly when its row
    is absent, [FAILED] or [DIRTY], whatever source hash was stored before
    the run. *)
Theorem plan_after_recordSourceHashes (L : Ledger.t) (n : nat) (run : string)
    (units : list SourceUnit) (u : SourceUnit) (lang : TargetLanguage) :
  NoDup (keyPath <$> units) →
  u ∈ units → lang ∈ targetLanguages env → sourceHash u ≠ "" →
  plan_includes
    (createPlan (computeHash env) (dateNow env) (recordSourceHashes env L n run units)
       units (targetLanguages env)) u (shortCode lang)
  ↔ getSyncStatus L (keyPath u) (shortCode lang) = None
    ∨ ∃ s, getSyncStatus L (keyPath u) (shortCode lang) = Some s
           ∧ (status s = FAILED ∨ status s = DIRTY).
Proof.
  intros Hnd Hu Hlang Hne.
  rewrite plan_includes_iff, elem_of_detectChanges.
  rewrite unitNeedsTranslation_recorded by done. split.
  - by intros (_ & _ & Hst).
  - intros Hst. split; [by exists lang|done].
Qed.

(** X16.  A run over pairs that all have a row other than [FAILED] and
    [DIRTY] translates nothing, even when every source text has changed
    since the rows were written: it returns with nothing translated and
    nothing failed, writes no file, leaves [sync_status] as it was, and
    stores the new source hashes. *)
Theorem sync_settled_pairs (L : Ledger.t) (H : RunHistory.t) (files : FS)
    (units : list SourceUnit) :
  extract env = Some units →
  H !! runId = None →
  NoDup (keyPath <$> units) →
  (∀ u, u ∈ units → sourceHash u ≠ "") →
  (∀ u lang, u ∈ units → lang ∈ targetLanguages env →
     ∃ s, getSyncStatus L (keyPath u) (shortCode lang) = Some s
          ∧ status s ≠ FAILED ∧ status s ≠ DIRTY) →
  let r := sync env L H files in
  files_of r = files
  ∧ sync_status (ledger_of r) = sync_status L
  ∧ (∀ u, u ∈ units → getSourceHash (ledger_of r) (keyPath u) = Some (sourceHash u))
  ∧ ∃ stats, outcome_of r = Returned stats
      ∧ Stats.totalUnits stats = length units
      ∧ Stats.translatedUnits stats = 0
      ∧ Stats.failedUnits stats = 0
      ∧ Stats.skippedUnits stats = Z.of_nat (length units)
      ∧ Stats.tokensIn stats = 0
      ∧ Stats.tokensOut stats = 0.
Proof.
  intros Hunits Hid Hnd Hhash Hrows r.
  assert (batches (planOf L units) = []) as Hplan.
  { destruct (batches (planOf L units)) as [|batch0 rest] eqn:Hb; [done|]. exfalso.
    assert (batches (planOf L units) ≠ []) as Hne by (by rewrite Hb).
    apply createPlan_batches_cons in Hne as (u & lang & Hu & Hlang & Hneeds).
    apply unitNeedsTranslation_recorded in Hneeds; [|by auto..].
    destruct (Hrows u lang Hu Hlang) as (s & Hs & Hf & Hd).
    destruct Hneeds as [Hnone|(s' & Hs' & Hst)]; [congruence|].
    assert (s' = s) as -> by congruence. tauto. }
  unfold r, sync. rewrite Hunits.
  unfold RunHistory.startRun. rewrite Hid, Hplan, decide_True by done.
  unfold files_of, ledger_of, outcome_of. cbn [fst snd].
  split_and!; [done|apply recordSourceHashes_sync_status| |].
  - intros u Hu. rewrite getSourceHash_recordSourceHashes by done.
    unfold str_or_null. rewrite decide_False; [done|by apply Hhash].
  - eexists. split; [done|]. by split_and!.
Qed.

(** *** Counting *)

Lemma units_of_concat batches :
  length (concat (map sourceUnits batches)) = units_of batches.
Proof.
  unfold units_of. induction batches as [|batch batches IH]; [done|].
  simpl. by rewrite length_app, IH.
Qed.

Lemma totalUnits_planOf L units :
  totalUnits (planOf L units) = units_of (batches (planOf L units)).
Proof.
  rewrite <- units_of_concat.
  by destruct (createPlan_size (computeHash env) (dateNow env) (recorded L units) units
                 (targetLanguages env)) as (_ & -> & _).
Qed.

(** [find] succeeds on the language of a batch of the plan. *)
Lemma find_targetLanguage (langs : list TargetLanguage) (code : string) :
  (∃ lang, lang ∈ langs ∧ shortCode lang = code) →
  ∃ lang, List.find (λ l, bool_decide (shortCode l = code)) langs = Some lang.
Proof.
  intros (lang & Hlang & Hcode).
  destruct (List.find _ langs) as [lang'|] eqn:Hfind; [by eexists|].
  apply list_elem_of_In in Hlang.
  pose proof (List.find_none _ _ Hfind lang Hlang) as Hf. simpl in Hf.
  by apply bool_decide_eq_false in Hf.
Qed.

(** A provider that rejects every request: each batch counts as failed and
    nothing else changes. *)
Lemma processBatches_rejected provider st b batches :
  (∀ n batch prompt, translate provider n batch prompt = None) →
  (∀ batch, batch ∈ batches →
     ∃ lang, lang ∈ targetLanguages env ∧ shortCode lang = targetLanguage batch) →
  processBatches env provider st b batches =
  {| ledger := ledger st; fs := fs st; statements := statements st;
     translatedUnits := translatedUnits st;
     failedUnits := failedUnits st + units_of batches;
     totalTokensIn := totalTokensIn st; totalTokensOut := totalTokensOut st |}.
Proof.
  intros Hreject. revert st b.
  induction batches as [|batch batches IH]; intros st b Hlangs; simpl.
  { unfold units_of. simpl. rewrite Nat.add_0_r. by destruct st. }
  rewrite IH by (intros batch' Hin; by apply Hlangs, list_elem_of_further).
  unfold processBatch.
  destruct (find_targetLanguage (targetLanguages env) (targetLanguage batch))
    as [lang ->]; [apply Hlangs, list_elem_of_here|].
  rewrite Hreject. unfold batchFailed, units_of. simpl. f_equal. lia.
Qed.

(** One result, for a unit of the batch, with a writer that does not fail. *)
Lemma processResult_served provider batch lang st i result u st' thrown :
  (∀ files path nested, (writeTranslations env files path nested).2 = true) →
  sourceUnits batch !! i = Some u →
  processResult env provider batch lang st i result = (st', thrown) →
  thrown = false
  ∧ translatedUnits st' + failedUnits st' = S (translatedUnits st + failedUnits st)
  ∧ totalTokensIn st' = totalTokensIn st ∧ totalTokensOut st' = totalTokensOut st
  ∧ ∃ s, getSyncStatus (ledger st') (keyPath u) (targetLanguage batch) = Some s
         ∧ committed env provider s.
Proof.
  intros Hwrite Hu. unfold processResult. rewrite Hu.
  destruct (negb _).
  { intros [= <- <-]. simpl. split_and!; [done|lia|done|done|].
    eexists. split; [apply getSyncStatus_update_eq|by left]. }
  pose proof (Hwrite (fs st) (getOutputPath env lang)
                (flatToNested env (keyPath u) (translatedText result))) as Hok.
  destruct (writeTranslations env _ _ _) as [fs' written]. simpl in Hok. subst written.
  intros [= <- <-]. simpl. split_and!; [done|lia|done|done|].
  eexists. split; [apply getSyncStatus_update_eq|].
  right. split_and!; [done|by eexists|done..].
Qed.

Lemma processResults_served provider batch lang st i results st' thrown :
  (∀ files path nested, (writeTranslations env files path nested).2 = true) →
  i + length results ≤ length (sourceUnits batch) →
  processResults env provider batch lang st i results = (st', thrown) →
  thrown = false
  ∧ translatedUnits st' + failedUnits st'
    = translatedUnits st + failedUnits st + length results
  ∧ totalTokensIn st' = totalTokensIn st ∧ totalTokensOut st' = totalTokensOut st
  ∧ ∀ j u, i ≤ j < i + length results → sourceUnits batch !! j = Some u →
      ∃ s, getSyncStatus (ledger st') (keyPath u) (targetLanguage batch) = Some s
           ∧ committed env provider s.
Proof.
  intros Hwrite. revert st i.
  induction results as [|result results IH]; intros st i Hlen; simpl.
  { intros [= <- <-]. split_and!; [done|lia|done|done|]. intros j u Hj. lia. }
  simpl in Hlen.
  destruct (lookup_lt_is_Some_2 (sourceUnits batch) i) as [u0 Hu0]; [lia|].
  destruct (processResult env provider batch lang st i result) as [st1 thrown1] eqn:Hstep.
  destruct (processResult_served _ _ _ _ _ _ _ _ _ Hwrite Hu0 Hstep)
    as (-> & Hcount1 & Hin1 & Hout1 & Hrow1).
  intros Hrest. pose proof Hrest as Hw%processResults_writes.
  apply IH in Hrest as (-> & Hcount & Hin & Hout & Hrows); [|lia].
  split_and!; [done|lia|congruence|congruence|].
  intros j u Hj Hu. destruct (decide (j = i)) as [->|Hne].
  - assert (u = u0) as -> by congruence. by eapply writes_within_keeps.
  - apply (Hrows j); [lia|done].
Qed.

(** A provider that answers every request with as many results as the
    batch has units, and a writer that does not fail. *)
Lemma processBatches_served provider st b batches :
  (∀ n batch prompt, ∃ results, translate provider n batch prompt = Some results
                                ∧ length results = length (sourceUnits batch)) →
  (∀ files path nested, (writeTranslations env files path nested).2 = true) →
  (∀ batch, batch ∈ batches →
     ∃ lang, lang ∈ targetLanguages env ∧ shortCode lang = targetLanguage batch) →
  let st' := processBatches env provider st b batches in
  translatedUnits st' + failedUnits st'
    = translatedUnits st + failedUnits st + units_of batches
  ∧ totalTokensIn st' = totalTokensIn st + units_of batches * 50
  ∧ totalTokensOut st' = totalTokensOut st + units_of batches * 50
  ∧ ∀ k l, in_batches batches k l →
      ∃ s, getSyncStatus (ledger st') k l = Some s ∧ committed env provider s.
Proof.
  intros Hanswer Hwrite. revert st b.
  induction batches as [|batch batches IH]; intros st b Hlangs; simpl.
  { unfold units_of. simpl. split_and!; [lia..|].
    intros k l (batch & Hin & _). by apply elem_of_nil in Hin. }
  destruct (IH (processBatch env provider st b batch) (S b))
    as (Hcount & Hin & Hout & Hrows).
  { intros batch' Hin. by apply Hlangs, list_elem_of_further. }
  pose proof (processBatches_writes provider (processBatch env provider st b batch) (S b)
                batches) as Hlater.
  revert Hcount Hin Hout Hrows Hlater.
  set (st1 := processBatch env provider st b batch).
  assert (translatedUnits st1 + failedUnits st1
            = translatedUnits st + failedUnits st + length (sourceUnits batch)
          ∧ totalTokensIn st1 = totalTokensIn st + length (sourceUnits batch) * 50
          ∧ totalTokensOut st1 = totalTokensOut st + length (sourceUnits batch) * 50
          ∧ ∀ u, u ∈ sourceUnits batch →
              ∃ s, getSyncStatus (ledger st1) (keyPath u) (targetLanguage batch) = Some s
                   ∧ committed env provider s) as (Hc1 & Hi1 & Ho1 & Hr1).
  { unfold st1, processBatch.
    destruct (find_targetLanguage (targetLanguages env) (targetLanguage batch))
      as [lang ->]; [apply Hlangs, list_elem_of_here|].
    destruct (Hanswer b batch
                {| system := getSystemPrompt env (language lang) (targetLanguage batch)
                               (sourceUnits batch);
                   user := getUserPrompt env (map sourceText (sourceUnits batch));
                   temperature := providerTemperature env |})
      as (results & -> & Hlen).
    destruct (processResults env provider batch lang st 0 results) as [st2 thrown] eqn:Hres.
    apply processResults_served in Hres as (-> & Hc & Hi & Ho & Hr); [|done|simpl; lia].
    simpl. split_and!; [lia..|].
    intros u [j Hj]%list_elem_of_lookup. apply (Hr j); [|done].
    apply lookup_lt_Some in Hj. lia. }
  intros Hcount Hin Hout Hrows Hlater.
  unfold units_of in *. simpl. split_and!; [lia..|].
  intros k l (batch' & [->|Hin']%elem_of_cons & Hkl).
  - destruct Hkl as [<- (u & Hu & <-)].
    eapply writes_within_keeps; [exact Hlater|by apply Hr1].
  - apply Hrows. by exists batch'.
Qed.

(** X17.  When the provider rejects every request, [sync] still returns:
    every planned unit counts as failed, nothing counts as translated, no
    tokens are counted, no file is written, and [sync_status] is as before
    the run: the failure leaves no [FAILED] row behind. *)
Theorem sync_rejected_requests (L : Ledger.t) (H : RunHistory.t) (files : FS)
    (units : list SourceUnit) (provider : LLMProvider) :
  extract env = Some units →
  H !! runId = None →
  createProvider env = Some provider →
  (∀ n batch prompt, translate provider n batch prompt = None) →
  let r := sync env L H files in
  files_of r = files
  ∧ sync_status (ledger_of r) = sync_status L
  ∧ ∃ stats, outcome_of r = Returned stats
      ∧ Stats.translatedUnits stats = 0
      ∧ Stats.failedUnits stats = totalUnits (planOf L units)
      ∧ Stats.skippedUnits stats
        = (Z.of_nat (length units) - Z.of_nat (totalUnits (planOf L units)))%Z
      ∧ Stats.tokensIn stats = 0
      ∧ Stats.tokensOut stats = 0.
Proof.
  intros Hunits Hid Hprovider Hreject r.
  rewrite totalUnits_planOf.
  unfold r, sync. rewrite Hunits.
  unfold RunHistory.startRun. rewrite Hid.
  destruct (batches (planOf L units)) as [|batch0 rest] eqn:Hb.
  { rewrite decide_True by done. unfold files_of, ledger_of, outcome_of. cbn [fst snd].
    split_and!; [done|apply recordSourceHashes_sync_status|].
    eexists. split; [done|]. unfold units_of. simpl. split_and!; [done..|lia|done|done]. }
  rewrite decide_False by done. rewrite Hprovider.
  rewrite processBatches_rejected; [|done|].
  2:{ intros batch Hin. rewrite <- Hb in Hin.
      by eapply createPlan_batch_language. }
  unfold files_of, ledger_of, outcome_of. cbn [fst snd ledger fs].
  split_and!; [done|apply recordSourceHashes_sync_status|].
  eexists. split; [done|]. cbn. split_and!; [done..|lia|done|done].
Qed.

(** X18.  When the provider answers every request with as many results as
    the batch has units and no write fails, [sync] returns with every
    planned unit counted once, as translated or as failed, with 50 tokens in
    and 50 out for each, and every planned pair has a row in one of the two
    shapes.  [skippedUnits] is the number of units minus the number of
    planned pairs, which is negative when more pairs are planned than there
    are units. *)
Theorem sync_answered_requests (L : Ledger.t) (H : RunHistory.t) (files : FS)
    (units : list SourceUnit) (provider : LLMProvider) :
  extract env = Some units →
  H !! runId = None →
  createProvider env = Some provider →
  (∀ n batch prompt, ∃ results, translate provider n batch prompt = Some results
                                ∧ length results = length (sourceUnits batch)) →
  (∀ files path nested, (writeTranslations env files path nested).2 = true) →
  let r := sync env L H files in
  (∃ stats, outcome_of r = Returned stats
     ∧ Stats.translatedUnits stats + Stats.failedUnits stats = totalUnits (planOf L units)
     ∧ Stats.skippedUnits stats
       = (Z.of_nat (length units) - Z.of_nat (totalUnits (planOf L units)))%Z
     ∧ Stats.tokensIn stats = totalUnits (planOf L units) * 50
     ∧ Stats.tokensOut stats = totalUnits (planOf L units) * 50)
  ∧ ∀ u l, plan_includes (planOf L units) u l →
      ∃ s, getSyncStatus (ledger_of r) (keyPath u) l = Some s ∧ committed env provider s.
Proof.
  intros Hunits Hid Hprovider Hanswer Hwrite r.
  rewrite totalUnits_planOf.
  unfold r, sync. rewrite Hunits.
  unfold RunHistory.startRun. rewrite Hid.
  destruct (batches (planOf L units)) as [|batch0 rest] eqn:Hb.
  { rewrite decide_True by done. unfold files_of, ledger_of, outcome_of. cbn [fst snd].
    split.
    - eexists. split; [done|]. unfold units_of. simpl. split_and!; [done|lia|done|done].
    - intros u l (batch & Hin & _). rewrite Hb in Hin. by apply elem_of_nil in Hin. }
  rewrite decide_False by done. rewrite Hprovider.
  destruct (processBatches_served provider (initial L units files) 0 (batch0 :: rest)
              Hanswer Hwrite) as (Hcount & Hin & Hout & Hrows).
  { intros batch Hbatch. rewrite <- Hb in Hbatch. by eapply createPlan_batch_language. }
  cbn [translatedUnits failedUnits totalTokensIn totalTokensOut] in Hcount, Hin, Hout.
  unfold files_of, ledger_of, outcome_of. cbn [fst snd].
  split.
  - eexists. split; [done|]. cbn [Stats.translatedUnits Stats.failedUnits
      Stats.skippedUnits Stats.tokensIn Stats.tokensOut].
    split_and!; lia.
  - intros u l (batch & Hbatch & Hl & Hu). apply Hrows.
    exists batch. rewrite Hb in Hbatch. split; [done|]. split; [done|by exists u].
Qed.

(** The ledger a run leaves when it gets as far as the provider. *)
Lemma ledger_of_sync L H files units provider :
  extract env = Some units →
  H !! runId = None →
  createProvider env = Some provider →
  ledger_of (sync env L H files)
  = ledger (processBatches env provider (initial L units files) 0
              (batches (planOf L units))).
Proof.
  intros Hunits Hid Hprovider. unfold sync. rewrite Hunits.
  unfold RunHistory.startRun. rewrite Hid.
  destruct (batches (planOf L units)) as [|batch0 rest] eqn:Hb.
  - by rewrite decide_True by done.
  - rewrite decide_False by done. by rewrite Hprovider.
Qed.

(** X19.  The run after a run.  After a run in which every request was
    answered with as many results as units and no write failed, a second
    extraction of the same units, with distinct key paths and non-empty
    hashes, plans exactly the pairs whose validation failed: nothing is
    translated twice, and nothing at all when no validation failed. *)
Theorem sync_then_plan (L : Ledger.t) (H : RunHistory.t) (files : FS)
    (units : list SourceUnit) (provider : LLMProvider) (n : nat) (run : string)
    (u : SourceUnit) (lang : TargetLanguage) :
  extract env = Some units →
  H !! runId = None →
  createProvider env = Some provider →
  (∀ n batch prompt, ∃ results, translate provider n batch prompt = Some results
                                ∧ length results = length (sourceUnits batch)) →
  (∀ files path nested, (writeTranslations env files path nested).2 = true) →
  NoDup (keyPath <$> units) →
  (∀ u, u ∈ units → sourceHash u ≠ "") →
  u ∈ units → lang ∈ targetLanguages env →
  let L' := ledger_of (sync env L H files) in
  plan_includes
    (createPlan (computeHash env) (dateNow env) (recordSourceHashes env L' n run units)
       units (targetLanguages env)) u (shortCode lang)
  ↔ ∃ s, getSyncStatus L' (keyPath u) (shortCode lang) = Some s ∧ status s = FAILED.
Proof.
  intros Hunits Hid Hprovider Hanswer Hwrite Hnd Hhash Hu Hlang L'.
  rewrite plan_includes_iff, elem_of_detectChanges.
  rewrite unitNeedsTranslation_recorded by auto.
  assert (∃ s, getSyncStatus L' (keyPath u) (shortCode lang) = Some s
               ∧ (status s = FAILED ∨ status s ≠ FAILED ∧ status s ≠ DIRTY))
    as (s & Hs & Hst).
  { unfold L'. rewrite (ledger_of_sync L H files units provider) by done.
    destruct (decide (unitNeedsTranslation (recorded L units) (shortCode lang) u = true))
      as [Hneeds|Hsettled].
    - assert (plan_includes (planOf L units) u (shortCode lang))
        as (batch & Hbatch & Hl & Hin).
      { apply plan_includes_iff. split; [by exists lang|].
        by apply elem_of_detectChanges. }
      destruct (processBatches_served provider (initial L units files) 0
                  (batches (planOf L units)) Hanswer Hwrite) as (_ & _ & _ & Hrows).
      { intros batch' Hbatch'. by eapply createPlan_batch_language. }
      destruct (Hrows (keyPath u) (shortCode lang)) as (s & Hs & Hc).
      { exists batch. split; [done|]. split; [done|by exists u]. }
      exists s. split; [done|].
      destruct Hc as [(-> & _)|(-> & _)]; [by left|by right].
    - pose proof (processBatches_writes provider (initial L units files) 0
                    (batches (planOf L units))) as [_ Hw].
      destruct (Hw (keyPath u) (shortCode lang)) as [Heq|[Hin _]].
      + rewrite Heq. cbn [ledger]. rewrite getSyncStatus_recordSourceHashes.
        rewrite unitNeedsTranslation_recorded in Hsettled by auto.
        destruct (getSyncStatus L (keyPath u) (shortCode lang)) as [s|] eqn:Hs.
        * exists s. split; [done|]. right. split; intros Hst; apply Hsettled; right;
            exists s; tauto.
        * exfalso. apply Hsettled. by left.
      + exfalso. apply Hsettled.
        destruct Hin as (batch & Hbatch & Hl & u' & Hu' & Hk).
        assert (plan_includes (planOf L units) u' (shortCode lang)) as Hinc
          by (by exists batch).
        apply plan_includes_iff in Hinc as [_ Hsel].
        apply elem_of_detectChanges in Hsel as [Hin' Hneeds].
        assert (u' = u) as ->; [|done].
        apply list_elem_of_lookup in Hin' as [i Hi]. apply list_elem_of_lookup in Hu as [j Hj].
        assert (i = j) as ->; [|congruence].
        eapply NoDup_lookup; [exact Hnd| |]; rewrite list_lookup_fmap.
        * by rewrite Hi.
        * rewrite Hj. simpl. by rewrite Hk. }
  rewrite Hs. split.
  - intros (_ & _ & [?|(s' & [= <-] & Hf)]); [done|].
    exists s. split; [done|]. destruct Hst as [?|[? ?]]; [done|]. tauto.
  - intros (s' & [= <-] & Hf). split; [by exists lang|]. split; [done|].
    right. exists s. split; [done|by left].
Qed.

End CompilerFacts.

(** ** Validation: validity, brand names *)

Section ValidityFacts.
Import Types Hash Validation ValidationSpec BrandSpec.

Lemma prefix_spec sub s :
  String.prefix sub s = true ↔ ∃ post, s = sub +:+ post.
Proof.
  revert s. induction sub as [|c sub IH]; intros s.
  - split; [intros _; by exists s|by destruct s].
  - destruct s as [|c' s]; simpl.
    + split; [done|]. intros [post Hpost]. by rewrite string_app_cons in Hpost.
    + destruct (decide (c = c')) as [->|Hne].
      * rewrite IH. split; intros [post Hpost]; exists post.
        -- by rewrite string_app_cons, <- Hpost.
        -- rewrite string_app_cons in Hpost. by injection Hpost.
      * split; [done|]. intros [post Hpost]. rewrite string_app_cons in Hpost.
        injection Hpost as Hc _. by destruct Hne.
Qed.

(** [includes] is the substring test. *)
Lemma includes_spec s sub : includes s sub = true ↔ occurs_in sub s.
Proof.
  unfold occurs_in. induction s as [|c s IH].
  - change (includes "" sub) with (String.prefix sub "" || false).
    rewrite orb_false_r, prefix_spec. split.
    + intros [post Hpost]. exists "", post. by rewrite string_app_nil_l.
    + intros (pre & post & Hs). destruct pre as [|c pre].
      * rewrite string_app_nil_l in Hs. by exists post.
      * by rewrite string_app_cons in Hs.
  - change (includes (String c s) sub) with (String.prefix sub (String c s) || includes s sub).
    rewrite orb_true_iff, prefix_spec, IH. split.
    + intros [[post Hpost]|(pre & post & Hs)].
      * exists "", post. by rewrite string_app_nil_l.
      * exists (String c pre), post. by rewrite string_app_cons, Hs.
    + intros (pre & post & Hs). destruct pre as [|c' pre].
      * left. rewrite string_app_nil_l in Hs. by exists post.
      * right. rewrite string_app_cons in Hs. injection Hs as _ Hs. by exists pre, post.
Qed.

Lemma whitespace_only_cases s : whitespace_only s ∨ ¬ whitespace_only s.
Proof.
  destruct (bool_decide (s = "") || bool_decide (String.length (trim s) = 0)) eqn:Hguard.
  - left. by apply stage1_guard.
  - right. rewrite <- stage1_guard. by rewrite Hguard.
Qed.

Section WithConfig.

Variable toFixed1 : float → string.
Variable numberToString : float → string.
Variable toLowerCase : string → string.
Variable config : Config.

Local Abbreviation validate := (Validation.validate toFixed1 numberToString toLowerCase config).
Local Abbreviation detectSourceLeakage := (Validation.detectSourceLeakage toLowerCase).

Lemma elem_of_validateBrandNames sourceUnit result w :
  w ∈ validateBrandNames config sourceUnit result ↔
  ∃ b, b ∈ default [] (brandNames config) ∧ w = missingBrandWarning b
       ∧ occurs_in b (sourceText sourceUnit) ∧ ¬ occurs_in b (translatedText result).
Proof.
  unfold validateBrandNames. cbv zeta. rewrite list_elem_of_omap. split.
  - intros (b & Hb & Hw).
    destruct (includes (sourceText sourceUnit) b) eqn:Hsrc; [|done].
    destruct (includes (translatedText result) b) eqn:Htr; [done|].
    injection Hw as <-. exists b. split_and!; [done|done|by apply includes_spec|].
    rewrite <- includes_spec. by rewrite Htr.
  - intros (b & Hb & -> & Hsrc%includes_spec & Htr). rewrite <- includes_spec in Htr.
    apply not_true_is_false in Htr.
    exists b. split; [done|]. by rewrite Hsrc, Htr.
Qed.

Lemma stage_brands_spec sourceUnit result ws :
  stage_brands config sourceUnit result ws
  = (ws ++ validateBrandNames config sourceUnit result)%list.
Proof.
  unfold stage_brands, validateBrandNames.
  destruct (brandNames config) as [[|b bs]|]; simpl; by rewrite ?app_nil_r.
Qed.

(** X20.  Brand names only warn.  On a text that is not blank, [validate]
    warns [MISSING_BRAND_NAME] for a name exactly when the name is
    configured, occurs in the source text and does not occur in the
    translated text (so never for the empty name); on a blank text it warns
    nothing.  Configurations that differ in [brandNames] only give the same
    [isValid], errors and confidence. *)
Theorem validate_brand_names (result : TranslationResult) (sourceUnit : SourceUnit) :
  let R := validate result sourceUnit in
  (whitespace_only (translatedText result) → warnings R = [])
  ∧ (¬ whitespace_only (translatedText result) →
       ∀ w, (w ∈ warnings R ∧ w_type w = "MISSING_BRAND_NAME") ↔
            (∃ b, b ∈ default [] (brandNames config) ∧ w = missingBrandWarning b
                  ∧ occurs_in b (sourceText sourceUnit)
                  ∧ ¬ occurs_in b (translatedText result)))
  ∧ (missingBrandWarning "" ∉ warnings R)
  ∧ ∀ config', same_but_brands config config' →
      let R' := Validation.validate toFixed1 numberToString toLowerCase config' result sourceUnit in
      isValid R' = isValid R ∧ errors R' = errors R ∧ confidence R' = confidence R.
Proof.
  intros R.
  assert (¬ whitespace_only (translatedText result) →
          ∀ w, (w ∈ warnings R ∧ w_type w = "MISSING_BRAND_NAME") ↔
               (∃ b, b ∈ default [] (brandNames config) ∧ w = missingBrandWarning b
                     ∧ occurs_in b (sourceText sourceUnit)
                     ∧ ¬ occurs_in b (translatedText result))) as Hbrands.
  { intros Hws w. unfold R. rewrite validate_nonempty by done. cbn [warnings].
    rewrite stage_brands_spec, elem_of_app, <- elem_of_validateBrandNames. split.
    - intros [[Hsem|Hbrand] Hty]; [|done].
      unfold validateSemantics in Hsem. cbv zeta in Hsem.
      destruct (PrimFloat.ltb _ _); [|by apply elem_of_nil in Hsem].
      apply list_elem_of_singleton in Hsem. by subst w.
    - intros Hw. split; [by right|].
      apply elem_of_validateBrandNames in Hw as (b & _ & -> & _). done. }
  split_and!; [|done| |].
  - intros Hws. unfold R. by rewrite validate_empty.
  - destruct (whitespace_only_cases (translatedText result)) as [Hws|Hws].
    + unfold R. rewrite validate_empty by done. apply not_elem_of_nil.
    + intros Hin.
      destruct (proj1 (Hbrands Hws _) (conj Hin eq_refl)) as (b & _ & Heq & _ & Hno).
      injection Heq as _ Hb. subst b.
      apply Hno. exists "", (translatedText result). by rewrite !string_app_nil_l.
  - intros config' (Hph & Hratio & Hleak) R'. unfold R', R.
    destruct (whitespace_only_cases (translatedText result)) as [Hws|Hws].
    + by rewrite !validate_empty.
    + rewrite !validate_nonempty by done. cbn [isValid errors confidence].
      unfold placeholderErrorsFound, semanticWarningsFound, leakageFound,
        validateSemantics.
      by rewrite Hph, Hratio, Hleak.
Qed.

(** X21.  Validity.  [validate] accepts a translation exactly when the text
    is not blank, the placeholder check is switched off or the placeholders
    of the text are those of the unit, and the leakage check is switched off
    or detects nothing; warnings never matter.  With the leakage check on, a
    text that equals the source text up to case and surrounding white space
    is rejected with [SOURCE_LEAKAGE]. *)
Theorem validate_isValid_iff (result : TranslationResult) (sourceUnit : SourceUnit) :
  let R := validate result sourceUnit in
  (isValid R = true ↔
     ¬ whitespace_only (translatedText result)
     ∧ (preservePlaceholders config = Some false
        ∨ ∀ p, p ∈ placeholders sourceUnit ↔ p ∈ extractPlaceholders (translatedText result))
     ∧ (preventSourceLeakage config = Some false
        ∨ detectSourceLeakage sourceUnit result = false))
  ∧ (¬ whitespace_only (translatedText result) →
     preventSourceLeakage config ≠ Some false →
     trim (toLowerCase (sourceText sourceUnit)) = trim (toLowerCase (translatedText result)) →
     isValid R = false ∧ sourceLeakageError ∈ errors R).
Proof.
  intros R. split.
  - unfold R.
    destruct (whitespace_only_cases (translatedText result)) as [Hws|Hws].
    { rewrite validate_empty by done. cbn [isValid]. by split; [|intros [? _]]. }
    rewrite validate_nonempty by done. cbn [isValid].
    rewrite bool_decide_eq_true, length_zero_iff_nil, app_nil.
    unfold leakageFound.
    split.
    + intros [Hph Hleak]. split_and!; [done| |].
      * destruct (decide (preservePlaceholders config ≠ Some false)) as [Hon|Hoff].
        -- right. by apply validatePlaceholders_nil_iff.
        -- left. by apply dec_stable.
      * destruct (decide (preventSourceLeakage config ≠ Some false)) as [Hon|Hoff].
        -- right. rewrite bool_decide_eq_true_2 in Hleak by done. simpl in Hleak.
           by destruct (detectSourceLeakage sourceUnit result).
        -- left. by apply dec_stable.
    + intros (_ & Hph & Hleak). split.
      * case_decide as Hon; [|done]. destruct Hph as [Hoff|Hsame]; [done|].
        by apply validatePlaceholders_nil_iff.
      * destruct Hleak as [Hoff|Hnone].
        -- rewrite bool_decide_eq_false_2; [done|]. by intros Hon.
        -- rewrite Hnone. by rewrite andb_false_r.
  - intros Hws Hon Hcopy. unfold R. rewrite validate_nonempty by done.
    cbn [isValid errors].
    assert (leakageFound toLowerCase config result sourceUnit = true) as ->.
    { unfold leakageFound, detectSourceLeakage. cbv zeta.
      rewrite bool_decide_eq_true_2 by done. by rewrite decide_True. }
    split.
    + apply bool_decide_eq_false. rewrite length_app. simpl. lia.
    + apply elem_of_app. right. apply list_elem_of_here.
Qed.

End WithConfig.

End ValidityFacts.

(** ** Providers: retrying with backoff *)

Section RetryFacts.
Import BaseLLMProvider.

Context {T E : Type}.
Variable fn : nat → T + E.
Variable maxRetries : Z.

Local Abbreviation retryWithBackoff := (BaseLLMProvider.retryWithBackoff fn maxRetries).

(** The delays from attempt [a] on double each time. *)
Lemma sum_delays (a m : nat) :
  foldr Z.add 0%Z (map (λ i, delay (a + i)) (seq 0 m))
  = ((2 ^ Z.of_nat m - 1) * delay a)%Z.
Proof.
  induction m as [|m IH].
  - simpl. lia.
  - rewrite seq_S, map_app, foldr_app. simpl.
    assert (∀ (l : list Z) (z : Z), foldr Z.add z l = (foldr Z.add 0 l + z)%Z) as Hshift.
    { clear. induction l as [|x l IH]; intros z; simpl; [lia|]. rewrite IH. lia. }
    rewrite Hshift, IH. unfold delay.
    rewrite !Nat2Z.inj_add, !Z.pow_add_r, Nat2Z.inj_succ, Z.pow_succ_r by lia. lia.
Qed.

(** From attempt [attempt], with [called] calls made: what one call of
    [retryWithBackoff] does when the fuel covers the retries left. *)
Lemma retryWithBackoff_from (fuel attempt called : nat) :
  Z.to_nat (maxRetries - Z.of_nat attempt) < fuel →
  ∃ r, retryWithBackoff fuel attempt called = Some r
    ∧ called < calls r ≤ called + S (Z.to_nat (maxRetries - Z.of_nat attempt))
    ∧ delays r = map (λ i, delay (attempt + i)) (seq 0 (calls r - S called))
    ∧ (∀ j, called ≤ j < calls r - 1 → ∃ e, fn j = inr e)
    ∧ fn (calls r - 1) = outcome r
    ∧ (∀ e, outcome r = inr e →
         calls r = called + S (Z.to_nat (maxRetries - Z.of_nat attempt))).
Proof.
  revert attempt called. induction fuel as [|fuel IH]; intros attempt called Hfuel; [lia|].
  simpl. destruct (fn called) as [value|error] eqn:Hcall.
  { eexists. split; [done|]. simpl. rewrite Nat.sub_0_r, Nat.sub_diag.
    split_and!; [lia|lia|done| |done|done]. intros j Hj. lia. }
  case_decide as Hlast.
  { eexists. split; [done|]. simpl. rewrite Nat.sub_0_r, Nat.sub_diag.
    split_and!; [lia|lia|done| |done|]; [intros j Hj; lia|].
    intros _ _. lia. }
  destruct (IH (S attempt) (S called)) as (r & -> & Hcalls & Hdelays & Hrej & Hout & Hthrown);
    [lia|].
  eexists. split; [done|]. simpl.
  assert (Z.to_nat (maxRetries - Z.of_nat attempt)
          = S (Z.to_nat (maxRetries - Z.of_nat (S attempt)))) as Hleft by lia.
  split_and!; [lia|lia| | |done|].
  - replace (calls r - S called) with (S (calls r - S (S called))) by lia.
    rewrite <- cons_seq, <- fmap_S_seq. simpl. rewrite Nat.add_0_r. f_equal.
    rewrite Hdelays, <- list_fmap_compose. apply list_fmap_ext. intros _ i _. simpl.
    f_equal. lia.
  - intros j Hj. destruct (decide (j = called)) as [->|Hne]; [by eexists|].
    apply Hrej. lia.
  - intros e He. rewrite (Hthrown e He). lia.
Qed.

(** X22.  [retryWithBackoff(fn)] with an integer [maxRetries] of at most
    1000: it ends after at most [max(maxRetries, 0) + 1] calls of [fn];
    every call but the last rejected; what it returns or throws is what the
    last call resolved or rejected with, and it throws only after all the
    calls allowed; the delays it asks the timer for between the calls are
    1000, 2000, 4000, ... milliseconds, in all [(2^(calls - 1) - 1) * 1000]. *)
Theorem retryWithBackoff_spec :
  (maxRetries ≤ 1000)%Z →
  let n := Z.to_nat maxRetries in
  ∃ r, (∀ fuel, n < fuel → retryWithBackoff fuel 0 0 = Some r)
    ∧ 1 ≤ calls r ≤ S n
    ∧ delays r = map delay (seq 0 (calls r - 1))
    ∧ foldr Z.add 0%Z (delays r) = ((2 ^ Z.of_nat (calls r - 1) - 1) * 1000)%Z
    ∧ (∀ j, j < calls r - 1 → ∃ e, fn j = inr e)
    ∧ fn (calls r - 1) = outcome r
    ∧ (∀ e, outcome r = inr e → calls r = S n).
Proof.
  intros _ n.
  destruct (retryWithBackoff_from (S n) 0 0) as (r & Hr & Hcalls & Hdelays & Hrej & Hout & Hthrown).
  { unfold n. lia. }
  replace (Z.to_nat (maxRetries - Z.of_nat 0)) with n in * by (unfold n; lia).
  exists r. split; [|split; [lia|split; [exact Hdelays|split; [|split; [|split; [done|]]]]]].
  - intros fuel Hfuel.
    destruct (retryWithBackoff_from fuel 0 0) as (r' & Hr' & _); [unfold n in *; lia|].
    rewrite Hr'. f_equal.
    clear -Hr Hr'. revert Hr Hr'. generalize 0 at 2 4 as called. generalize 0 as attempt.
    generalize (S n) as fuel'. revert r r'.
    induction fuel as [|fuel IH]; intros r r' [|fuel'] attempt called; simpl; [done..|].
    destruct (fn called); [congruence|]. case_decide; [congruence|].
    destruct (BaseLLMProvider.retryWithBackoff fn maxRetries fuel' (S attempt) (S called))
      as [r1|] eqn:H1; [|done].
    destruct (BaseLLMProvider.retryWithBackoff fn maxRetries fuel (S attempt) (S called))
      as [r2|] eqn:H2; [|done].
    intros [= <-] [= <-]. by rewrite (IH _ _ _ _ _ H1 H2).
  - rewrite Hdelays, (sum_delays 0). unfold delay. simpl. lia.
  - intros j Hj. apply Hrej. lia.
  - intros e He. rewrite (Hthrown e He). lia.
Qed.

End RetryFacts.

(** ** Reporting: the project statistics *)

Section ReportingFacts.
Import Ledger Types LedgerQueries Reporting.

Lemma foldl_addLanguage L langs coverage translatedCount failedTotal :
  foldl (addLanguage L) (coverage, translatedCount, failedTotal) langs
  = (foldl (λ c lang, <[label lang := translated (getLanguageStats L (shortCode lang))]> c)
       coverage langs,
     translatedCount
       + sum_list (map (λ lang, translated (getLanguageStats L (shortCode lang))) langs),
     failedTotal
       + sum_list (map (λ lang, failed (getLanguageStats L (shortCode lang))) langs)).
Proof.
  revert coverage translatedCount failedTotal.
  induction langs as [|lang langs IH]; intros coverage tc ft.
  - simpl. by rewrite !Nat.add_0_r.
  - cbn [foldl addLanguage]. rewrite IH. cbn [map sum_list_with foldr].
    unfold id. f_equal; [f_equal|]; lia.
Qed.

(** The rows one language counts, as one filter. *)
Lemma language_rows L code :
  translated (getLanguageStats L code) + failed (getLanguageStats L code)
  = size (filter (λ e : SyncEntry, entry_lang_code e = code ∧ entry_status e ≠ MANUAL
                                   ∧ entry_status e ≠ SKIPPED) (sync_status L)).
Proof.
  unfold getLanguageStats. cbn [translated failed].
  rewrite <- map_size_disj_union by apply translated_failed_disjoint.
  f_equal. apply map_eq. intros i. apply option_eq. intros row.
  rewrite lookup_union_Some by apply translated_failed_disjoint.
  rewrite !map_lookup_filter_Some.
  unfold is_translated, is_failed_or_dirty, entry_status, entry_lang_code. simpl.
  destruct (row_status row); intuition congruence.
Qed.

Lemma languages_rows L (codes : list string) :
  NoDup codes →
  sum_list (map (λ code, translated (getLanguageStats L code)
                         + failed (getLanguageStats L code)) codes)
  = size (filter (λ e : SyncEntry, entry_lang_code e ∈ codes ∧ entry_status e ≠ MANUAL
                                   ∧ entry_status e ≠ SKIPPED) (sync_status L)).
Proof.
  induction 1 as [|code codes Hfresh Hnd IH].
  - symmetry. apply map_size_empty_iff, map_empty. intros i.
    apply map_lookup_filter_None. right. intros row _ [Hin _].
    by apply elem_of_nil in Hin.
  - change (sum_list (map ?f (code :: codes))) with (f code + sum_list (map f codes)).
    cbv beta. rewrite IH, language_rows.
    assert (filter (λ e : SyncEntry, entry_lang_code e = code ∧ entry_status e ≠ MANUAL
                                     ∧ entry_status e ≠ SKIPPED) (sync_status L)
            ##ₘ filter (λ e : SyncEntry, entry_lang_code e ∈ codes ∧ entry_status e ≠ MANUAL
                                         ∧ entry_status e ≠ SKIPPED) (sync_status L))
      as Hdisj.
    { apply map_disjoint_spec.
      intros i x y [_ [Hx _]]%map_lookup_filter_Some [_ [Hy _]]%map_lookup_filter_Some.
      unfold entry_lang_code in *. simpl in *. apply Hfresh. by rewrite <- Hx. }
    rewrite <- map_size_disj_union by done.
    f_equal. apply map_eq. intros i. apply option_eq. intros row.
    rewrite lookup_union_Some by done.
    rewrite !map_lookup_filter_Some. simpl. rewrite elem_of_cons.
    unfold entry_lang_code. intuition congruence.
Qed.

Lemma sum_list_map_cons {A} (f : A → nat) (x : A) (l : list A) :
  sum_list (map f (x :: l)) = f x + sum_list (map f l).
Proof. reflexivity. Qed.

Lemma sum_over_codes L (langs : list TargetLanguage) :
  sum_list (map (λ lang, translated (getLanguageStats L (shortCode lang))) langs)
  + sum_list (map (λ lang, failed (getLanguageStats L (shortCode lang))) langs)
  = sum_list (map (λ code, translated (getLanguageStats L code)
                           + failed (getLanguageStats L code)) (shortCode <$> langs)).
Proof.
  induction langs as [|lang langs IH]; [done|].
  simpl in *. change (list_fmap _ _ shortCode langs) with (shortCode <$> langs). lia.
Qed.

Lemma coverage_lookup L langs (coverage : gmap string nat) lang :
  NoDup (label <$> langs) → lang ∈ langs →
  foldl (λ c lang, <[label lang := translated (getLanguageStats L (shortCode lang))]> c)
    coverage langs !! label lang
  = Some (translated (getLanguageStats L (shortCode lang))).
Proof.
  revert coverage. induction langs as [|lang0 langs IH] using rev_ind; intros coverage Hnd Hin.
  { by apply elem_of_nil in Hin. }
  rewrite foldl_app. simpl.
  rewrite fmap_app in Hnd. apply NoDup_app in Hnd as (Hnd & Hfresh & _).
  destruct (decide (label lang0 = label lang)) as [Heq|Hne].
  - apply elem_of_app in Hin as [Hin|Hin%list_elem_of_singleton].
    + exfalso. apply (Hfresh (label lang)).
      * apply list_elem_of_fmap. by exists lang.
      * simpl. rewrite <- Heq. apply list_elem_of_here.
    + subst lang0. by rewrite lookup_insert_eq.
  - rewrite lookup_insert_ne by done.
    apply elem_of_app in Hin as [Hin|Hin%list_elem_of_singleton]; [by apply IH|].
    by subst lang0.
Qed.

(** X23.  The project statistics of the report: for target languages with
    distinct codes the translated, failed and manually overridden strings
    are different rows of [sync_status], so together at most its size; the
    coverage table holds, under distinct labels, the translated count of
    each language; and the totals add up over the list as it is given, so a
    language listed twice is counted twice. *)
Theorem report_getProjectStats (L : Ledger.t) (langs : list TargetLanguage) :
  let stats := Reporting.getProjectStats L langs in
  (NoDup (shortCode <$> langs) →
     translatedStrings stats + failedStrings stats + manualOverrides stats
     ≤ size (sync_status L))
  ∧ (NoDup (label <$> langs) →
     ∀ lang, lang ∈ langs →
       languageCoverage stats !! label lang
       = Some (translated (getLanguageStats L (shortCode lang))))
  ∧ (∀ langs',
       translatedStrings (Reporting.getProjectStats L (langs ++ langs'))
       = translatedStrings stats + translatedStrings (Reporting.getProjectStats L langs')
       ∧ failedStrings (Reporting.getProjectStats L (langs ++ langs'))
         = failedStrings stats + failedStrings (Reporting.getProjectStats L langs')).
Proof.
  intros stats. unfold stats, Reporting.getProjectStats.
  rewrite foldl_addLanguage. cbn [translatedStrings failedStrings manualOverrides
    languageCoverage]. split_and!.
  - intros Hnd. rewrite !Nat.add_0_l, sum_over_codes, languages_rows by done.
    unfold LedgerQueries.getProjectStats. cbn [manual_count].
    rewrite <- map_size_disj_union.
    2:{ apply map_disjoint_spec.
        intros i x y [Hix (_ & Hx & _)]%map_lookup_filter_Some
          [Hiy Hy]%map_lookup_filter_Some.
        unfold is_manual, entry_status in *. simpl in *. congruence. }
    apply map_subseteq_size, map_union_least; apply map_filter_subseteq.
  - intros Hnd lang Hlang. by apply coverage_lookup.
  - intros langs'. rewrite !foldl_addLanguage.
    cbn [translatedStrings failedStrings]. rewrite !map_app, !sum_list_with_app. lia.
Qed.

End ReportingFacts.

(** ** Compiler: retrying failed items *)

Section RetryFailedFacts.
Import Ledger Types Planner Hash Validation ValidationSpec LedgerQueries Compiler CompilerSpec.
Import CompilerRetry RetrySpec.

Context {FS Nested : Type}.
Variable env : Env FS Nested.

(** The number of items in the groups. *)
Local Abbreviation grouped byLanguage :=
  (sum_list (map (λ entry : string * list FailedItem, length entry.2) byLanguage)).

(** *** Grouping *)

Lemma pushItem_grouped byLanguage item :
  grouped (pushItem byLanguage item) = S (grouped byLanguage).
Proof.
  induction byLanguage as [|[code items] rest IH]; simpl; [done|].
  case_decide; simpl.
  - rewrite length_app. simpl. lia.
  - simpl in IH. rewrite IH. lia.
Qed.

Lemma groupByLanguage_grouped failedItems :
  grouped (groupByLanguage failedItems) = length failedItems.
Proof.
  unfold groupByLanguage.
  assert (∀ acc, grouped (foldl pushItem acc failedItems)
                 = grouped acc + length failedItems) as Hgen.
  { induction failedItems as [|item items IH]; intros acc; simpl; [lia|].
    rewrite IH, pushItem_grouped. lia. }
  by rewrite Hgen.
Qed.

(** A group holds items of the list, all of its language. *)
Lemma pushItem_members byLanguage item code items x :
  (code, items) ∈ pushItem byLanguage item → x ∈ items →
  (x = item ∧ lang_code (fi_row item) = code)
  ∨ ∃ items', (code, items') ∈ byLanguage ∧ x ∈ items'.
Proof.
  induction byLanguage as [|[code0 items0] rest IH]; simpl.
  - intros Hin%list_elem_of_singleton Hx. injection Hin as -> ->.
    apply list_elem_of_singleton in Hx as ->. by left.
  - case_decide as Hcode.
    + intros [[= -> ->]|Hin]%elem_of_cons Hx.
      * apply elem_of_app in Hx as [Hx|Hx]; [|apply list_elem_of_singleton in Hx; by left].
        right. exists items0. split; [apply list_elem_of_here|done].
      * right. exists items. split; [by apply list_elem_of_further|done].
    + intros [[= -> ->]|Hin]%elem_of_cons Hx.
      * right. exists items0. split; [apply list_elem_of_here|done].
      * destruct (IH Hin Hx) as [?|(items' & Hin' & Hx')]; [by left|].
        right. exists items'. split; [by apply list_elem_of_further|done].
Qed.

Lemma groupByLanguage_members failedItems code items x :
  (code, items) ∈ groupByLanguage failedItems → x ∈ items →
  x ∈ failedItems ∧ lang_code (fi_row x) = code.
Proof.
  unfold groupByLanguage.
  assert (∀ acc, (code, items) ∈ foldl pushItem acc failedItems → x ∈ items →
                 (x ∈ failedItems ∧ lang_code (fi_row x) = code)
                 ∨ ∃ items', (code, items') ∈ acc ∧ x ∈ items') as Hgen.
  { induction failedItems as [|item rest IH]; intros acc; simpl.
    - intros Hin Hx. right. by exists items.
    - intros Hin Hx. destruct (IH _ Hin Hx) as [[Hrest Hl]|(items' & Hin' & Hx')].
      + left. split; [by apply list_elem_of_further|done].
      + destruct (pushItem_members _ _ _ _ _ Hin' Hx') as [[-> Hl]|Hacc]; [|by right].
        left. split; [apply list_elem_of_here|done]. }
  intros Hin Hx. destruct (Hgen [] Hin Hx) as [?|(items' & Hnil & _)]; [done|].
  by apply elem_of_nil in Hnil.
Qed.

(** *** Counting *)

Lemma retry_processResult_counts provider code units lang st i result st' thrown :
  CompilerRetry.processResult env provider code units lang st i result = (st', thrown) →
  (Z.of_nat (recovered st') + remaining st' = Z.of_nat (recovered st) + remaining st)%Z
  ∧ totalTokensIn st' = totalTokensIn st ∧ totalTokensOut st' = totalTokensOut st
  ∧ recovered st ≤ recovered st'
  ∧ (recovered st' = recovered st ∨ (recovered st' = S (recovered st) ∧ i < length units)).
Proof.
  unfold CompilerRetry.processResult.
  destruct (units !! i) as [u|] eqn:Hu.
  2:{ destruct (_ || _); intros [= <- <-]; split_and!; auto. }
  destruct (isValid _); [|intros [= <- <-]; split_and!; auto].
  destruct (writeTranslations env _ _ _) as [fs' written].
  destruct written; intros [= <- <-]; simpl; split_and!; auto; try lia.
  right. split; [done|]. by eapply lookup_lt_Some.
Qed.

Lemma retry_processResults_counts provider code units lang st i results st' thrown :
  CompilerRetry.processResults env provider code units lang st i results = (st', thrown) →
  (Z.of_nat (recovered st') + remaining st' = Z.of_nat (recovered st) + remaining st)%Z
  ∧ totalTokensIn st' = totalTokensIn st ∧ totalTokensOut st' = totalTokensOut st
  ∧ recovered st ≤ recovered st' ≤ recovered st + (length units - i).
Proof.
  revert st i. induction results as [|result results IH]; intros st i; simpl.
  { intros [= <- <-]. split_and!; auto; lia. }
  destruct (CompilerRetry.processResult env provider code units lang st i result)
    as [st1 thrown1] eqn:Hstep.
  apply retry_processResult_counts in Hstep as (Hsum & Hin & Hout & Hle & Hstep).
  destruct thrown1.
  - intros [= <- <-]. split_and!; auto; lia.
  - intros (Hsum' & Hin' & Hout' & Hle' & Hbound)%IH. split_and!; try congruence; lia.
Qed.

Lemma retry_processLanguage_counts st n entry :
  let st' := CompilerRetry.processLanguage env st n entry in
  (Z.of_nat (recovered st') + remaining st' = Z.of_nat (recovered st) + remaining st)%Z
  ∧ totalTokensIn st' + totalTokensOut st = totalTokensOut st' + totalTokensIn st
  ∧ recovered st ≤ recovered st' ≤ recovered st + length entry.2.
Proof.
  destruct entry as [code items]. unfold CompilerRetry.processLanguage. simpl.
  destruct (createProvider env) as [provider|]; [|split_and!; lia].
  destruct (List.find _ _) as [lang|]; [|split_and!; lia].
  destruct (translate provider n _ _) as [results|]; [|split_and!; lia].
  destruct (CompilerRetry.processResults env provider code (map retryUnit items) lang st 0
              results) as [st' thrown] eqn:Hres.
  apply retry_processResults_counts in Hres as (Hsum & Hin & Hout & Hle).
  rewrite length_map, Nat.sub_0_r in Hle.
  destruct thrown; simpl; split_and!; lia.
Qed.

Lemma retry_processLanguages_counts st n byLanguage :
  let st' := CompilerRetry.processLanguages env st n byLanguage in
  (Z.of_nat (recovered st') + remaining st' = Z.of_nat (recovered st) + remaining st)%Z
  ∧ totalTokensIn st' + totalTokensOut st = totalTokensOut st' + totalTokensIn st
  ∧ recovered st ≤ recovered st' ≤ recovered st + grouped byLanguage.
Proof.
  revert st n. induction byLanguage as [|entry rest IH]; intros st n; simpl.
  { split_and!; lia. }
  destruct (IH (CompilerRetry.processLanguage env st n entry) (S n)) as (Hsum & Htok & Hle).
  destruct (retry_processLanguage_counts st n entry) as (Hsum1 & Htok1 & Hle1).
  simpl in *. split_and!; lia.
Qed.

(** X24.  The accounts of [retryFailed]: what it reports as recovered and
    what it reports as remaining add up to the failed items it found, the
    recovered ones are at most that many, and the two token counts are
    equal.  Without a failed item, and in a dry run, it changes neither the
    ledger nor a file and reports nothing recovered and no tokens. *)
Theorem retryFailed_accounts (options : RetryOptions) (L : Ledger.t) (files : FS) :
  let found := length (getFailedItems L (lang options) (batch options)) in
  let r := retryFailed env options L files in
  (Z.of_nat (recoveredUnits r.2) + remainingFailed r.2 = Z.of_nat found)%Z
  ∧ recoveredUnits r.2 ≤ found
  ∧ tokensIn r.2 = tokensOut r.2
  ∧ (found = 0 ∨ default false (dryRun options) = true →
       r.1.1 = L ∧ r.1.2 = files ∧ recoveredUnits r.2 = 0
       ∧ tokensIn r.2 = 0 ∧ remainingFailed r.2 = Z.of_nat found).
Proof.
  intros found r. unfold r, retryFailed. fold found.
  destruct (decide (found = 0)) as [Hz|Hnz].
  { simpl. rewrite Hz. split_and!; auto with lia. }
  destruct (default false (dryRun options)) eqn:Hdry.
  { simpl. split_and!; auto with lia. }
  destruct (retry_processLanguages_counts
              {| ledger := L; fs := files; statements := 0; recovered := 0;
                 remaining := Z.of_nat found; totalTokensIn := 0; totalTokensOut := 0 |}
              0 (groupByLanguage (getFailedItems L (lang options) (batch options))))
    as (Hsum & Htok & Hle).
  rewrite groupByLanguage_grouped in Hle. fold found in Hle.
  simpl in *. split_and!; [lia|lia|lia|].
  intros [?|?]; [lia|done].
Qed.

(** *** Writes *)

(** A row as [retryFailed] writes it. *)
Local Abbreviation recommitted provider :=
  (λ s : SyncStatus, status s = CLEAN ∧ committed env provider s).

Lemma retry_processResult_writes provider code units lang st i result st' thrown :
  CompilerRetry.processResult env provider code units lang st i result = (st', thrown) →
  writes_within (λ k l, l = code ∧ ∃ u, u ∈ units ∧ keyPath u = k) (recommitted provider)
    (ledger st) (ledger st').
Proof.
  unfold CompilerRetry.processResult.
  destruct (units !! i) as [u|] eqn:Hu.
  2:{ destruct (_ || _); intros [= <- <-]; apply writes_within_refl. }
  destruct (isValid _); [|intros [= <- <-]; apply writes_within_refl].
  destruct (writeTranslations env _ _ _) as [fs' written].
  destruct written; intros [= <- <-]; simpl; [|apply writes_within_refl].
  apply writes_within_update.
  - split; [done|]. exists u. split; [by eapply list_elem_of_lookup_2|done].
  - split; [done|]. right. split_and!; [done|by eexists|done..].
Qed.

Lemma retry_processResults_writes provider code units lang st i results st' thrown :
  CompilerRetry.processResults env provider code units lang st i results = (st', thrown) →
  writes_within (λ k l, l = code ∧ ∃ u, u ∈ units ∧ keyPath u = k) (recommitted provider)
    (ledger st) (ledger st').
Proof.
  revert st i. induction results as [|result results IH]; intros st i; simpl.
  { intros [= <- <-]. apply writes_within_refl. }
  destruct (CompilerRetry.processResult env provider code units lang st i result)
    as [st1 thrown1] eqn:Hstep.
  apply retry_processResult_writes in Hstep.
  destruct thrown1.
  - by intros [= <- <-].
  - intros Hrest%IH. by eapply writes_within_trans.
Qed.

Lemma retry_processLanguages_writes provider st n byLanguage :
  createProvider env = Some provider →
  writes_within
    (λ k l, ∃ items item, (l, items) ∈ byLanguage ∧ item ∈ items
                          ∧ key_path (fi_row item) = k)
    (recommitted provider)
    (ledger st) (ledger (CompilerRetry.processLanguages env st n byLanguage)).
Proof.
  intros Hprovider. revert st n.
  induction byLanguage as [|[code items] rest IH]; intros st n; simpl.
  { apply writes_within_refl. }
  eapply writes_within_trans; [|eapply writes_within_mono; [|apply IH]].
  2:{ intros k l (items' & item & Hin & Hitem). exists items', item.
      split; [by apply list_elem_of_further|done]. }
  unfold CompilerRetry.processLanguage. rewrite Hprovider.
  destruct (List.find _ _) as [lang|]; [|apply writes_within_refl].
  destruct (translate provider n _ _) as [results|]; [|apply writes_within_refl].
  destruct (CompilerRetry.processResults env provider code _ lang st 0 results)
    as [st' thrown] eqn:Hres.
  apply retry_processResults_writes in Hres.
  eapply writes_within_mono; [|by destruct thrown].
  intros k l [-> (u & Hu & Hk)]. cbn [sourceUnits] in Hu.
  apply list_elem_of_fmap in Hu as (item & -> & Hitem).
  exists items, item. split; [apply list_elem_of_here|done].
Qed.

Lemma retry_processLanguages_no_provider st n byLanguage :
  createProvider env = None →
  CompilerRetry.processLanguages env st n byLanguage = st.
Proof.
  intros Hnone. revert st n.
  induction byLanguage as [|[code items] rest IH]; intros st n; simpl; [done|].
  rewrite IH. unfold CompilerRetry.processLanguage. by rewrite Hnone.
Qed.

(** X25.  What [retryFailed] does to the ledger: it leaves [source_hashes]
    alone, and a row of [sync_status] is left as it was, or it was [FAILED]
    (and of the language asked for, when one is given) and is now [CLEAN]
    with the hash of a text, the provider's fingerprint and the prompt
    version.  So no row is ever set to [FAILED] by a retry, and rows that
    were not [FAILED] are not touched. *)
Theorem retryFailed_ledger_writes (options : RetryOptions) (L : Ledger.t) (files : FS)
    (k l : string) :
  let L' := (retryFailed env options L files).1.1 in
  source_hashes L' = source_hashes L
  ∧ (getSyncStatus L' k l = getSyncStatus L k l
     ∨ ((∃ s, getSyncStatus L k l = Some s ∧ status s = FAILED)
        ∧ (∀ code, lang options = Some code → code ≠ "" → l = code)
        ∧ ∃ provider s', createProvider env = Some provider
            ∧ getSyncStatus L' k l = Some s' ∧ status s' = CLEAN
            ∧ committed env provider s')).
Proof.
  intros L'. unfold L', retryFailed.
  case_decide; [by split; [|left]|].
  destruct (default false (dryRun options)); [by split; [|left]|].
  cbn [fst snd].
  destruct (createProvider env) as [provider|] eqn:Hprovider.
  2:{ rewrite retry_processLanguages_no_provider by done. by split; [|left]. }
  pose proof (retry_processLanguages_writes provider
                {| ledger := L; fs := files; statements := 0; recovered := 0;
                   remaining :=
                     Z.of_nat (length (getFailedItems L (lang options) (batch options)));
                   totalTokensIn := 0; totalTokensOut := 0 |}
                0 (groupByLanguage (getFailedItems L (lang options) (batch options)))
                Hprovider) as [Hhashes Hw].
  split; [done|].
  destruct (Hw k l) as [Heq|[(items & item & Hgroup & Hitem & Hk) (s' & Hs' & Hclean & Hc)]];
    [by left|right].
  destruct (groupByLanguage_members _ _ _ _ Hgroup Hitem) as [Hfailed Hl].
  apply elem_of_getFailedItems in Hfailed as (Hrow & Hst & Hlang & _).
  rewrite Hk, Hl in Hrow. split_and!.
  - by exists (fi_row item).
  - intros code Hcode Hne. rewrite <- Hl. by apply Hlang.
  - by exists provider, s'.
Qed.

(** X26.  A retried unit has no placeholders and no source text.  So while
    the placeholder check is on, an answer with a placeholder in it is never
    accepted for a retried item, whatever the source text of the key was:
    each placeholder of the answer is reported as unexpected. *)
Theorem retryUnit_validation (item : FailedItem) (result : TranslationResult) :
  let R := validate (toFixed1 env) (numberToString env) (toLowerCase env) (validation env) result
             (retryUnit item) in
  (preservePlaceholders (validation env) ≠ Some false →
   extractPlaceholders (translatedText result) ≠ [] →
   isValid R = false)
  ∧ (preservePlaceholders (validation env) ≠ Some false →
     ¬ whitespace_only (translatedText result) →
     ∀ p, p ∈ extractPlaceholders (translatedText result) → extraPlaceholderError p ∈ errors R).
Proof.
  intros R. split.
  - intros Hon Hph. unfold R.
    destruct (whitespace_only_cases (translatedText result)) as [Hws|Hws].
    { by rewrite validate_empty. }
    rewrite validate_nonempty by done. cbn [isValid].
    apply bool_decide_eq_false. rewrite length_zero_iff_nil, app_nil.
    intros [Hnil _]. rewrite decide_True in Hnil by done.
    pose proof (proj1 (validatePlaceholders_nil_iff _ _) Hnil) as Hsame.
    destruct (extractPlaceholders (translatedText result)) as [|p ps] eqn:Hps; [done|].
    assert (p ∈ placeholders (retryUnit item)) as Hp
      by (apply Hsame, list_elem_of_here).
    by apply elem_of_nil in Hp.
  - intros Hon Hws p Hp. unfold R. rewrite validate_nonempty by done. cbn [errors].
    rewrite decide_True by done. apply elem_of_app. left.
    apply elem_of_validatePlaceholders. exists p. right. split_and!; [done|done|].
    simpl. apply not_elem_of_nil.
Qed.

(** *** What remains failed *)

Lemma length_getFailedItems L langCode batchId :
  length (getFailedItems L langCode batchId)
  = size (filter (is_failed_item langCode) (sync_status L)).
Proof. unfold getFailedItems. by rewrite length_fmap, length_map_to_list. Qed.

Lemma item_keys_getFailedItems L langCode batchId :
  item_key <$> getFailedItems L langCode batchId
  = (map_to_list (filter (is_failed_item langCode) (sync_status L))).*1.
Proof.
  unfold getFailedItems. rewrite <- list_fmap_compose.
  apply list_fmap_ext. by intros _ [[k l] row] _.
Qed.

(** Committing a failed item takes one from the failed items and leaves
    the other rows. *)
Lemma recover_one options L now k l th mf pv :
  still_failed (lang options) L (k, l) →
  let L' := updateSyncStatus L now k l th CLEAN mf pv in
  S (length (getFailedItems L' (lang options) (batch options)))
  = length (getFailedItems L (lang options) (batch options))
  ∧ ∀ key, key ≠ (k, l) → still_failed (lang options) L key →
           still_failed (lang options) L' key.
Proof.
  intros (row & Hrow & Hfailed) L'. split.
  - rewrite !length_getFailedItems. unfold L', updateSyncStatus. cbn [sync_status].
    rewrite map_filter_insert_False by (by intros [? _]).
    rewrite map_filter_delete.
    assert (filter (is_failed_item (lang options)) (sync_status L) !! (k, l) = Some row)
      as Hin by (by apply map_lookup_filter_Some).
    rewrite map_size_delete_Some by eauto.
    assert (size (filter (is_failed_item (lang options)) (sync_status L)) ≠ 0) as Hnz.
    { intros Hz%map_size_empty_iff. rewrite Hz in Hin. by rewrite lookup_empty in Hin. }
    lia.
  - intros key Hne (row' & Hrow' & Hfailed'). exists row'. split; [|done].
    unfold L', updateSyncStatus. cbn [sync_status]. by rewrite lookup_insert_ne.
Qed.

Lemma pending_failed_weaken options (st : RetryState FS) pending pending' :
  pending_failed options st (pending ++ pending') → pending_failed options st pending'.
Proof.
  intros (Hcount & Hnd & Hfailed). split_and!; [done|by apply NoDup_app in Hnd as (_ & _ & ?)|].
  intros key Hkey. apply Hfailed, elem_of_app. by right.
Qed.

Lemma retry_processResult_pending options provider code items later lang st i result
    st' thrown :
  (∀ item, item ∈ items → lang_code (fi_row item) = code) →
  pending_failed options st ((item_key <$> drop i items) ++ later) →
  CompilerRetry.processResult env provider code (map retryUnit items) lang st i result
    = (st', thrown) →
  pending_failed options st' ((item_key <$> drop (S i) items) ++ later).
Proof.
  intros Hcode Hinv. unfold CompilerRetry.processResult.
  rewrite list_lookup_fmap.
  destruct (items !! i) as [item|] eqn:Hitem; simpl.
  2:{ apply lookup_ge_None in Hitem.
      rewrite !drop_ge in * by lia.
      destruct (_ || _); by intros [= <- <-]. }
  rewrite (drop_S _ _ _ Hitem), fmap_cons in Hinv. simpl in Hinv.
  destruct (isValid _).
  2:{ intros [= <- <-]. by apply (pending_failed_weaken _ _ [item_key item]). }
  destruct (writeTranslations env _ _ _) as [fs' written].
  destruct written; intros [= <- <-].
  2:{ apply (pending_failed_weaken _ _ [item_key item]) in Hinv.
      destruct Hinv as (Hcount & Hnd & Hfailed). by split_and!. }
  destruct Hinv as (Hcount & Hnd & Hfailed).
  assert (item_key item = (key_path (fi_row item), code)) as Hkey.
  { unfold item_key. f_equal. apply Hcode. by eapply list_elem_of_lookup_2. }
  apply NoDup_cons in Hnd as [Hfresh Hnd].
  destruct (recover_one options (ledger st) (sqlNow env (statements st))
              (key_path (fi_row item)) code (computeHash env (translatedText result))
              (Some (getModelFingerprint provider)) (Some (getPromptVersion env)))
    as [Hone Hothers].
  { rewrite <- Hkey. apply Hfailed, list_elem_of_here. }
  split_and!; cbn [ledger remaining]; [lia|done|].
  intros key Hin. apply Hothers.
  - intros ->. apply Hfresh. by rewrite Hkey.
  - by apply Hfailed, list_elem_of_further.
Qed.

Lemma retry_processResults_pending options provider code items later lang st i results
    st' thrown :
  (∀ item, item ∈ items → lang_code (fi_row item) = code) →
  pending_failed options st ((item_key <$> drop i items) ++ later) →
  CompilerRetry.processResults env provider code (map retryUnit items) lang st i results
    = (st', thrown) →
  pending_failed options st' later.
Proof.
  intros Hcode. revert st i. induction results as [|result results IH]; intros st i Hinv; simpl.
  { intros [= <- <-]. by eapply pending_failed_weaken. }
  destruct (CompilerRetry.processResult env provider code (map retryUnit items) lang st i
              result) as [st1 thrown1] eqn:Hstep.
  eapply retry_processResult_pending in Hstep; [|done..].
  destruct thrown1.
  - intros [= <- <-]. by eapply pending_failed_weaken.
  - by apply IH.
Qed.

Lemma retry_processLanguage_pending options st n code items later :
  (∀ item, item ∈ items → lang_code (fi_row item) = code) →
  pending_failed options st ((item_key <$> items) ++ later) →
  pending_failed options (CompilerRetry.processLanguage env st n (code, items)) later.
Proof.
  intros Hcode Hinv. unfold CompilerRetry.processLanguage.
  destruct (createProvider env) as [provider|]; [|by eapply pending_failed_weaken].
  destruct (List.find _ _) as [lang|]; [|by eapply pending_failed_weaken].
  destruct (translate provider n _ _) as [results|]; [|by eapply pending_failed_weaken].
  destruct (CompilerRetry.processResults env provider code _ lang st 0 results)
    as [st' thrown] eqn:Hres.
  cbn [sourceUnits] in Hres.
  eapply (retry_processResults_pending options provider code items later) in Hres;
    [|done|by rewrite drop_0].
  destruct thrown; [done|]. destruct Hres as (Hcount & Hnd & Hfailed). by split_and!.
Qed.

Lemma retry_processLanguages_pending options st n byLanguage :
  (∀ code items item, (code, items) ∈ byLanguage → item ∈ items →
     lang_code (fi_row item) = code) →
  pending_failed options st (item_key <$> concat byLanguage.*2) →
  pending_failed options (CompilerRetry.processLanguages env st n byLanguage) [].
Proof.
  revert st n. induction byLanguage as [|[code items] rest IH]; intros st n Hcode Hinv.
  { done. }
  simpl. apply IH.
  - intros code' items' item Hin. apply Hcode. by apply list_elem_of_further.
  - apply retry_processLanguage_pending.
    + intros item. apply Hcode, list_elem_of_here.
    + simpl in Hinv. by rewrite fmap_app in Hinv.
Qed.

(** Grouping rearranges the items. *)
Lemma pushItem_concat byLanguage item :
  concat (pushItem byLanguage item).*2 ≡ₚ item :: concat byLanguage.*2.
Proof.
  induction byLanguage as [|[code items] rest IH]; simpl; [done|].
  case_decide; simpl.
  - rewrite <- app_assoc. simpl. symmetry. apply Permutation_middle.
  - rewrite IH. symmetry. apply Permutation_middle.
Qed.

Lemma groupByLanguage_concat failedItems :
  concat (groupByLanguage failedItems).*2 ≡ₚ failedItems.
Proof.
  unfold groupByLanguage.
  assert (∀ acc, concat (foldl pushItem acc failedItems).*2
                 ≡ₚ concat acc.*2 ++ failedItems) as Hgen.
  { induction failedItems as [|item items IH]; intros acc; simpl.
    - by rewrite app_nil_r.
    - rewrite IH, pushItem_concat. simpl. apply Permutation_middle. }
  by rewrite Hgen.
Qed.

(** X27.  What [retryFailed] reports as remaining is what is left: after the
    call the ledger holds exactly [remainingFailed] failed items for the
    same language option, so a second call finds that many. *)
Theorem retryFailed_remaining (options : RetryOptions) (L : Ledger.t) (files : FS) :
  let r := retryFailed env options L files in
  remainingFailed r.2
  = Z.of_nat (length (getFailedItems r.1.1 (lang options) (batch options))).
Proof.
  intros r. unfold r, retryFailed.
  case_decide as Hfound; [cbn [fst snd remainingFailed]; by rewrite Hfound|].
  destruct (default false (dryRun options)); [done|].
  cbn [fst snd remainingFailed].
  set (failedItems := getFailedItems L (lang options) (batch options)) in *.
  apply (retry_processLanguages_pending options
           {| ledger := L; fs := files; statements := 0; recovered := 0;
              remaining := Z.of_nat (length failedItems);
              totalTokensIn := 0; totalTokensOut := 0 |} 0 (groupByLanguage failedItems)).
  - intros code items item Hgroup Hitem.
    by destruct (groupByLanguage_members _ _ _ _ Hgroup Hitem).
  - split_and!; [done| |].
    + rewrite groupByLanguage_concat. unfold failedItems.
      rewrite item_keys_getFailedItems. apply NoDup_fst_map_to_list.
    + intros key. rewrite groupByLanguage_concat. unfold failedItems.
      rewrite item_keys_getFailedItems.
      intros ([key' row] & -> & Hin)%list_elem_of_fmap.
      apply elem_of_map_to_list, map_lookup_filter_Some in Hin as [Hrow Hfailed].
      by exists row.
Qed.

End RetryFailedFacts.

(** ** Compiler: the cost of a run that translates nothing *)

Section CostFacts.
Import Ledger Types Planner Compiler CompilerSpec.

Context {FS Nested : Type}.
Variable env : Env FS Nested.

(** The average over no units is [0 / 0]. *)
Lemma estimateCost_no_units batch :
  sourceUnits batch = [] → PrimFloat.is_nan (AnthropicProvider.estimateCost batch) = true.
Proof. intros Hnil. unfold AnthropicProvider.estimateCost. rewrite Hnil. reflexivity. Qed.

(** X28.  With the Anthropic provider's [estimateCost], which averages over
    the units of the batch it is given: a run that had something to
    translate and translated nothing reports a cost that is not a number,
    because [sync] asks for the cost of the first [translatedUnits] source
    units. *)
Theorem sync_cost_of_nothing (L : Ledger.t) (H : RunHistory.t) (files : FS)
    (units : list SourceUnit) (provider : LLMProvider) (stats : Stats.RunStatistics) :
  extract env = Some units →
  createProvider env = Some provider →
  (∀ batch, estimateCost provider batch = AnthropicProvider.estimateCost batch) →
  (∃ u lang, u ∈ units ∧ lang ∈ targetLanguages env
     ∧ unitNeedsTranslation
         (recordSourceHashes env L 1
            (RunHistory.makeRunId (runDateNow env) (randomSuffix env)) units)
         (shortCode lang) u = true) →
  outcome_of (sync env L H files) = Returned stats →
  Stats.translatedUnits stats = 0 →
  PrimFloat.is_nan (Stats.costEstimateUsd stats) = true.
Proof.
  intros Hunits Hprovider Hcost Hneeds.
  pose proof (proj2 (createPlan_batches_cons (computeHash env) (dateNow env) _ _ _) Hneeds)
    as Hplan.
  unfold sync. rewrite Hunits.
  destruct (RunHistory.startRun _ _ _ _ _ _) as [[H1 id]|] eqn:Hrun; [|done].
  apply startRun_Some in Hrun as [-> _].
  destruct (batches _) as [|batch0 rest] eqn:Hb; [done|].
  rewrite decide_False by done. rewrite Hprovider.
  unfold outcome_of. cbn [snd]. intros [= <-]. cbn [Stats.translatedUnits Stats.costEstimateUsd].
  intros ->. rewrite Hcost. by apply estimateCost_no_units.
Qed.

End CostFacts.

(** ** Extraction: the units of a JSON value *)

Section ExtractorFacts.
Import Types Hash Validation JsonExtractor ExtractorSpec.

(** Induction on a JSON value, with the hypothesis for every item of an
    array and every value of an object. *)
Lemma Json_values_ind (P : Json → Prop) :
  P JNull → (∀ b, P (JBool b)) → (∀ n, P (JNumber n)) → (∀ s, P (JString s)) →
  (∀ items, Forall P items → P (JArray items)) →
  (∀ properties, Forall (λ property, P property.2) properties → P (JObject properties)) →
  ∀ obj, P obj.
Proof.
  intros Hnull Hbool Hnumber Hstring Harray Hobject.
  fix IH 1.
  intros [| | | |items|properties];
    [exact Hnull|apply Hbool|apply Hnumber|apply Hstring|apply Harray|apply Hobject].
  - induction items as [|item items IHitems]; constructor; [apply IH|exact IHitems].
  - induction properties as [|[key value] properties IHproperties]; constructor;
      [apply IH|exact IHproperties].
Qed.

Lemma substring_length_le (n : nat) (s : string) :
  String.length (String.substring 0 n s) ≤ n.
Proof.
  revert s. induction n as [|n IH]; intros [|c s]; simpl; try lia.
  specialize (IH s). lia.
Qed.

(** *** Sorted lists *)

Lemma StronglySorted_impl_elem {A} (R R' : relation A) (l : list A) :
  (∀ a b, a ∈ l → b ∈ l → R a b → R' a b) → StronglySorted R l → StronglySorted R' l.
Proof.
  intros Himpl Hsorted. induction Hsorted as [|a l Hsorted IH Hall]; [constructor|].
  constructor.
  - apply IH. intros x y Hx Hy. apply Himpl; by apply list_elem_of_further.
  - rewrite Forall_forall in Hall |- *. intros b Hb.
    apply Himpl; [apply list_elem_of_here|by apply list_elem_of_further|by apply Hall].
Qed.

Lemma StronglySorted_fmap_elem {A B} (R : relation A) (R' : relation B) (f : A → B)
    (l : list A) :
  (∀ a b, a ∈ l → b ∈ l → R a b → R' (f a) (f b)) →
  StronglySorted R l → StronglySorted R' (f <$> l).
Proof.
  intros Himpl Hsorted.
  apply (StronglySorted_fmap f (λ a b, R' (f a) (f b))); [done|].
  by apply (StronglySorted_impl_elem R).
Qed.

(** *** [Object.entries] *)

#[local] Instance index_le_trans : Transitive index_le.
Proof. intros a b c. unfold index_le. lia. Qed.

#[local] Instance index_le_total : Total index_le.
Proof. intros a b. unfold index_le. lia. Qed.

Lemma size_nat_bound (x : N) : (x < 2 ^ N.of_nat (N.size_nat x))%N.
Proof.
  destruct x as [|p]; [done|]. simpl.
  pose proof (proj2 (Zpower2_Psize (Pos.size_nat p) p) (le_n _)) as H.
  lia.
Qed.

(** Reading the digits that [pretty] writes gives the number back. *)
Lemma pretty_N_go_decimal fuel x acc :
  (x < 2 ^ N.of_nat fuel)%N →
  ∃ k, ∀ a,
    foldl (λ n c, 10 * n + (c - 48))%N a (String.units (pretty_N_go fuel x acc))
    = foldl (λ n c, 10 * n + (c - 48))%N (a * 10 ^ k + x)%N (String.units acc).
Proof.
  revert x acc. induction fuel as [|fuel IH]; intros x acc Hx.
  - exists 0%N. intros a. simpl in *. f_equal. lia.
  - simpl. case_decide as Hz.
    + subst x. exists 0%N. intros a. f_equal. lia.
    + destruct (IH (x / 10)%N (String (48 + x mod 10)%N acc)) as [k Hk].
      { rewrite Nat2N.inj_succ, N.pow_succ_r' in Hx.
        apply N.Div0.div_lt_upper_bound. lia. }
      exists (N.succ k). intros a. rewrite Hk. cbn [foldl String.units]. f_equal.
      rewrite N.pow_succ_r'. pose proof (N.Div0.div_mod x 10) as Hdiv.
      revert Hdiv. generalize (10 ^ k)%N (x / 10)%N (x mod 10)%N.
      intros p q r Hdiv. lia.
Qed.

Lemma decimal_pretty (n : N) : decimal (pretty n) = n.
Proof.
  unfold pretty, pretty_N. case_decide as Hz; [by subst n|].
  destruct (pretty_N_go_decimal (N.size_nat n) n "" (size_nat_bound n)) as [k Hk].
  unfold decimal. rewrite Hk. simpl. lia.
Qed.

Lemma arrayIndex_spec key n : arrayIndex key = Some n ↔ array_index key n.
Proof.
  unfold arrayIndex, array_index. split.
  - case_decide as H; [|done]. intros [= <-]. destruct H as [H ?]. split; [done|lia].
  - intros [-> Hn]. rewrite decimal_pretty. rewrite decide_True; [done|]. split; [done|lia].
Qed.

Lemma arrayIndex_Some key n : arrayIndex key = Some n → key = pretty n.
Proof. by intros [? _]%arrayIndex_spec. Qed.

Lemma arrayIndex_None key : arrayIndex key = None ↔ ¬ ∃ n, array_index key n.
Proof.
  split.
  - intros E [n Hn%arrayIndex_spec]. congruence.
  - intros Hno. destruct (arrayIndex key) as [n|] eqn:E; [|done].
    destruct Hno. exists n. by apply arrayIndex_spec.
Qed.

(** The order of the keys, computed. *)
Lemma key_before_cases properties key key' :
  key_before properties key key' ↔
  match arrayIndex key, arrayIndex key' with
  | Some n, Some n' => (n < n')%N
  | Some _, None => True
  | None, Some _ => False
  | None, None => created_before properties key key'
  end.
Proof.
  unfold key_before.
  destruct (arrayIndex key) as [n|] eqn:E; destruct (arrayIndex key') as [n'|] eqn:E'.
  - apply arrayIndex_spec in E as Hn. apply arrayIndex_spec in E' as Hn'. split.
    + intros [(m & m' & Hm & Hm' & Hlt)|[[_ Hno]|[Hno _]]].
      * apply arrayIndex_spec in Hm, Hm'. congruence.
      * destruct Hno. by exists n'.
      * destruct Hno. by exists n.
    + intros Hlt. left. by exists n, n'.
  - apply arrayIndex_spec in E as Hn. apply arrayIndex_None in E' as Hno'. split; [done|].
    intros _. right. left. split; [by exists n|done].
  - apply arrayIndex_None in E as Hno. apply arrayIndex_spec in E' as Hn'. split; [|done].
    intros [(m & m' & Hm & _)|[[Hyes _]|[_ [Hno' _]]]].
    + destruct Hno. by exists m.
    + done.
    + destruct Hno'. by exists n'.
  - apply arrayIndex_None in E as Hno. apply arrayIndex_None in E' as Hno'. split.
    + intros [(m & m' & Hm & _)|[[Hyes _]|(_ & _ & Hc)]]; [|done..].
      destruct Hno. by exists m.
    + intros Hc. right. right. done.
Qed.

Lemma elem_of_indexed (properties : list (string * Json)) n property :
  (n, property) ∈ omap (λ property, (λ n, (n, property)) <$> arrayIndex property.1) properties
  ↔ property ∈ properties ∧ arrayIndex property.1 = Some n.
Proof.
  rewrite list_elem_of_omap. split.
  - intros (q & Hq & Hf). destruct (arrayIndex q.1) as [m|] eqn:E; [|done].
    simpl in Hf. by injection Hf as <- <-.
  - intros [Hp E]. exists property. split; [done|]. by rewrite E.
Qed.

(** The entries are the properties. *)
Lemma elem_of_Object_entries properties property :
  property ∈ Object_entries properties ↔ property ∈ properties.
Proof.
  unfold Object_entries. cbv zeta.
  rewrite elem_of_app, list_elem_of_fmap, list_elem_of_filter. split.
  - intros [([n q] & -> & Hin)|[_ ?]]; [|done].
    rewrite merge_sort_Permutation in Hin. by apply elem_of_indexed in Hin as [? _].
  - intros Hp. destruct (arrayIndex property.1) as [n|] eqn:E; [left|by right].
    exists (n, property). split; [done|].
    rewrite merge_sort_Permutation. by apply elem_of_indexed.
Qed.

Lemma indexed_NoDup (properties : list (string * Json)) :
  NoDup properties.*1 →
  NoDup (omap (λ property, (λ n, (n, property)) <$> arrayIndex property.1) properties).*1.
Proof.
  induction properties as [|q properties IH]; [constructor|].
  rewrite fmap_cons, NoDup_cons. intros [Hq Hnd]. simpl.
  destruct (arrayIndex q.1) as [n|] eqn:E; simpl; [|by apply IH].
  apply NoDup_cons. split; [|by apply IH].
  intros ([n' q'] & Hn & Hin)%list_elem_of_fmap. simpl in Hn. subst n'.
  apply elem_of_indexed in Hin as [Hq' E'].
  apply Hq. apply list_elem_of_fmap. exists q'. split; [|done].
  apply arrayIndex_Some in E, E'. congruence.
Qed.

Lemma sorted_indices (l : list (N * (string * Json))) :
  StronglySorted index_le l → NoDup l.*1 → StronglySorted (λ a b, (a.1 < b.1)%N) l.
Proof.
  induction 1 as [|a l Hsorted IH Hall]; [constructor|].
  rewrite fmap_cons, NoDup_cons. intros [Ha Hnd].
  constructor; [by apply IH|].
  rewrite Forall_forall in Hall |- *. intros b Hb.
  specialize (Hall b Hb). unfold index_le in Hall.
  assert (a.1 ≠ b.1) as Hne.
  { intros Heq. apply Ha. rewrite Heq. by apply list_elem_of_fmap_2. }
  lia.
Qed.

Lemma filter_creation_order (P : string * Json → Prop) `{∀ x, Decision (P x)}
    (properties : list (string * Json)) :
  StronglySorted (λ a b, ∃ i j, i < j ∧ properties.*1 !! i = Some a.1
                                ∧ properties.*1 !! j = Some b.1)
                 (filter P properties).
Proof.
  induction properties as [|q properties IH]; [constructor|].
  assert (StronglySorted
            (λ a b, ∃ i j, i < j ∧ (q :: properties).*1 !! i = Some a.1
                           ∧ (q :: properties).*1 !! j = Some b.1)
            (filter P properties)) as Htail.
  { eapply StronglySorted_impl_elem; [|exact IH].
    intros a b _ _ (i & j & Hij & Hi & Hj). exists (S i), (S j). split; [lia|done]. }
  rewrite filter_cons. case_decide; [|done].
  constructor; [done|]. apply Forall_forall. intros b [_ Hb]%list_elem_of_filter.
  apply (list_elem_of_fmap_2 fst) in Hb. apply list_elem_of_lookup in Hb as [j Hj].
  exists 0, (S j). split; [lia|done].
Qed.

(** The entries come in the order of the keys. *)
Lemma Object_entries_sorted properties :
  NoDup properties.*1 →
  StronglySorted (λ a b, key_before properties a.1 b.1) (Object_entries properties).
Proof.
  intros Hnd. unfold Object_entries. cbv zeta.
  apply StronglySorted_app_2.
  - intros a b ([n q] & -> & Hin)%list_elem_of_fmap [Hb _]%list_elem_of_filter.
    rewrite merge_sort_Permutation in Hin. apply elem_of_indexed in Hin as [_ E].
    apply key_before_cases. simpl. by rewrite E, Hb.
  - eapply StronglySorted_fmap_elem;
      [|apply sorted_indices;
         [apply (StronglySorted_merge_sort _)
         |rewrite merge_sort_Permutation; by apply indexed_NoDup]].
    intros [n q] [n' q']. rewrite !merge_sort_Permutation.
    intros [_ E]%elem_of_indexed [_ E']%elem_of_indexed Hlt. simpl in *.
    apply key_before_cases. by rewrite E, E'.
  - eapply StronglySorted_impl_elem; [|apply filter_creation_order].
    intros a b [Ha _]%list_elem_of_filter [Hb _]%list_elem_of_filter Hij.
    apply key_before_cases. by rewrite Ha, Hb.
Qed.

(** The items of an array come in the order of their indices. *)
Lemma imap_index_order (items : list Json) (first : nat) :
  StronglySorted (λ a b, ∃ i j, i < j ∧ a.1 = pretty i ∧ b.1 = pretty j)
                 (imap (λ index item, (pretty (first + index), item)) items).
Proof.
  revert first. induction items as [|item items IH]; intros first; [constructor|].
  rewrite imap_cons. constructor.
  - erewrite imap_ext; [apply (IH (S first))|].
    intros i x _. simpl. by rewrite Nat.add_succ_r.
  - apply Forall_forall. intros b (i & x & -> & _)%elem_of_lookup_imap.
    exists (first + 0), (first + S i). simpl. split; [lia|done].
Qed.

Variable computeHash : string → string.
Variable extractContextForKey : string → option string.

Local Abbreviation createSourceUnit :=
  (JsonExtractor.createSourceUnit computeHash extractContextForKey).
Local Abbreviation extractFromObject :=
  (JsonExtractor.extractFromObject computeHash extractContextForKey).
Local Abbreviation extractFromObject_rec :=
  (JsonExtractor.extractFromObject_rec computeHash extractContextForKey).
Local Abbreviation unit_of file prefix keyPath :=
  (λ found : list string * string,
     createSourceUnit (fullKeyPath prefix (keyPath ++ found.1)) found.2 file).

(** *** The units of the children of an array or an object *)

Lemma children_units (K : relation string) fuel file prefix keyPath
    (children : list (string * Json)) :
  Forall (λ child,
            ∃ found,
              extractFromObject_rec fuel child.2 (keyPath ++ [child.1]) file prefix
              = unit_of file prefix (keyPath ++ [child.1]) <$> found
              ∧ (∀ path text, (path, text) ∈ found ↔ string_at child.2 path text)
              ∧ StronglySorted (λ a b, path_before child.2 a.1 b.1) found) children →
  StronglySorted (λ a b, K a.1 b.1) children →
  ∃ found,
    concat (map (λ '(key, value),
                   extractFromObject_rec fuel value (keyPath ++ [key]) file prefix) children)
    = unit_of file prefix keyPath <$> found
    ∧ (∀ path text,
         (path, text) ∈ found ↔
         ∃ key value path', path = key :: path' ∧ (key, value) ∈ children
                            ∧ string_at value path' text)
    ∧ StronglySorted
        (λ a b, ∃ key key' path path',
                  a.1 = key :: path ∧ b.1 = key' :: path'
                  ∧ (K key key'
                     ∨ key = key' ∧ ∃ value, (key, value) ∈ children
                                             ∧ path_before value path path')) found.
Proof.
  induction children as [|[key value] children IH]; intros Hall Hsorted.
  - exists []. split_and!; [done| |constructor].
    intros path text. split; [by intros ?%elem_of_nil|].
    by intros (? & ? & ? & _ & ?%elem_of_nil & _).
  - apply Forall_cons in Hall as [(found1 & Hunits & Hmem & Hsort) Hall].
    apply StronglySorted_inv in Hsorted as [Hsorted Hhead].
    destruct (IH Hall Hsorted) as (found2 & Hunits2 & Hmem2 & Hsort2).
    simpl in Hunits, Hmem, Hsort.
    exists (((λ found, (key :: found.1, found.2)) <$> found1) ++ found2).
    split_and!.
    + simpl. rewrite Hunits, Hunits2, fmap_app, <- list_fmap_compose. f_equal.
      apply list_fmap_ext. intros _ [path text] _. simpl. by rewrite <- app_assoc.
    + intros path text. rewrite elem_of_app, list_elem_of_fmap, Hmem2. split.
      * intros [([path' text'] & [= -> ->] & Hin)|(key' & value' & path' & -> & Hin & Hat)].
        -- exists key, value, path'. split_and!; [done|apply list_elem_of_here|].
           by apply Hmem.
        -- exists key', value', path'. split_and!; [done|by apply list_elem_of_further|done].
      * intros (key' & value' & path' & -> & [[= -> ->]|Hin]%elem_of_cons & Hat).
        -- left. exists (path', text). split; [done|]. by apply Hmem.
        -- right. by exists key', value', path'.
    + apply StronglySorted_app_2.
      * intros a [path text] ([path1 text1] & -> & _)%list_elem_of_fmap
          (key' & value' & path' & -> & Hin & _)%Hmem2.
        rewrite Forall_forall in Hhead. specialize (Hhead _ Hin). simpl in Hhead.
        exists key, key', path1, path'. split_and!; [done|done|by left].
      * apply (StronglySorted_fmap _ (λ a b, path_before value a.1 b.1)); [|done].
        intros [path1 text1] [path2 text2] Hbefore. simpl in *.
        exists key, key, path1, path2. split_and!; [done|done|right].
        split; [done|]. exists value. split; [apply list_elem_of_here|done].
      * eapply StronglySorted_impl_elem; [|exact Hsort2].
        intros a b _ _ (k & k' & p & q & Ha & Hb & Hor).
        exists k, k', p, q. split_and!; [done|done|].
        destruct Hor as [?|(-> & v & Hv & Hbefore)]; [by left|right].
        split; [done|]. exists v. split; [by apply list_elem_of_further|done].
Qed.

(** *** Enough fuel: the recursion is as deep as the value *)

Lemma depth_item items item : item ∈ items → depth item < depth (JArray items).
Proof.
  intros Hin. simpl. apply Nat.lt_succ_r, max_list_elem_of_le.
  change (map depth items) with (depth <$> items). by apply list_elem_of_fmap_2.
Qed.

Lemma depth_property properties key value :
  (key, value) ∈ properties → depth value < depth (JObject properties).
Proof.
  intros Hin. simpl. apply Nat.lt_succ_r, max_list_elem_of_le.
  change (map ?f properties) with (f <$> properties).
  apply list_elem_of_fmap. by exists (key, value).
Qed.

Lemma distinct_names_item items item :
  distinct_names (JArray items) = true → item ∈ items → distinct_names item = true.
Proof.
  simpl. rewrite forallb_forall. intros Hall Hin. by apply Hall, list_elem_of_In.
Qed.

Lemma distinct_names_property properties key value :
  distinct_names (JObject properties) = true → (key, value) ∈ properties →
  NoDup properties.*1 ∧ distinct_names value = true.
Proof.
  simpl. rewrite andb_true_iff, bool_decide_eq_true, forallb_forall.
  intros [Hnd Hall] Hin. split; [done|].
  by apply (Hall (key, value)), list_elem_of_In.
Qed.

(** No path comes before itself. *)
Lemma pretty_nat_inj (i j : nat) : pretty i = pretty j → i = j.
Proof.
  intros Heq. apply (f_equal decimal) in Heq.
  unfold pretty, pretty_nat in Heq. rewrite !decimal_pretty in Heq. lia.
Qed.

Lemma path_before_irrefl obj path path' :
  path_before obj path path' → distinct_names obj = true → path ≠ path'.
Proof.
  induction 1 as [items i j path path' Hij|items i item path path' Hi Hbefore IH
                 |properties key key' path path' Hkeys
                 |properties key value path path' Hin Hbefore IH]; intros Hwf Heq.
  - injection Heq as Heq _. apply pretty_nat_inj in Heq. lia.
  - injection Heq as Heq. apply IH; [|done].
    eapply distinct_names_item; [done|]. by eapply list_elem_of_lookup_2.
  - injection Heq as <- _. apply key_before_cases in Hkeys.
    destruct (arrayIndex key) as [n|]; [lia|].
    destruct Hkeys as (i & j & Hij & Hi & Hj).
    simpl in Hwf. apply andb_true_iff in Hwf as [Hnd%bool_decide_eq_true _].
    pose proof (NoDup_lookup _ _ _ _ Hnd Hi Hj). lia.
  - injection Heq as Heq. apply IH; [|done].
    by eapply distinct_names_property.
Qed.

Lemma sorted_paths_NoDup obj (found : list (list string * string)) :
  distinct_names obj = true →
  StronglySorted (λ a b, path_before obj a.1 b.1) found → NoDup found.*1.
Proof.
  intros Hwf. induction 1 as [|a found Hsorted IH Hall]; [constructor|].
  rewrite fmap_cons. apply NoDup_cons. split; [|done].
  intros (b & Heq & Hb)%list_elem_of_fmap.
  rewrite Forall_forall in Hall. by apply (path_before_irrefl obj a.1 b.1); [apply Hall| |].
Qed.

(** The units are those of the strings in the value, in the order of the
    paths. *)
Lemma extractFromObject_rec_found obj :
  ∀ fuel keyPath file prefix,
    depth obj < fuel → distinct_names obj = true →
    ∃ found,
      extractFromObject_rec fuel obj keyPath file prefix
      = unit_of file prefix keyPath <$> found
      ∧ (∀ path text, (path, text) ∈ found ↔ string_at obj path text)
      ∧ StronglySorted (λ a b, path_before obj a.1 b.1) found.
Proof.
  induction obj as [| | |s|items IH|properties IH] using Json_values_ind;
    intros fuel keyPath file prefix Hfuel Hwf; (destruct fuel as [|fuel]; [lia|]).
  - exists []. split_and!; [done| |constructor].
    intros path text. split; [by intros ?%elem_of_nil|inversion 1].
  - exists []. split_and!; [done| |constructor].
    intros path text. split; [by intros ?%elem_of_nil|inversion 1].
  - exists []. split_and!; [done| |constructor].
    intros path text. split; [by intros ?%elem_of_nil|inversion 1].
  - exists [([], s)]. split_and!.
    + simpl. by rewrite app_nil_r.
    + intros path text. rewrite list_elem_of_singleton. split.
      * intros [= -> ->]. constructor.
      * by inversion 1.
    + repeat constructor.
  - set (children := imap (λ index item, (pretty (0 + index), item)) items).
    assert (∀ key value, (key, value) ∈ children ↔
              ∃ i, key = pretty i ∧ items !! i = Some value) as Hchildren.
    { intros key value. unfold children. rewrite elem_of_lookup_imap. split.
      - intros (i & x & [= -> ->] & Hi). by exists i.
      - intros (i & -> & Hi). by exists i, value. }
    destruct (children_units (λ k k', ∃ i j, i < j ∧ k = pretty i ∧ k' = pretty j)
                fuel file prefix keyPath children)
      as (found & Hunits & Hmem & Hsort).
    { apply Forall_forall. intros [key value] (i & -> & Hi)%Hchildren. simpl.
      apply list_elem_of_lookup_2 in Hi.
      rewrite Forall_forall in IH. apply IH; [done| |by eapply distinct_names_item].
      apply depth_item in Hi. lia. }
    { apply imap_index_order. }
    exists found. split_and!.
    + rewrite <- Hunits. simpl. f_equal. unfold children.
      change (map ?f ?l) with (f <$> l). by rewrite fmap_imap.
    + intros path text. rewrite Hmem. split.
      * intros (key & value & path' & -> & (i & -> & Hi)%Hchildren & Hat).
        by eapply at_item.
      * inversion 1 as [|? index item path' ? Hi Hat|]; subst.
        exists (pretty index), item, path'. split_and!; [done| |done].
        apply Hchildren. by exists index.
    + eapply StronglySorted_impl_elem; [|exact Hsort].
      intros a b _ _ (k & k' & p & q & -> & -> & Hor).
      destruct Hor as [(i & j & Hij & -> & ->)|(-> & v & (i & -> & Hi)%Hchildren & Hbefore)].
      * by apply before_items.
      * by eapply before_item.
  - destruct (children_units (key_before properties) fuel file prefix keyPath
                (Object_entries properties))
      as (found & Hunits & Hmem & Hsort).
    { apply Forall_forall. intros [key value] Hin. simpl.
      rewrite elem_of_Object_entries in Hin. rewrite Forall_forall in IH.
      apply (IH (key, value)); [done| |].
      - apply depth_property in Hin. simpl. lia.
      - by eapply distinct_names_property. }
    { apply Object_entries_sorted. simpl in Hwf.
      by apply andb_true_iff in Hwf as [Hnd%bool_decide_eq_true _]. }
    exists found. split_and!.
    + by rewrite <- Hunits.
    + intros path text. rewrite Hmem. split.
      * intros (key & value & path' & -> & Hin & Hat).
        rewrite elem_of_Object_entries in Hin. by eapply at_property.
      * inversion 1 as [| |? key value path' ? Hin Hat]; subst.
        exists key, value, path'. split_and!; [done| |done].
        by apply elem_of_Object_entries.
    + eapply StronglySorted_impl_elem; [|exact Hsort].
      intros a b _ _ (k & k' & p & q & -> & -> & Hor).
      destruct Hor as [Hk|(-> & v & Hin & Hbefore)].
      * by apply before_keys.
      * rewrite elem_of_Object_entries in Hin. by eapply before_property.
Qed.

(** An empty key prefix is no prefix. *)
Lemma extractFromObject_rec_empty_prefix fuel obj keyPath file :
  extractFromObject_rec fuel obj keyPath file (Some "")
  = extractFromObject_rec fuel obj keyPath file None.
Proof.
  revert obj keyPath. induction fuel as [|fuel IH]; intros obj keyPath; [done|].
  destruct obj as [| | |s|items|properties]; simpl; try done.
  - f_equal. apply imap_ext. intros i item _. apply IH.
  - f_equal. apply map_ext. intros [key value]. apply IH.
Qed.

(** X29.  [extractFromObject] makes one unit for each string in the parsed
    value and nothing of numbers, booleans and [null]: the units are those
    of a list of the strings with their paths, which holds exactly the
    strings that a path of array indices and property names leads to, no
    path twice, each under its key path behind the prefix.  The units come
    in the order of the traversal: the items of an array by index, the
    properties of an object in the order of [Object.entries], that is the
    array-index keys in ascending order first and then the other keys in the
    order of their creation, which is not the order of the document.  An
    empty key prefix is no prefix.  Each unit names its file and has an id
    of at most 16 code units, and a translation with the placeholders of the
    source text passes the placeholder check. *)
Theorem extractFromObject_units (obj : Json) (keyPath : list string) (file : string)
    (prefix : option string) :
  distinct_names obj = true →
  let units := extractFromObject obj keyPath file prefix in
  (∃ found : list (list string * string),
     units = map (λ found, createSourceUnit (fullKeyPath prefix (keyPath ++ found.1))
                                            found.2 file) found
     ∧ NoDup found.*1
     ∧ (∀ path text, (path, text) ∈ found ↔ string_at obj path text)
     ∧ StronglySorted (λ a b, path_before obj a.1 b.1) found)
  ∧ extractFromObject obj keyPath file (Some "") = extractFromObject obj keyPath file None
  ∧ ∀ u, u ∈ units →
      sourceFile u = file
      ∧ String.length (unitId u) ≤ 16
      ∧ ∀ result,
          extractPlaceholders (translatedText result) = extractPlaceholders (sourceText u) →
          validatePlaceholders u result = [].
Proof.
  intros Hwf units. unfold units, JsonExtractor.extractFromObject.
  destruct (extractFromObject_rec_found obj (S (depth obj)) keyPath file prefix)
    as (found & Hunits & Hmem & Hsort); [lia|done|].
  split_and!.
  - exists found. split_and!; [done|by eapply sorted_paths_NoDup|done..].
  - apply extractFromObject_rec_empty_prefix.
  - intros u. rewrite Hunits.
    intros ([path text] & -> & _)%list_elem_of_fmap. simpl.
    split_and!; [done|apply substring_length_le|].
    intros result Hsame. apply validatePlaceholders_nil_iff. intros p. simpl.
    by rewrite Hsame.
Qed.

End ExtractorFacts.

(** * The further properties at concrete inputs *)

Section FurtherWitnesses.
Import Ledger Types Planner PlannerSpec LedgerQueries RunHistory Scenario.

(** The failed greeting is reported dirty and planned. *)
Lemma dirty_keys_are_planned_witness :
  keyPath greeting ∈ getDirtyKeys failedGreeting "fr"
  ∧ plan_includes (createPlan idHash clock failedGreeting [greeting; farewell] [french])
      greeting "fr".
Proof.
  assert (keyPath greeting ∈ getDirtyKeys failedGreeting (shortCode french)) as Hdirty.
  { vm_compute. apply list_elem_of_here. }
  split; [exact Hdirty|].
  apply (dirty_keys_are_planned idHash clock failedGreeting [greeting; farewell] [french]
           greeting french).
  - apply list_elem_of_here.
  - apply list_elem_of_here.
  - exact Hdirty.
Defined.

#[local] Instance newer_first_total : Total newer_first.
Proof. intros a b. unfold newer_first. destruct (total String.le (started_at a.2) (started_at b.2)); auto. Qed.

Lemma stableOrder_perm rows : stableOrder rows ≡ₚ rows.
Proof. apply merge_sort_Permutation. Qed.

Lemma stableOrder_sorted rows : Sorted newer_first (stableOrder rows).
Proof. apply (Sorted_merge_sort _). Qed.

(** Keeping two of three runs. *)
Lemma cleanupHistory_spec_witness :
  size (cleanupHistory stableOrder threeRuns (Some 2%Z)) = 2
  ∧ cleanupHistory stableOrder (cleanupHistory stableOrder threeRuns (Some 2%Z)) (Some 2%Z)
    = cleanupHistory stableOrder threeRuns (Some 2%Z).
Proof.
  destruct (cleanupHistory_spec stableOrder stableOrder_perm stableOrder_sorted
              threeRuns (Some 2%Z)) as (_ & _ & Hsize & _ & Hagain).
  split; [|exact Hagain].
  rewrite Hsize by done. reflexivity.
Defined.

(** The latest of the three runs is a run of the history. *)
Lemma getLatestRun_spec_witness :
  getLatestRun stableOrder threeRuns ≠ None
  ∧ ∀ id row, getLatestRun stableOrder threeRuns = Some (id, row) →
      threeRuns !! id = Some row.
Proof.
  destruct (getLatestRun_spec stableOrder stableOrder_perm stableOrder_sorted threeRuns)
    as [Hnone Hsome].
  split.
  - intros Hn%Hnone. apply (f_equal size) in Hn. vm_compute in Hn. discriminate.
  - intros id row Hrun. by apply Hsome in Hrun as [? _].
Defined.

(** After the first sync the greeting was edited: still nothing is planned
    for French, where its row is [CLEAN]; for German it has no row. *)
Lemma plan_after_recordSourceHashes_witness :
  let env := runOf [greeting'; farewell; welcome] [french; german] echoProvider in
  let plan :=
    createPlan idHash clock
      (Compiler.recordSourceHashes env afterFirstSync 1 "run_1" [greeting'; farewell; welcome])
      [greeting'; farewell; welcome] [french; german] in
  ¬ plan_includes plan greeting' "fr" ∧ plan_includes plan greeting' "de".
Proof.
  intros env plan.
  assert (NoDup (keyPath <$> [greeting'; farewell; welcome])) as Hnd
    by (apply (bool_decide_unpack _); vm_compute; exact I).
  assert (greeting' ∈ [greeting'; farewell; welcome]) as Hu by apply list_elem_of_here.
  assert (sourceHash greeting' ≠ "") as Hne by done.
  split.
  - assert (french ∈ Compiler.targetLanguages env) as Hl by apply list_elem_of_here.
    intros Hinc.
    apply (plan_after_recordSourceHashes env afterFirstSync 1 "run_1" _ _ _ Hnd Hu Hl Hne)
      in Hinc.
    destruct Hinc as [Hnone|(s & Hs & Hst)].
    + vm_compute in Hnone. discriminate.
    + vm_compute in Hs. injection Hs as <-. simpl in Hst. by destruct Hst.
  - assert (german ∈ Compiler.targetLanguages env) as Hl
      by apply list_elem_of_further, list_elem_of_here.
    apply (plan_after_recordSourceHashes env afterFirstSync 1 "run_1" _ _ _ Hnd Hu Hl Hne).
    left. vm_compute. reflexivity.
Defined.

(** The same extraction, French only: the run translates nothing. *)
Lemma sync_settled_pairs_witness :
  let env := runOf [greeting'; farewell; welcome] [french] echoProvider in
  let r := Compiler.sync env afterFirstSync ∅ [] in
  CompilerSpec.files_of r = []
  ∧ sync_status (CompilerSpec.ledger_of r) = sync_status afterFirstSync
  ∧ getSourceHash (CompilerSpec.ledger_of r) "greeting" = Some "Hello!".
Proof.
  intros env r.
  destruct (sync_settled_pairs env afterFirstSync ∅ [] [greeting'; farewell; welcome])
    as (Hfiles & Hrows & Hhashes & _).
  - reflexivity.
  - apply lookup_empty.
  - apply (bool_decide_unpack _). vm_compute. exact I.
  - intros u Hu.
    repeat (apply elem_of_cons in Hu as [->|Hu]; [done|]). by apply elem_of_nil in Hu.
  - intros u lang Hu ->%list_elem_of_singleton.
    repeat (apply elem_of_cons in Hu as [->|Hu];
            [match goal with
             | |- ∃ s, getSyncStatus ?L ?k ?l = Some s ∧ _ =>
                 destruct (getSyncStatus L k l) as [s|] eqn:Hs; vm_compute in Hs;
                 [injection Hs as <-; eexists; split; [reflexivity|split; discriminate]
                 |discriminate]
             end|]).
    by apply elem_of_nil in Hu.
  - split_and!; [exact Hfiles|exact Hrows|].
    apply (Hhashes greeting'), list_elem_of_here.
Defined.

(** A first run against a provider that rejects everything: six pairs
    failed, no row written. *)
Lemma sync_rejected_requests_witness :
  let env := runOf [greeting; farewell; welcome] [french; german] deafProvider in
  let r := Compiler.sync env Ledger.empty ∅ [] in
  sync_status (CompilerSpec.ledger_of r) = ∅
  ∧ ∃ stats, CompilerSpec.outcome_of r = Compiler.Returned stats
      ∧ Compiler.Stats.failedUnits stats = 6
      ∧ Compiler.Stats.skippedUnits stats = (-3)%Z.
Proof.
  intros env r.
  destruct (sync_rejected_requests env Ledger.empty ∅ [] [greeting; farewell; welcome]
              deafProvider)
    as (_ & Hrows & stats & Hout & _ & Hfailed & Hskipped & _).
  - reflexivity.
  - apply lookup_empty.
  - reflexivity.
  - reflexivity.
  - split; [exact Hrows|]. exists stats. split; [exact Hout|].
    split; [rewrite Hfailed|rewrite Hskipped]; vm_compute; reflexivity.
Defined.

(** A first run against the echoing provider: six pairs, 300 tokens in. *)
Lemma sync_answered_requests_witness :
  let env := runOf [greeting; farewell; welcome] [french; german] echoProvider in
  let r := Compiler.sync env Ledger.empty ∅ [] in
  ∃ stats, CompilerSpec.outcome_of r = Compiler.Returned stats
    ∧ Compiler.Stats.translatedUnits stats + Compiler.Stats.failedUnits stats = 6
    ∧ Compiler.Stats.tokensIn stats = 300.
Proof.
  intros env r.
  destruct (sync_answered_requests env Ledger.empty ∅ [] [greeting; farewell; welcome]
              echoProvider)
    as [(stats & Hout & Hcount & _ & Hin & _) _].
  - reflexivity.
  - apply lookup_empty.
  - reflexivity.
  - intros n batch prompt. eexists. split; [reflexivity|]. apply length_map.
  - reflexivity.
  - exists stats. split; [exact Hout|].
    split; [rewrite Hcount|rewrite Hin]; vm_compute; reflexivity.
Defined.

(** After that run the greeting is [CLEAN] for French, so a second run does
    not plan it. *)
Lemma sync_then_plan_witness :
  let env := runOf [greeting; farewell; welcome] [french; german] echoProvider in
  let L' := CompilerSpec.ledger_of (Compiler.sync env Ledger.empty ∅ []) in
  ¬ plan_includes
      (createPlan idHash clock
         (Compiler.recordSourceHashes env L' 1 "run_2" [greeting; farewell; welcome])
         [greeting; farewell; welcome] [french; german]) greeting "fr".
Proof.
  intros env L' Hinc.
  apply (sync_then_plan env Ledger.empty ∅ [] [greeting; farewell; welcome] echoProvider
           1 "run_2" greeting french) in Hinc.
  - destruct Hinc as (s & Hs & Hst). vm_compute in Hs. injection Hs as <-. done.
  - reflexivity.
  - apply lookup_empty.
  - reflexivity.
  - intros n batch prompt. eexists. split; [reflexivity|]. apply length_map.
  - reflexivity.
  - apply (bool_decide_unpack _). vm_compute. exact I.
  - intros u Hu.
    repeat (apply elem_of_cons in Hu as [->|Hu]; [done|]). by apply elem_of_nil in Hu.
  - apply list_elem_of_here.
  - apply list_elem_of_here.
Defined.

(** The run against the provider that rejects everything reports a cost
    that is not a number. *)
Lemma sync_cost_of_nothing_witness :
  let env := runOf [greeting; farewell; welcome] [french; german] deafProvider in
  match CompilerSpec.outcome_of (Compiler.sync env Ledger.empty ∅ []) with
  | Compiler.Returned stats =>
      PrimFloat.is_nan (Compiler.Stats.costEstimateUsd stats) = true
  | Compiler.Thrown => False
  end.
Proof.
  intros env.
  destruct (CompilerSpec.outcome_of (Compiler.sync env Ledger.empty ∅ [])) as [stats|] eqn:Hout.
  - apply (sync_cost_of_nothing env Ledger.empty ∅ [] [greeting; farewell; welcome]
             deafProvider stats).
    + reflexivity.
    + reflexivity.
    + reflexivity.
    + exists greeting, french.
      split; [apply list_elem_of_here|]. split; [apply list_elem_of_here|].
      vm_compute. reflexivity.
    + exact Hout.
    + pose proof Hout as Hstats. vm_compute in Hstats. injection Hstats as <-. reflexivity.
  - vm_compute in Hout. discriminate.
Defined.

(** The members b, 10, a and 2 of the document are extracted in the order
    2, 10, b, a. *)
Lemma extractFromObject_units_witness :
  let units :=
    JsonExtractor.extractFromObject idHash (λ _, None) document [] "en.json" (Some "app") in
  map keyPath units = ["app.2"; "app.10.0"; "app.10.2"; "app.b"; "app.a"]
  ∧ ExtractorSpec.path_before document ["2"] ["10"; "0"]
  ∧ ExtractorSpec.path_before document ["10"; "2"] ["b"]
  ∧ ExtractorSpec.path_before document ["b"] ["a"]
  ∧ ¬ ExtractorSpec.path_before document ["b"] ["2"]
  ∧ ∀ u, u ∈ units → sourceFile u = "en.json" ∧ String.length (unitId u) ≤ 16.
Proof.
  intros units. split; [by vm_compute|].
  split; [apply ExtractorSpec.before_keys, key_before_cases; by vm_compute|].
  split; [apply ExtractorSpec.before_keys, key_before_cases; by vm_compute|].
  split.
  { apply ExtractorSpec.before_keys, key_before_cases. vm_compute.
    exists 0, 2. repeat constructor. }
  split.
  { unfold document. inversion 1 as [| |? ? ? ? ? Hkeys|]; subst.
    apply key_before_cases in Hkeys. by vm_compute in Hkeys. }
  intros u Hu.
  assert (ExtractorSpec.distinct_names document = true) as Hwf by by vm_compute.
  destruct (extractFromObject_units idHash (λ _, None) document [] "en.json" (Some "app") Hwf)
    as (_ & _ & Hfields).
  destruct (Hfields u Hu) as (Hfile & Hid & _). done.
Defined.

(** Three retries allowed, two needed: three calls, 3000 ms asked for. *)
Lemma retryWithBackoff_spec_witness :
  ∃ r, BaseLLMProvider.retryWithBackoff flaky 3 4 0 0 = Some r
       ∧ BaseLLMProvider.calls r ≤ 4
       ∧ BaseLLMProvider.outcome r = flaky (BaseLLMProvider.calls r - 1).
Proof.
  destruct (retryWithBackoff_spec flaky 3%Z) as (r & Hfuel & Hcalls & _ & _ & _ & Hout & _).
  - lia.
  - exists r. split; [apply Hfuel; simpl; lia|]. split; [simpl in Hcalls; lia|done].
Defined.

End FurtherWitnesses.
